(** * Content-moderation engine (src/utils/securityLogger.js, class
    ContentModerationSystem): a shallow embedding and its properties.

    Conventions of the embedding.
    - A JavaScript string is the list of its UTF-16 code units ([list N]);
      [.length] is the length of that list.  Guild, channel and role ids are
      opaque keys and are kept as [string].
    - Integer quantities (lengths, indices, edit distances, timestamps) are
      [nat] or [Z]; where the source lets an index go negative it is a [Z].
    - Scores are JavaScript numbers.  The engine is written once over a
      [Number] interface with two instances: IEEE binary64 ([float], what
      the runtime computes with) and exact rationals ([Q], used for order
      reasoning).
    - [console.log] output is not part of the model.
    - The word store (a Sequelize model in the source) is an interface
      [StoreOps]; an in-memory instance following src/models/BadWord.js is
      used to run the engine on concrete inputs. *)

From Stdlib Require Import ZArith NArith QArith Lqa Floats List Bool String
  Ascii.
From stdpp Require Import base gmap strings list.

Local Open Scope Z_scope.

(** ** JavaScript strings *)
Module JS.

Abbreviation jsstring := (list N).

(** An ASCII literal as a JavaScript string. *)
Definition str (s : string) : jsstring :=
  map N_of_ascii (list_ascii_of_string s).

Definition inRange (lo hi c : N) : bool := ((lo <=? c) && (c <=? hi))%N.

(** [\s] of ECMAScript regular expressions; also what [trim] strips. *)
Definition isSpace (c : N) : bool :=
  inRange 9 13 c || (c =? 32)%N || (c =? 160)%N || (c =? 0x1680)%N
  || inRange 0x2000 0x200a c || (c =? 0x2028)%N || (c =? 0x2029)%N
  || (c =? 0x202f)%N || (c =? 0x205f)%N || (c =? 0x3000)%N || (c =? 0xfeff)%N.

(** Line terminators, the code units [.] does not match. *)
Definition isLineTerminator (c : N) : bool :=
  (c =? 10)%N || (c =? 13)%N || (c =? 0x2028)%N || (c =? 0x2029)%N.

Definition isDot (c : N) : bool := negb (isLineTerminator c).
Definition isDigit (c : N) : bool := inRange 48 57 c.
Definition isUpperAscii (c : N) : bool := inRange 65 90 c.
Definition isLowerAscii (c : N) : bool := inRange 97 122 c.
Definition isAsciiLetter (c : N) : bool := isUpperAscii c || isLowerAscii c.

(** [\w], which decides where [\b] holds. *)
Definition isWordChar (c : N) : bool :=
  isAsciiLetter c || isDigit c || (c =? 95)%N.

(** [[a-zA-ZႠ-ჿ]]: Latin letters and the Georgian block. *)
Definition isLetter (c : N) : bool := isAsciiLetter c || inRange 0x10a0 0x10ff c.

(** [toLowerCase] on one code unit.  The case pairs of the scripts that the
    engine's tables mention are covered (Basic Latin, Latin-1, Cyrillic,
    Georgian); a code unit of another script is returned unchanged, so
    this is [String.prototype.toLowerCase] on the code units of [covered]
    below, not on Greek, Latin Extended or the Kelvin sign. *)
Definition lowerUnit (c : N) : N :=
  if isUpperAscii c then (c + 32)%N
  else if inRange 0xc0 0xde c && negb (c =? 0xd7)%N then (c + 32)%N
  else if inRange 0x400 0x40f c then (c + 80)%N
  else if inRange 0x410 0x42f c then (c + 32)%N
  else if inRange 0x10a0 0x10c5 c || (c =? 0x10c7)%N || (c =? 0x10cd)%N
       then (c + 0x1c60)%N
  else if inRange 0x1c90 0x1cba c || inRange 0x1cbd 0x1cbf c
       then (c - 0xbc0)%N
  else c.

Definition upperAsciiUnit (c : N) : N :=
  if isLowerAscii c then (c - 32)%N else c.

Definition toLowerCase (s : jsstring) : jsstring := map lowerUnit s.

Definition eqb (s t : jsstring) : bool := bool_decide (s = t).

Fixpoint startsWith (s t : jsstring) : bool :=
  match t, s with
  | [], _ => true
  | _ :: _, [] => false
  | b :: t', a :: s' => (a =? b)%N && startsWith s' t'
  end.

(** [s.includes(t)] *)
Fixpoint includes (s t : jsstring) : bool :=
  startsWith s t ||
  match s with
  | [] => false
  | _ :: s' => includes s' t
  end.

Fixpoint trimStart (s : jsstring) : jsstring :=
  match s with
  | c :: s' => if isSpace c then trimStart s' else s
  | [] => []
  end.

Definition trim (s : jsstring) : jsstring :=
  rev (trimStart (rev (trimStart s))).

Definition clampIndex (len : nat) (i : Z) : nat :=
  Z.to_nat (Z.min (Z.max i 0) (Z.of_nat len)).

(** [s.substring(a, b)]: both ends are clamped to [0, length] and swapped
    when they come in the wrong order. *)
Definition substring (s : jsstring) (a b : Z) : jsstring :=
  let a' := clampIndex (length s) a in
  let b' := clampIndex (length s) b in
  let lo := Nat.min a' b' in
  let hi := Nat.max a' b' in
  take (hi - lo) (drop lo s).

(** [s.split(/\s+/)] *)
Fixpoint splitSpaces (s cur : jsstring) (inGap : bool) : list jsstring :=
  match s with
  | [] => [cur]
  | c :: s' =>
      if isSpace c
      then (if inGap then splitSpaces s' [] true
            else cur :: splitSpaces s' [] true)
      else splitSpaces s' (cur ++ [c]) false
  end.

Definition isHighSurrogate (c : N) : bool := inRange 0xd800 0xdbff c.
Definition isLowSurrogate (c : N) : bool := inRange 0xdc00 0xdfff c.

(** [[...s]]: the string cut into code points, a surrogate pair staying
    together. *)
Fixpoint codePoints (s : jsstring) : list jsstring :=
  match s with
  | [] => []
  | c :: s' =>
      match s' with
      | d :: s'' =>
          if isHighSurrogate c && isLowSurrogate d
          then [c; d] :: match codePoints s' with
                         | _ :: r => r
                         | [] => []
                         end
          else [c] :: codePoints s'
      | [] => [[c]]
      end
  end.

End JS.

Import JS.

(** ** Regular expressions
    Every pattern of the engine is a sequence of items that each match one
    code unit, a greedy run of one class, a greedy run of the first
    capture, or a word boundary.  The matcher backtracks over the runs the
    way the runtime does: longest run first. *)
Module Rx.

Inductive item :=
| One (p : N -> bool)                (* one code unit of a class *)
| Cap (p : N -> bool)                (* ( ) around one code unit *)
| Many (p : N -> bool) (min : nat)   (* class{min,}, greedy *)
| SameRun (min : nat)                   (* \1{min,}, greedy *)
| WordB.                             (* \b *)

Definition pattern := list item.

Definition isWordOpt (o : option N) : bool :=
  match o with
  | Some c => isWordChar c
  | None => false
  end.

Definition bump (r : option (jsstring * nat)) : option (jsstring * nat) :=
  match r with
  | Some (caps, n) => Some (caps, S n)
  | None => None
  end.

(** [matchItems its prev s caps]: match [its] at the start of [s], [prev]
    being the code unit before it.  Returns the captures and the number of
    code units consumed. *)
Fixpoint matchItems (its : pattern) (prev : option N) (s : jsstring)
    (caps : jsstring) {struct its} : option (jsstring * nat) :=
  match its with
  | [] => Some (caps, O)
  | One p :: r =>
      match s with
      | c :: s' => if p c then bump (matchItems r (Some c) s' caps) else None
      | [] => None
      end
  | Cap p :: r =>
      match s with
      | c :: s' =>
          if p c then bump (matchItems r (Some c) s' (caps ++ [c])) else None
      | [] => None
      end
  | Many p min :: r =>
      (fix run (min : nat) (prev : option N) (s : jsstring) {struct s}
         : option (jsstring * nat) :=
         let stop := match min with
                     | O => matchItems r prev s caps
                     | S _ => None
                     end in
         match s with
         | c :: s' =>
             if p c
             then match bump (run (Nat.pred min) (Some c) s') with
                  | Some x => Some x
                  | None => stop
                  end
             else stop
         | [] => stop
         end) min prev s
  | SameRun min :: r =>
      let p := fun c => match caps with
                        | g :: _ => (c =? g)%N
                        | [] => false
                        end in
      (fix run (min : nat) (prev : option N) (s : jsstring) {struct s}
         : option (jsstring * nat) :=
         let stop := match min with
                     | O => matchItems r prev s caps
                     | S _ => None
                     end in
         match s with
         | c :: s' =>
             if p c
             then match bump (run (Nat.pred min) (Some c) s') with
                  | Some x => Some x
                  | None => stop
                  end
             else stop
         | [] => stop
         end) min prev s
  | WordB :: r =>
      if xorb (isWordOpt prev) (isWordOpt (head s))
      then matchItems r prev s caps
      else None
  end.

(** Replacement templates: [$n] and literal text. *)
Inductive piece :=
| Grp (n : nat)
| Lit (s : jsstring).

Definition groups (its : pattern) : nat :=
  length (List.filter (fun i => match i with Cap _ => true | _ => false end) its).

(** [$n] stands for the n-th capture when the pattern has that many
    groups, and for itself otherwise. *)
Definition expandPiece (its : pattern) (caps : jsstring) (p : piece)
  : jsstring :=
  match p with
  | Lit s => s
  | Grp n =>
      if (n <=? groups its)%nat
      then match caps !! Nat.pred n with
           | Some c => [c]
           | None => []
           end
      else 36%N :: [(48 + N.of_nat n)%N]
  end.

Definition expand (its : pattern) (tpl : list piece) (caps : jsstring)
  : jsstring :=
  concat (map (expandPiece its caps) tpl).

(** [s.replace(/its/g, tpl)]: leftmost matches, none overlapping; [skip]
    counts the code units of the current match still to pass over. *)
Fixpoint replaceFrom (its : pattern) (tpl : list piece) (skip : nat)
    (prev : option N) (s : jsstring) : jsstring :=
  match s with
  | [] =>
      match skip, matchItems its prev [] [] with
      | O, Some (caps, _) => expand its tpl caps
      | _, _ => []
      end
  | c :: s' =>
      match skip with
      | S k => replaceFrom its tpl k (Some c) s'
      | O =>
          match matchItems its prev s [] with
          | Some (caps, S n) =>
              expand its tpl caps ++ replaceFrom its tpl n (Some c) s'
          | Some (caps, O) =>
              expand its tpl caps ++ c :: replaceFrom its tpl O (Some c) s'
          | None => c :: replaceFrom its tpl O (Some c) s'
          end
      end
  end.

Definition replaceAll (its : pattern) (tpl : list piece) (s : jsstring)
  : jsstring :=
  replaceFrom its tpl O None s.

(** The pattern of [new RegExp(escapeRegex(t), 'g')]: the text [t] itself. *)
Definition literal (t : jsstring) : pattern :=
  map (fun c => One (N.eqb c)) t.

(** The same under the [i] flag, for a pattern of ASCII text. *)
Definition literalNoCase (t : jsstring) : pattern :=
  map (fun c => One (fun x => (x =? c)%N || (upperAsciiUnit x =? upperAsciiUnit c)%N)) t.

End Rx.

Import Rx.

(** ** JavaScript numbers *)
Class Number (R : Type) := {
  num_ofZ : Z -> R;
  num_add : R -> R -> R;
  num_sub : R -> R -> R;
  num_mul : R -> R -> R;
  num_div : R -> R -> R;
  num_ltb : R -> R -> bool;
  num_leb : R -> R -> bool;
  num_max : R -> R -> R;          (* Math.max *)
  num_min : R -> R -> R           (* Math.min *)
}.

Declare Scope num_scope.
Delimit Scope num_scope with num.
Infix "+" := num_add : num_scope.
Infix "-" := num_sub : num_scope.
Infix "*" := num_mul : num_scope.
Infix "/" := num_div : num_scope.
Notation "x <? y" := (num_ltb x y) : num_scope.
Notation "x >? y" := (num_ltb y x) : num_scope.
Notation "x <=? y" := (num_leb x y) : num_scope.
Notation "x >=? y" := (num_leb y x) : num_scope.

(** The decimal literal [n/d], e.g. [dec 85 100] for [0.85]: both [n] and
    [d] are exact in binary64 and the division rounds to nearest, so this
    is the double the literal denotes. *)
Definition dec {R} `{Number R} (n d : Z) : R := (num_ofZ n / num_ofZ d)%num.

Module FloatNum.

Definition ofZ (z : Z) : float :=
  if z <? 0 then PrimFloat.opp (PrimFloat.of_uint63 (Uint63.of_Z (- z)))
  else PrimFloat.of_uint63 (Uint63.of_Z z).

(** [Math.max]: NaN if either argument is; [+0] is above [-0]. *)
Definition max (x y : float) : float :=
  if PrimFloat.is_nan x || PrimFloat.is_nan y then PrimFloat.nan
  else if PrimFloat.ltb x y then y
  else if PrimFloat.ltb y x then x
  else if PrimFloat.is_zero x && PrimFloat.get_sign x then y
  else x.

Definition min (x y : float) : float :=
  if PrimFloat.is_nan x || PrimFloat.is_nan y then PrimFloat.nan
  else if PrimFloat.ltb x y then x
  else if PrimFloat.ltb y x then y
  else if PrimFloat.is_zero x && PrimFloat.get_sign x then x
  else y.

End FloatNum.

#[export] Instance float_number : Number float := {|
  num_ofZ := FloatNum.ofZ;
  num_add := PrimFloat.add;
  num_sub := PrimFloat.sub;
  num_mul := PrimFloat.mul;
  num_div := PrimFloat.div;
  num_ltb := PrimFloat.ltb;
  num_leb := PrimFloat.leb;
  num_max := FloatNum.max;
  num_min := FloatNum.min
|}.

(** Exact rationals, kept in lowest terms: the formulas without rounding.
    The code computes on [float_number]; this instance serves statements
    that say "in exact arithmetic".  A division by zero gives 0 here and
    NaN or an infinity on doubles, as in [calculateCharacterOverlap] of
    two empty strings. *)
#[export] Instance Q_number : Number Q := {|
  num_ofZ := inject_Z;
  num_add := fun x y => Qred (x + y);
  num_sub := fun x y => Qred (x - y);
  num_mul := fun x y => Qred (x * y);
  num_div := fun x y => Qred (x / y);
  num_ltb := fun x y => negb (Qle_bool y x);
  num_leb := Qle_bool;
  num_max := fun x y => if Qle_bool x y then y else x;
  num_min := fun x y => if Qle_bool x y then x else y
|}.

(** ** The engine's tables *)

Inductive Severity := LOW | MEDIUM | HIGH.

#[export] Instance Severity_eq_dec : EqDecision Severity.
Proof. solve_decision. Defined.

(** [georgianQwertyMap], in the order [Object.entries] lists it. *)
Definition georgianQwertyMap : list (jsstring * jsstring) :=
  [ (str "q", [0x10e5]); (str "w", [0x10ec]); (str "e", [0x10d4]);
    (str "r", [0x10e0]); (str "t", [0x10e2]); (str "y", [0x10e7]);
    (str "u", [0x10e3]); (str "i", [0x10d8]); (str "o", [0x10dd]);
    (str "p", [0x10de]);
    (str "a", [0x10d0]); (str "s", [0x10e1]); (str "d", [0x10d3]);
    (str "f", [0x10e4]); (str "g", [0x10d2]); (str "h", [0x10f0]);
    (str "j", [0x10ef]); (str "k", [0x10d9]); (str "l", [0x10da]);
    (str "z", [0x10d6]); (str "x", [0x10ee]); (str "c", [0x10ea]);
    (str "v", [0x10d5]); (str "b", [0x10d1]); (str "n", [0x10dc]);
    (str "m", [0x10db]) ]%N.

(** [buildSubstitutionMap()].  The digit keys come first and ascending in
    [Object.entries], which is also how the source lists them. *)
Definition buildSubstitutionMap : list (jsstring * list jsstring) :=
  [ (str "0", [str "o"; [0x10dd]]); (str "1", [str "i"; str "l"; [0x10d8]]);
    (str "3", [str "e"; [0x10d4]]); (str "4", [str "a"; [0x10d0]]);
    (str "5", [str "s"; [0x10e1]]); (str "6", [str "g"; [0x10d2]]);
    (str "7", [str "t"; [0x10e2]]); (str "8", [str "b"; [0x10d1]]);
    (str "9", [str "g"; [0x10d2]]);
    (str "@", [str "a"; [0x10d0]]); (str "!", [str "i"; [0x10d8]]);
    (str "#", [str "h"]); (str "$", [str "s"; [0x10e1]]);
    (str "%", [str "s"; [0x10e1]]); (str "^", [str "a"; [0x10d0]]);
    (str "&", [str "a"; [0x10d0]]); (str "*", [str "a"; [0x10d0]]);
    (str "(", [str "c"; [0x10ea]]); (str ")", [str "c"; [0x10ea]]);
    (str "-", [[]]); (str "_", [[]]);
    (str "+", [str "t"; [0x10e2]]); (str "=", [str "e"; [0x10d4]]);
    (str "[", [str "c"; [0x10ea]]); (str "]", [str "c"; [0x10ea]]);
    (str "{", [str "c"; [0x10ea]]); (str "}", [str "c"; [0x10ea]]);
    (str "|", [str "i"; str "l"; [0x10d8]]);
    ([0x5c], [[]]); (str "/", [[]]); (str ":", [[]]); (str ";", [[]]);
    ([0x22], [[]]); (str "'", [[]]);
    (str "<", [str "c"; [0x10ea]]); (str ">", [str "c"; [0x10ea]]);
    (str ",", [[]]); (str ".", [[]]); (str "?", [[]]); (str "~", [[]]);
    (str "`", [[]]);
    (* Cyrillic look-alikes *)
    ([0x430], [str "a"]); ([0x435], [str "e"]); ([0x43e], [str "o"]);
    ([0x440], [str "p"]); ([0x441], [str "c"]); ([0x443], [str "y"]);
    ([0x445], [str "x"]);
    ([0x410], [str "A"]); ([0x415], [str "E"]); ([0x41e], [str "O"]);
    ([0x420], [str "P"]); ([0x421], [str "C"]); ([0x423], [str "Y"]);
    ([0x425], [str "X"]);
    (* visual similarities *)
    (str "vv", [str "w"]); (str "w", [str "vv"]); (str "rn", [str "m"]);
    (str "m", [str "rn"]); (str "cl", [str "d"]); (str "ii", [str "u"]);
    (str "oo", [str "8"]); (str "ll", [str "u"]); (str "nn", [str "u"]) ]%N.

(** [buildPhoneticPatterns()] *)
Definition buildPhoneticPatterns : list (jsstring * list jsstring) :=
  [ (str "f", [str "ph"; str "gh"]); (str "k", [str "c"; str "ck"; str "q"]);
    (str "s", [str "z"; str "ss"]); (str "i", [str "y"; str "ee"]);
    (str "u", [str "oo"; str "ou"]); (str "er", [str "ur"; str "or"]);
    (str "tion", [str "shun"; str "sion"]); (str "ph", [str "f"]);
    (str "ck", [str "k"]); (str "qu", [str "kw"]); (str "x", [str "ks"]);
    (str "z", [str "s"]) ].

(** [buildBypassPatterns()] *)
Definition buildBypassPatterns : list pattern :=
  [ (* /(.)\s+(.)/g *)
    [Cap isDot; Many isSpace 1; Cap isDot];
    (* /(.)\1{2,}/g *)
    [Cap isDot; SameRun 2];
    (* /([A-Z])([a-z])/g *)
    [Cap isUpperAscii; Cap isLowerAscii];
    (* /(.)\.\s*(.)/g *)
    [Cap isDot; One (N.eqb 46); Many isSpace 0; Cap isDot];
    (* /(.)[-_]\s*(.)/g *)
    [Cap isDot; One (fun c => (c =? 45)%N || (c =? 95)%N); Many isSpace 0;
     Cap isDot];
    (* /([a-zA-Z])\d+([a-zA-Z])/g *)
    [Cap isAsciiLetter; Many isDigit 1; Cap isAsciiLetter] ].

(** The dictionary [georgianPatterns] of [convertQwertyToGeorgian]. *)
Definition georgianPatterns : list (jsstring * list jsstring) :=
  [ (str "debili", [[0x10d3; 0x10d4; 0x10d1; 0x10d8; 0x10da; 0x10d8];
                    [0x10d3; 0x33; 0x10d1; 0x10d8; 0x10da; 0x10d8];
                    str "d3bili"; str "deb1li"]);
    (str "dibili", [[0x10d3; 0x10d4; 0x10d1; 0x10d8; 0x10da; 0x10d8];
                    [0x10d3; 0x10d8; 0x10d1; 0x10d8; 0x10da; 0x10d8]]);
    (str "sheni deda", [[0x10e8; 0x10d4; 0x10dc; 0x10d8; 0x20; 0x10d3;
                         0x10d4; 0x10d3; 0x10d0]; str "sh3ni d3da"]);
    (str "mokvdi", [[0x10db; 0x10dd; 0x10d9; 0x10d5; 0x10d3; 0x10d8];
                    str "m0kvdi"]);
    (str "bozi", [[0x10d1; 0x10dd; 0x10d6; 0x10d8]; str "b0zi"]);
    (str "zaghli", [[0x10eb; 0x10d0; 0x10e6; 0x10da; 0x10d8]; str "z4ghli"]);
    (str "kurva", [[0x10d9; 0x10e3; 0x10e0; 0x10d5; 0x10d0]; str "kurv4"]);
    (str "qle", [[0x10e7; 0x10da; 0x10d4]; str "yl3"]);
    (str "yle", [[0x10e7; 0x10da; 0x10d4]; str "ql3"]);
    (str "ubeduri", [[0x10e3; 0x10d1; 0x10d4; 0x10d3; 0x10e3; 0x10e0; 0x10d8];
                     str "ub3duri"]);
    (str "suleli", [[0x10e1; 0x10e3; 0x10da; 0x10d4; 0x10da; 0x10d8];
                    str "sul3li"]);
    (str "cudi", [[0x10ea; 0x10e3; 0x10d3; 0x10d8]; str "cud1"]) ]%N.

(** ** Text normalization *)

(** [escapeRegex(string)], compiled: with every special character escaped
    the expression matches [string] itself. *)
Definition escapeRegex (string_ : jsstring) : pattern := literal string_.

(** [generatePhoneticVariation(text)] *)
Definition generatePhoneticVariation (text : jsstring) : jsstring :=
  fold_left
    (fun phonetic '(original, replacements) =>
       fold_left
         (fun phonetic replacement =>
            (* new RegExp(replacement, 'g'), the replacements being plain
               letters *)
            replaceAll (literal replacement) [Lit original] phonetic)
         replacements phonetic)
    buildPhoneticPatterns text.

(** [deepNormalizeText(text)] *)
Definition deepNormalizeText (text : jsstring) : list jsstring :=
  let normalized := toLowerCase text in
  (* /\s+/g -> ' ', then trim *)
  let normalized := trim (replaceAll [Many isSpace 1] [Lit (str " ")] normalized) in
  let normalized :=
    fold_left
      (fun normalized '(original, replacements) =>
         fold_left
           (fun normalized replacement =>
              let regex := escapeRegex original in
              replaceAll regex [Lit replacement] normalized)
           replacements normalized)
      buildSubstitutionMap normalized in
  let normalized :=
    fold_left
      (fun normalized pattern => replaceAll pattern [Grp 1; Grp 2] normalized)
      buildBypassPatterns normalized in
  (* /[^a-zA-ZႠ-ჿ\s]/g -> '' *)
  let lettersOnly :=
    replaceAll [One (fun c => negb (isLetter c || isSpace c))] [] normalized in
  let variations :=
    [ normalized;
      lettersOnly;
      (* /\s+/g -> '': no spaces *)
      replaceAll [Many isSpace 1] [] lettersOnly;
      (* /(.)\1+/g -> '$1': remove duplicates *)
      replaceAll [Cap isDot; SameRun 1] [Grp 1] lettersOnly;
      generatePhoneticVariation lettersOnly ] in
  List.filter (fun v => (0 <? length v)%nat) variations.

(** [convertQwertyToGeorgian(text)] *)
Definition convertQwertyToGeorgian (text : jsstring) : jsstring :=
  let converted := toLowerCase text in
  let converted :=
    fold_left
      (fun converted '(qwerty, georgian) =>
         (* new RegExp(qwerty, 'gi') *)
         replaceAll (literalNoCase qwerty) [Lit georgian] converted)
      georgianQwertyMap converted in
  fold_left
    (fun converted '(latin, georgianList) =>
       fold_left
         (fun converted georgian =>
            (* new RegExp(`\b${this.escapeRegex(latin)}\b`, 'gi') *)
            let regex := [WordB] ++ literalNoCase latin ++ [WordB] in
            replaceAll regex [Lit georgian] converted)
         georgianList converted)
    georgianPatterns converted.

(** ** Similarity algorithms *)

(** One row of the edit-distance matrix from the row above it:
    [c2] is [str2.charAt(i - 1)], [above] is [matrix[i - 1]]. *)
Definition levenshteinRow (str1 : jsstring) (c2 : N) (above : list nat)
  : list nat :=
  match above with
  | [] => []
  | a0 :: above' =>
      let first := S a0 in                      (* matrix[i] = [i] *)
      first ::
      (fix fill (s1 : jsstring) (diag left : nat) (ups : list nat)
         : list nat :=
         match s1, ups with
         | c1 :: s1', up :: ups' =>
             let cell :=
               if (c2 =? c1)%N then diag
               else Nat.min (Nat.min (diag + 1) (left + 1)) (up + 1) in
             cell :: fill s1' up cell ups'
         | _, _ => []
         end) str1 a0 first above'
  end.

(** [calculateLevenshteinDistance(str1, str2)] *)
Definition calculateLevenshteinDistance (str1 str2 : jsstring) : nat :=
  let len1 := length str1 in
  let len2 := length str2 in
  if (len1 =? 0)%nat then len2
  else if (len2 =? 0)%nat then len1
  else
    let row0 := seq 0 (S len1) in               (* matrix[0][j] = j *)
    let rowN := fold_left (fun above c2 => levenshteinRow str1 c2 above)
                          str2 row0 in
    List.last rowN 0%nat.

(** The [while (!str2Matches[k]) k++] of the transposition count.  It
    stops inside the array because both arrays carry the same number of
    marks ([jaro_while_stops] below). *)
Fixpoint nextMarked (marks : list bool) (k : nat) : nat :=
  match marks with
  | [] => k
  | m :: marks' => if m then k else nextMarked marks' (S k)
  end.

(** One turn of the first loop of [calculateJaroSimilarity]: the state is
    [(str1Matches, str2Matches, matches)]. *)
Definition jaroMatchStep (str1 str2 : jsstring) (matchWindow : Z)
    (state : list bool * list bool * nat) (i : nat)
  : list bool * list bool * nat :=
  let '(str1Matches, str2Matches, matches) := state in
  let len2 := length str2 in
  let start := Z.max 0 (Z.of_nat i - matchWindow) in
  let end_ := Z.min (Z.of_nat i + matchWindow + 1) (Z.of_nat len2) in
  match
    List.find
      (fun j =>
         negb (default false (str2Matches !! j))
         && bool_decide (str1 !! i = str2 !! j))
      (seq (Z.to_nat start) (Z.to_nat (end_ - start)))
  with
  | Some j => (<[i:=true]> str1Matches, <[j:=true]> str2Matches, S matches)
  | None => (str1Matches, str2Matches, matches)
  end.

(** The first loop of [calculateJaroSimilarity]. *)
Definition jaroFindMatches (str1 str2 : jsstring)
  : list bool * list bool * nat :=
  let len1 := length str1 in
  let len2 := length str2 in
  let matchWindow : Z := Z.max (Z.of_nat len1) (Z.of_nat len2) / 2 - 1 in
  fold_left (jaroMatchStep str1 str2 matchWindow) (seq 0 len1)
            (replicate len1 false, replicate len2 false, O).

(** One turn of the second loop: the state is [(k, transpositions)]. *)
Definition jaroTranspositionStep (str1 str2 : jsstring)
    (str1Matches str2Matches : list bool) (state : nat * nat) (i : nat)
  : nat * nat :=
  let '(k, transpositions) := state in
  if default false (str1Matches !! i)
  then
    let k := nextMarked (drop k str2Matches) k in
    let transpositions :=
      if bool_decide (str1 !! i = str2 !! k)
      then transpositions else S transpositions in
    (S k, transpositions)
  else (k, transpositions).

(** The second loop of [calculateJaroSimilarity]. *)
Definition jaroTranspositions (str1 str2 : jsstring)
    (str1Matches str2Matches : list bool) : nat :=
  snd (fold_left (jaroTranspositionStep str1 str2 str1Matches str2Matches)
                 (seq 0 (length str1)) (O, O)).

Section Similarity.
Context {R : Type} `{Number R}.

(** [calculateJaroSimilarity(str1, str2)] *)
Definition calculateJaroSimilarity (str1 str2 : jsstring) : R :=
  if JS.eqb str1 str2 then num_ofZ 1
  else
    let len1 := length str1 in
    let len2 := length str2 in
    if (len1 =? 0)%nat || (len2 =? 0)%nat then num_ofZ 0
    else
      (* find matches *)
      let '(str1Matches, str2Matches, matches) :=
        jaroFindMatches str1 str2 in
      if (matches =? 0)%nat then num_ofZ 0
      else
        (* count transpositions *)
        let transpositions :=
          jaroTranspositions str1 str2 str1Matches str2Matches in
        let m := num_ofZ (Z.of_nat matches) in
        ((m / num_ofZ (Z.of_nat len1)
          + m / num_ofZ (Z.of_nat len2)
          + (m - num_ofZ (Z.of_nat transpositions) / num_ofZ 2) / m)
         / num_ofZ 3)%num.

(** [calculateCharacterOverlap(str1, str2)] *)
Definition calculateCharacterOverlap (str1 str2 : jsstring) : R :=
  let chars1 := codePoints str1 in
  let chars2 := codePoints str2 in
  let '(_, matches) :=
    fold_left
      (fun '(used, matches) char =>
         match
           List.find
             (fun i => bool_decide (chars2 !! i = Some char)
                       && negb (bool_decide (i ∈ used)))
             (seq 0 (length chars2))
         with
         | Some index => ({[index]} ∪ used, S matches)
         | None => (used, matches)
         end)
      chars1 ((∅ : gset nat), O) in
  (num_ofZ (Z.of_nat matches * 2)
   / num_ofZ (Z.of_nat (length chars1) + Z.of_nat (length chars2)))%num.

(** The weighted sum of [calculateAdvancedSimilarity]. *)
Definition weightedAverage (levenshtein jaro overlap containment : R) : R :=
  (levenshtein * dec 4 10 + jaro * dec 3 10 + overlap * dec 2 10
   + containment * dec 1 10)%num.

(** [calculateAdvancedSimilarity(word1, word2)] *)
Definition calculateAdvancedSimilarity (word1 word2 : jsstring) : R :=
  if (length word1 =? 0)%nat || (length word2 =? 0)%nat then num_ofZ 0
  else if JS.eqb word1 word2 then num_ofZ 1
  else
    let len1 := Z.of_nat (length word1) in
    let len2 := Z.of_nat (length word2) in
    let maxLen := Z.max len1 len2 in
    (* if the length difference is too large, low similarity *)
    if Z.abs (len1 - len2) >? Z.min len1 len2 then num_ofZ 0
    else
      let levenshtein :=
        (num_ofZ 1
         - num_ofZ (Z.of_nat (calculateLevenshteinDistance word1 word2))
           / num_ofZ maxLen)%num in
      let jaro := calculateJaroSimilarity word1 word2 in
      let overlap := calculateCharacterOverlap word1 word2 in
      let containment :=
        if includes word1 word2 || includes word2 word1
        then dec 8 10 else num_ofZ 0 in
      num_max (weightedAverage levenshtein jaro overlap containment)
              containment.

End Similarity.

(** ** Detection *)

Inductive Method := MethodNone | Direct | Similarity | Fuzzy | Sequence | Reverse.

#[export] Instance Method_eq_dec : EqDecision Method.
Proof. solve_decision. Defined.

(** [this.commonSubstitutions[key]] *)
Definition lookupSubstitution (key : jsstring) : option (list jsstring) :=
  snd <$> List.find (fun '(k, _) => JS.eqb k key) buildSubstitutionMap.

(** The first index in [[from, to)] at which [text] holds exactly [wanted]. *)
Definition searchWindow (text : jsstring) (wanted : jsstring) (from to : nat)
  : option nat :=
  List.find
    (fun i => match text !! i with
              | Some c => JS.eqb [c] wanted
              | None => false
              end)
    (seq from (to - from)).

(** The inner loops over [alternatives]: the first alternative found in the
    window decides. *)
Fixpoint searchAlternatives (text : jsstring) (alternatives : list jsstring)
    (from to : nat) : option nat :=
  match alternatives with
  | [] => None
  | alt :: rest =>
      match searchWindow text alt from to with
      | Some i => Some i
      | None => searchAlternatives text rest from to
      end
  end.

Section Detection.
Context {R : Type} `{Number R}.

Record FuzzyMatch := { fuzzyFound : bool; fuzzyConfidence : R }.

(** [findFuzzySubstring(text, target, threshold)] *)
Definition findFuzzySubstring (text target : jsstring) (threshold : R)
  : FuzzyMatch :=
  let targetLen := Z.of_nat (length target) in
  let textLen := Z.of_nat (length text) in
  fold_left
    (fun bestMatch i =>
       fold_left
         (fun bestMatch len =>
            if i + len >? textLen then bestMatch
            else
              let substring := substring text i (i + len) in
              let similarity := calculateAdvancedSimilarity substring target in
              if (similarity >=? threshold)%num
                 && (similarity >? fuzzyConfidence bestMatch)%num
              then {| fuzzyFound := true; fuzzyConfidence := similarity |}
              else bestMatch)
         (seqZ (targetLen - 2) 5) bestMatch)
    (seqZ 0 (textLen - targetLen + 1))
    {| fuzzyFound := false; fuzzyConfidence := num_ofZ 0 |}.

(** [detectCharacterSequence(text, targetWord, threshold)] *)
Definition detectCharacterSequence (text targetWord : jsstring) (threshold : R)
  : bool :=
  (* /[^a-zA-ZႠ-ჿ]/g -> '' *)
  let cleanText :=
    toLowerCase (replaceAll [One (fun c => negb (isLetter c))] [] text) in
  let targetChars := toLowerCase targetWord in
  if (length targetChars =? 0)%nat then false
  else
    let maxGap := (length targetChars / 2)%nat in
    let '(matchedChars, _) :=
      fold_left
        (fun '(matchedChars, textIndex) targetChar =>
           let searchEnd :=
             Nat.min (textIndex + maxGap + 5) (length cleanText) in
           match searchWindow cleanText [targetChar] textIndex searchEnd with
           | Some i => (S matchedChars, S i)
           | None =>
               (* try alternative characters for the target *)
               let alternatives :=
                 default [] (lookupSubstitution [targetChar]) in
               match searchAlternatives cleanText alternatives textIndex
                       searchEnd with
               | Some i => (S matchedChars, S i)
               | None => (matchedChars, textIndex)
               end
           end)
        targetChars (O, O) in
    let matchRatio :=
      (num_ofZ (Z.of_nat matchedChars)
       / num_ofZ (Z.of_nat (length targetChars)))%num in
    (matchRatio >=? threshold)%num.

Record Detection := {
  found : bool;
  confidence : R;
  method : Method;
  version : jsstring
}.

(** The body of the [for (const version of normalizedVariations)] loop of
    [detectWordWithAdvancedMatching], after the direct-match test. *)
Definition matchVersion (version targetWord : jsstring) (confidence_ : R)
    (bestMatch : Detection) : Detection :=
  (* 2. word boundary matches with similarity *)
  let words :=
    List.filter (fun w => (1 <? length w)%nat) (splitSpaces version [] false) in
  let bestMatch :=
    fold_left
      (fun bestMatch word =>
         let similarity := calculateAdvancedSimilarity word targetWord in
         if (similarity >=? confidence_)%num
         then
           if (similarity >? confidence bestMatch)%num
           then {| found := true; confidence := similarity;
                   method := Similarity; version := version |}
           else bestMatch
         else bestMatch)
      words bestMatch in
  (* 3. fuzzy substring matching *)
  let fuzzyMatch := findFuzzySubstring version targetWord confidence_ in
  let bestMatch :=
    if fuzzyFound fuzzyMatch
       && (fuzzyConfidence fuzzyMatch >? confidence bestMatch)%num
    then {| found := true; confidence := fuzzyConfidence fuzzyMatch;
            method := Fuzzy; version := version |}
    else bestMatch in
  (* 4. character sequence detection *)
  let bestMatch :=
    if detectCharacterSequence version targetWord (dec 75 100)
    then
      let sequenceConfidence := dec 85 100 in
      if (sequenceConfidence >? confidence bestMatch)%num
      then {| found := true; confidence := sequenceConfidence;
              method := Sequence; version := version |}
      else bestMatch
    else bestMatch in
  (* 5. reversed word detection *)
  let reversedTarget := rev targetWord in
  if includes version reversedTarget
  then
    let reverseConfidence := dec 9 10 in
    if (reverseConfidence >? confidence bestMatch)%num
    then {| found := true; confidence := reverseConfidence;
            method := Reverse; version := version |}
    else bestMatch
  else bestMatch.

(** The loop over the variations; a direct match returns at once. *)
Fixpoint matchVersions (versions : list jsstring) (targetWord : jsstring)
    (confidence_ : R) (bestMatch : Detection) : Detection :=
  match versions with
  | [] => bestMatch
  | version :: rest =>
      if (length version <? 2)%nat
      then matchVersions rest targetWord confidence_ bestMatch
      else if includes version targetWord
      then {| found := true; confidence := num_ofZ 1; method := Direct;
              version := version |}
      else matchVersions rest targetWord confidence_
             (matchVersion version targetWord confidence_ bestMatch)
  end.

(** The variations [detectWordWithAdvancedMatching] goes through. *)
Definition normalizedVariations (text : jsstring) : list jsstring :=
  let georgianConverted := convertQwertyToGeorgian text in
  deepNormalizeText text ++ [georgianConverted]
  ++ deepNormalizeText georgianConverted.

(** [detectWordWithAdvancedMatching(text, targetWord, confidence)] *)
Definition detectWordWithAdvancedMatching (text targetWord : jsstring)
    (confidence_ : R) : Detection :=
  matchVersions (normalizedVariations text) targetWord confidence_
    {| found := false; confidence := num_ofZ 0; method := MethodNone;
       version := [] |}.

End Detection.

Arguments Detection : clear implicits.
Arguments FuzzyMatch : clear implicits.

(** ** The word store *)

Inductive Language := English | Georgian | Harassment | Custom.

#[export] Instance Language_eq_dec : EqDecision Language.
Proof. solve_decision. Defined.

(** A row of the [bad_words] table (src/models/BadWord.js). *)
Record BadWordRow := {
  row_id : Z;
  row_word : jsstring;
  row_language : Language;
  row_severity : Severity;
  row_guildId : option string;       (* NULL means a global word *)
  row_isActive : bool;
  row_addedBy : option string
}.

(** A [where] clause: [q_word] and [q_isActive] constrain the row only when
    given; [q_guildId = None] selects the rows whose guildId is NULL. *)
Record Query := {
  q_word : option jsstring;
  q_guildId : option string;
  q_language : Language;
  q_isActive : option bool
}.

(** The values handed to [BadWord.create]. *)
Record NewWord := {
  new_word : jsstring;
  new_language : Language;
  new_severity : Severity;
  new_guildId : option string;
  new_addedBy : option string
}.

Inductive Error :=
| ValidationError (msg : string)
| StoreUnavailable (msg : string).

(** What the engine needs of the store; a call that throws returns [inl]. *)
Class StoreOps (S : Type) := {
  findAll : Query -> S -> Error + list BadWordRow;
  create : NewWord -> S -> Error + (BadWordRow * S);
  destroy : Query -> S -> Error + (nat * S)
}.

Inductive StoreCall :=
| CallFindAll (q : Query)
| CallCreate (n : NewWord)
| CallDestroy (q : Query).

(** An in-memory store: the table as a list, defaults as in the model
    ([isActive] true, ids counted up), every call failing while the store
    is offline. *)
Module MemStore.

Record t := { rows : list BadWordRow; nextId : Z; online : bool }.

Definition selects (q : Query) (r : BadWordRow) : bool :=
  match q_word q with
  | Some w => JS.eqb w (row_word r)
  | None => true
  end
  && bool_decide (q_guildId q = row_guildId r)
  && bool_decide (q_language q = row_language r)
  && match q_isActive q with
     | Some b => Bool.eqb b (row_isActive r)
     | None => true
     end.

Definition down : Error := StoreUnavailable "connection refused".

Definition findAll (q : Query) (s : t) : Error + list BadWordRow :=
  if online s then inr (List.filter (selects q) (rows s)) else inl down.

Definition create (n : NewWord) (s : t) : Error + (BadWordRow * t) :=
  if online s
  then
    let r := {| row_id := nextId s; row_word := new_word n;
                row_language := new_language n;
                row_severity := new_severity n;
                row_guildId := new_guildId n; row_isActive := true;
                row_addedBy := new_addedBy n |} in
    inr (r, {| rows := rows s ++ [r]; nextId := nextId s + 1;
               online := true |})
  else inl down.

Definition destroy (q : Query) (s : t) : Error + (nat * t) :=
  if online s
  then
    inr (length (List.filter (selects q) (rows s)),
         {| rows := List.filter (fun r => negb (selects q r)) (rows s);
            nextId := nextId s; online := true |})
  else inl down.

End MemStore.

#[export] Instance mem_store : StoreOps MemStore.t := {|
  findAll := MemStore.findAll;
  create := MemStore.create;
  destroy := MemStore.destroy
|}.

(** ** The engine object and its effects *)

(** The [sensitivity] option.  [SensOther] stands for any other value whose
    lookup in the threshold table of [analyzeContent] is undefined, so that
    the [|| 0.85] default applies: every string but the names of the
    properties an object literal inherits (such as "toString"), for which
    the lookup returns a function and nothing is ever detected. *)
Inductive Sensitivity := SensLow | SensMedium | SensHigh | SensOther.
Inductive Action := Warn | Delete | Timeout | Kick.

#[export] Instance Sensitivity_eq_dec : EqDecision Sensitivity.
Proof. solve_decision. Defined.
#[export] Instance Action_eq_dec : EqDecision Action.
Proof. solve_decision. Defined.

(** An element of [processedWords]. *)
Record BadWordEntry := {
  word : jsstring;
  language : Language;
  severity : Severity;
  isGuildSpecific : bool
}.

Record GuildSettings := {
  enableModeration : bool;
  enableGeorgian : bool;
  actionType : Action;
  sensitivityLevel : Sensitivity;
  settingsCustomWords : list jsstring;
  monitoredChannels : list string;
  excludedRoles : list string
}.

(** The fields of [this]. *)
Record Engine := {
  customWords : gmap string (list jsstring);
  settings : gmap string GuildSettings;
  badWordsCache : gmap string (list BadWordEntry);
  lastCacheUpdate : gmap string Z
}.

(** [new ContentModerationSystem()] *)
Definition newEngine : Engine :=
  {| customWords := ∅; settings := ∅; badWordsCache := ∅;
     lastCacheUpdate := ∅ |}.

Definition cacheExpiry : Z := 5 * 60 * 1000.

Record World (S : Type) := {
  this : Engine;
  store : S;
  calls : list StoreCall             (* the store calls made so far *)
}.
Arguments this {S}.
Arguments store {S}.
Arguments calls {S}.

(** Computations that read and write the world and may throw. *)
Definition M (S A : Type) : Type := World S -> (Error + A) * World S.

#[export] Instance M_ret S : MRet (M S) :=
  fun A (a : A) w => (inr a, w).

#[export] Instance M_bind S : MBind (M S) :=
  fun A B (k : A -> M S B) (m : M S A) w =>
    match m w with
    | (inr a, w') => k a w'
    | (inl e, w') => (inl e, w')
    end.

Definition throw {S A} (e : Error) : M S A := fun w => (inl e, w).

(** [try { body } catch (error) { handler }] *)
Definition tryCatch {S A} (body : M S A) (handler : Error -> M S A) : M S A :=
  fun w =>
    match body w with
    | (inr a, w') => (inr a, w')
    | (inl e, w') => handler e w'
    end.

Definition getThis {S} : M S Engine := fun w => (inr (this w), w).

Definition setThis {S} (e : Engine) : M S unit :=
  fun w => (inr tt, {| this := e; store := store w; calls := calls w |}).

Section StoreCalls.
Context {S : Type} `{StoreOps S}.

Definition awaitFindAll (q : Query) : M S (list BadWordRow) :=
  fun w =>
    let w' := {| this := this w; store := store w;
                 calls := calls w ++ [CallFindAll q] |} in
    match findAll q (store w) with
    | inr found => (inr found, w')
    | inl e => (inl e, w')
    end.

Definition awaitCreate (n : NewWord) : M S BadWordRow :=
  fun w =>
    let log := calls w ++ [CallCreate n] in
    match create n (store w) with
    | inr (r, s') => (inr r, {| this := this w; store := s'; calls := log |})
    | inl e => (inl e, {| this := this w; store := store w; calls := log |})
    end.

Definition awaitDestroy (q : Query) : M S nat :=
  fun w =>
    let log := calls w ++ [CallDestroy q] in
    match destroy q (store w) with
    | inr (n, s') => (inr n, {| this := this w; store := s'; calls := log |})
    | inl e => (inl e, {| this := this w; store := store w; calls := log |})
    end.

(** A guild id as a condition: [null] and the empty string are falsy. *)
Definition truthy (guildId : option string) : option string :=
  match guildId with
  | Some g => if bool_decide (g = "") then None else Some g
  | None => None
  end.

(** [guildId || 'global'] *)
Definition cacheKeyOf (guildId : option string) : string :=
  default "global" (truthy guildId).

Definition processRow (bw : BadWordRow) : BadWordEntry :=
  {| word := toLowerCase (row_word bw);
     language := row_language bw;
     severity := row_severity bw;
     isGuildSpecific := bool_decide (is_Some (truthy (row_guildId bw))) |}.

(** [loadBadWords(guildId)], [now] being what [Date.now()] returns. *)
Definition loadBadWords (guildId : option string) (now : Z)
  : M S (list BadWordEntry) :=
  tryCatch
    (let cacheKey := cacheKeyOf guildId in
     e ← getThis;
     let lastUpdate := default 0 (lastCacheUpdate e !! cacheKey) in
     if now - lastUpdate <? cacheExpiry
     then
       mret match truthy guildId with
            | Some g => default [] (badWordsCache e !! g)
            | None => []
            end
     else
       let whereClause :=
         {| q_word := None; q_guildId := truthy guildId;
            q_language := Custom; q_isActive := Some true |} in
       badWords ← awaitFindAll whereClause;
       let processedWords := map processRow badWords in
       (* update cache *)
       e ← getThis;
       setThis {| customWords := customWords e; settings := settings e;
                  badWordsCache := <[cacheKey := processedWords]> (badWordsCache e);
                  lastCacheUpdate := <[cacheKey := now]> (lastCacheUpdate e) |};;
       mret processedWords)
    (fun error => mret []).

(** The [// Clear cache] lines of [addBadWord] and [removeBadWord]. *)
Definition clearCache (guildId : option string) : M S unit :=
  let cacheKey := cacheKeyOf guildId in
  e ← getThis;
  setThis {| customWords := customWords e; settings := settings e;
             badWordsCache := delete cacheKey (badWordsCache e);
             lastCacheUpdate := delete cacheKey (lastCacheUpdate e) |}.

(** [addBadWord(word, language, severity, guildId, addedBy)] *)
Definition addBadWord (word_ : jsstring) (language_ : Language)
    (severity_ : Severity) (guildId addedBy : option string)
  : M S BadWordRow :=
  tryCatch
    (badWord ← awaitCreate {| new_word := trim (toLowerCase word_);
                              new_language := Custom;
                              new_severity := severity_;
                              new_guildId := guildId;
                              new_addedBy := addedBy |};
     clearCache guildId;;
     mret badWord)
    (fun error => throw error).

(** [removeBadWord(word, guildId)] *)
Definition removeBadWord (word_ : jsstring) (guildId : option string)
  : M S bool :=
  tryCatch
    (result ← awaitDestroy {| q_word := Some (trim (toLowerCase word_));
                              q_guildId := guildId;
                              q_language := Custom;
                              q_isActive := None |};
     clearCache guildId;;
     mret (0 <? result)%nat)
    (fun error => throw error).

(** [getBadWordsForGuild(guildId)], the [custom] field of the result. *)
Definition getBadWordsForGuild (guildId : option string) (now : Z)
  : M S (list BadWordEntry) :=
  words ← loadBadWords guildId now;
  mret (List.filter (fun w => bool_decide (language w = Custom)) words).

End StoreCalls.

(** ** Scoring and decision *)

(** [compareSeverity(severity1, severity2)] *)
Definition severityLevel (s : Severity) : Z :=
  match s with
  | LOW => 1
  | MEDIUM => 2
  | HIGH => 3
  end.

Definition compareSeverity (severity1 severity2 : Severity) : Z :=
  severityLevel severity1 - severityLevel severity2.

(** [getRecommendedAction(severity, wordCount)] *)
Definition getRecommendedAction (severity_ : Severity) (wordCount : nat)
  : Action :=
  match severity_ with
  | HIGH => if (2 <? wordCount)%nat then Kick else Timeout
  | MEDIUM => if (3 <? wordCount)%nat then Timeout else Delete
  | LOW => Warn
  end.

Inductive JSValue :=
| VUndefined
| VNull
| VNumber (n : Z)
| VString (s : jsstring).

Inductive AnalysisMethod := InputValidationFail | AdvancedPatternMatching.

Record Options := {
  opt_sensitivity : option Sensitivity;   (* absent: 'medium' *)
  opt_guildId : option string             (* absent: null *)
}.

Section Analysis.
Context {R : Type} `{Number R}.

(** An element of [detectedWords] inside [analyzeContent]. *)
Record DetectedWord := {
  d_word : jsstring;
  d_type : Language;
  d_severity : Severity;
  d_confidence : R;
  d_method : Method;
  d_detectedVersion : jsstring
}.

Record AnalysisResult := {
  isClean : bool;
  detectedWords : list jsstring;
  detectedDetails : list DetectedWord;
  resultSeverity : Severity;
  resultConfidence : R;
  action : Action;
  analysisMethod : AnalysisMethod
}.

(** [shouldFlagContent(detectedWords, maxSeverity, sensitivity)] *)
Definition shouldFlagContent (detectedWords_ : list DetectedWord)
    (maxSeverity : Severity) (sensitivity : Sensitivity) : bool :=
  if (length detectedWords_ =? 0)%nat then false
  else
    let highConfidenceDetections :=
      List.filter (fun d => (d_confidence d >=? dec 95 100)%num)
                  detectedWords_ in
    let mediumConfidenceDetections :=
      List.filter (fun d => (d_confidence d >=? dec 85 100)%num
                            && (d_confidence d <? dec 95 100)%num)
                  detectedWords_ in
    match sensitivity with
    | SensLow =>
        bool_decide (maxSeverity = HIGH)
        && (0 <? length highConfidenceDetections)%nat
    | SensMedium =>
        bool_decide (maxSeverity = HIGH)
        || (bool_decide (maxSeverity = MEDIUM)
            && (0 <? length mediumConfidenceDetections)%nat)
    | SensHigh => (0 <? length detectedWords_)%nat
    | SensOther =>
        bool_decide (maxSeverity = HIGH) || bool_decide (maxSeverity = MEDIUM)
    end.

(** The [confidenceThreshold] table of [analyzeContent]. *)
Definition confidenceThreshold (sensitivity : Sensitivity) : R :=
  match sensitivity with
  | SensLow => dec 98 100
  | SensMedium => dec 85 100
  | SensHigh => dec 70 100
  | SensOther => dec 85 100
  end.

(** One turn of [for (const wordData of badWords)]: the state is
    [(detectedWords, maxSeverity, totalConfidence)]. *)
Definition analyzeWord (text : jsstring) (threshold : R)
    (acc : list DetectedWord * Severity * R) (wordData : BadWordEntry)
  : list DetectedWord * Severity * R :=
  let '(detectedWords_, maxSeverity, totalConfidence) := acc in
  let targetWord := toLowerCase (word wordData) in
  let detection := detectWordWithAdvancedMatching text targetWord threshold in
  if found detection && (confidence detection >=? threshold)%num
  then
    (detectedWords_ ++
       [{| d_word := word wordData; d_type := Custom;
           d_severity := severity wordData;
           d_confidence := confidence detection;
           d_method := method detection;
           d_detectedVersion := version detection |}],
     (if compareSeverity (severity wordData) maxSeverity >? 0
      then severity wordData else maxSeverity),
     num_min (num_ofZ 1) (totalConfidence + confidence detection * dec 3 10)%num)
  else acc.

(** [analyzeContent] once the word list is loaded. *)
Definition analyzeWith (badWords : list BadWordEntry) (text : jsstring)
    (sensitivity : Sensitivity) : AnalysisResult :=
  let '(detectedWords_, maxSeverity, totalConfidence) :=
    fold_left (analyzeWord text (confidenceThreshold sensitivity)) badWords
              ([], LOW, num_ofZ 0) in
  let shouldFlag := shouldFlagContent detectedWords_ maxSeverity sensitivity in
  {| isClean := negb shouldFlag;
     detectedWords := map d_word detectedWords_;
     detectedDetails := detectedWords_;
     resultSeverity := maxSeverity;
     resultConfidence := totalConfidence;
     action := getRecommendedAction maxSeverity (length detectedWords_);
     analysisMethod := AdvancedPatternMatching |}.

Context {S : Type} `{StoreOps S}.

(** [analyzeContent(text, options)] *)
Definition analyzeContent (text : JSValue) (options : Options) (now : Z)
  : M S AnalysisResult :=
  match text with
  | VString (c :: s) =>
      let text := c :: s in
      let sensitivity := default SensMedium (opt_sensitivity options) in
      let guildId := opt_guildId options in
      (* load custom words *)
      badWords ← loadBadWords guildId now;
      mret (analyzeWith badWords text sensitivity)
  | _ =>
      mret {| isClean := true; detectedWords := []; detectedDetails := [];
              resultSeverity := LOW; resultConfidence := num_ofZ 0;
              action := Warn; analysisMethod := InputValidationFail |}
  end.

End Analysis.

Arguments DetectedWord : clear implicits.
Arguments AnalysisResult : clear implicits.

(** ** Guild settings *)

(** [saveGuildSettings(guildId, settings)] *)
Definition saveGuildSettings (guildId : string) (settings_ : GuildSettings)
    (e : Engine) : Engine :=
  {| customWords := <[guildId := settingsCustomWords settings_]> (customWords e);
     settings := <[guildId := settings_]> (settings e);
     badWordsCache := badWordsCache e;
     lastCacheUpdate := lastCacheUpdate e |}.

Definition defaultSettings : GuildSettings :=
  {| enableModeration := true;
     enableGeorgian := true;
     actionType := Warn;
     sensitivityLevel := SensMedium;
     settingsCustomWords := [];
     monitoredChannels := [];
     excludedRoles := [] |}.

(** [getGuildSettings(guildId)] *)
Definition getGuildSettings (guildId : string) (e : Engine) : GuildSettings :=
  default defaultSettings (settings e !! guildId).

(** [shouldMonitorChannel(guildId, channelId)] *)
Definition shouldMonitorChannel (guildId channelId : string) (e : Engine)
  : bool :=
  let settings_ := getGuildSettings guildId e in
  (length (monitoredChannels settings_) =? 0)%nat
  || bool_decide (channelId ∈ monitoredChannels settings_).

(** [isUserExcluded(guildId, userRoles)] *)
Definition isUserExcluded (guildId : string) (userRoles : list string)
    (e : Engine) : bool :=
  let settings_ := getGuildSettings guildId e in
  existsb (fun roleId => bool_decide (roleId ∈ userRoles))
          (excludedRoles settings_).

(** ** Notions used in the statements *)

(** The number of marks in a match array. *)
Definition marked (marks : list bool) : nat :=
  length (List.filter (fun m : bool => m) marks).

(** The [while] loop with its exit made explicit: [None] when no mark is
    left at or after [k], which is where the source would not stop. *)
Fixpoint findMarked (marks : list bool) (k : nat) : option nat :=
  match marks with
  | [] => None
  | m :: marks' => if m then Some k else findMarked marks' (S k)
  end.

(** The second loop of the Jaro similarity over [findMarked]. *)
Definition checkedTranspositionStep (str1 str2 : jsstring)
    (str1Matches str2Matches : list bool) (state : option (nat * nat))
    (i : nat) : option (nat * nat) :=
  match state with
  | None => None
  | Some (k, transpositions) =>
      if default false (str1Matches !! i)
      then
        match findMarked (drop k str2Matches) k with
        | Some k =>
            Some (S k,
                  if bool_decide (str1 !! i = str2 !! k)
                  then transpositions else S transpositions)
        | None => None
        end
      else Some (k, transpositions)
  end.

Section Notions.
Context {S : Type}.

(** The [where] clause of [loadBadWords]. *)
Definition loadQuery (guildId : option string) : Query :=
  {| q_word := None; q_guildId := truthy guildId; q_language := Custom;
     q_isActive := Some true |}.

Definition lastUpdateOf (w : World S) (guildId : option string) : Z :=
  default 0 (lastCacheUpdate (this w) !! cacheKeyOf guildId).

Definition logged (w : World S) (c : StoreCall) : World S :=
  {| this := this w; store := store w; calls := calls w ++ [c] |}.

(** The values [addBadWord] hands to the store. *)
Definition addedWord (word_ : jsstring) (severity_ : Severity)
    (guildId addedBy : option string) : NewWord :=
  {| new_word := trim (toLowerCase word_); new_language := Custom;
     new_severity := severity_; new_guildId := guildId;
     new_addedBy := addedBy |}.

(** The [where] clause of [removeBadWord]. *)
Definition removeQuery (word_ : jsstring) (guildId : option string) : Query :=
  {| q_word := Some (trim (toLowerCase word_)); q_guildId := guildId;
     q_language := Custom; q_isActive := None |}.

(** The engine with the cache entry and the timestamp of a scope deleted. *)
Definition invalidated (guildId : option string) (e : Engine) : Engine :=
  {| customWords := customWords e; settings := settings e;
     badWordsCache := delete (cacheKeyOf guildId) (badWordsCache e);
     lastCacheUpdate := delete (cacheKeyOf guildId) (lastCacheUpdate e) |}.

End Notions.

Section FlagNotions.
Context {R : Type} `{Number R}.

(** The filter of [highConfidenceDetections]. *)
Definition highConfidence (d : DetectedWord R) : bool :=
  (d_confidence d >=? dec 95 100)%num.

(** The filter of [mediumConfidenceDetections]. *)
Definition mediumConfidence (d : DetectedWord R) : bool :=
  (d_confidence d >=? dec 85 100)%num && (d_confidence d <? dec 95 100)%num.

End FlagNotions.

(** The engine states in which [saveGuildSettings] was never called for
    [guildId]: the new engine, a save for another guild, and any change of
    the word cache. *)
Inductive NeverSaved (guildId : string) : Engine -> Prop :=
| never_new : NeverSaved guildId newEngine
| never_save_other (g : string) (s : GuildSettings) (e : Engine) :
    g <> guildId -> NeverSaved guildId e ->
    NeverSaved guildId (saveGuildSettings g s e)
| never_cache (e : Engine) (cache : gmap string (list BadWordEntry))
    (stamps : gmap string Z) :
    NeverSaved guildId e ->
    NeverSaved guildId
      {| customWords := customWords e; settings := settings e;
         badWordsCache := cache; lastCacheUpdate := stamps |}.

Definition strictSettings : GuildSettings :=
  {| enableModeration := true; enableGeorgian := false; actionType := Kick;
     sensitivityLevel := SensHigh; settingsCustomWords := [str "slur"];
     monitoredChannels := ["chan1"]; excludedRoles := ["role1"] |}.

(** One detection of a high-severity word by a direct match. *)
Definition directHit : DetectedWord float :=
  {| d_word := str "badword"; d_type := Custom; d_severity := HIGH;
     d_confidence := 1%float; d_method := Direct;
     d_detectedVersion := str "abadword" |}.

Definition scenarioText : jsstring := str "this is a badword message".

(** ** Notions used in the further properties *)

(** How severe an action is: warn < delete < timeout < kick. *)
Definition actionLevel (a : Action) : nat :=
  match a with
  | Warn => 0
  | Delete => 1
  | Timeout => 2
  | Kick => 3
  end.

(** The result [detectWordWithAdvancedMatching] starts from. *)
Definition noMatch {R : Type} `{Number R} : Detection R :=
  {| found := false; confidence := num_ofZ 0; method := MethodNone;
     version := [] |}.

(** What a detection's method says about its confidence, for the
    threshold [c] the search ran with. *)
Definition methodConfidence {R : Type} `{Number R} (c : R) (m : Method)
    (x : R) : Prop :=
  match m with
  | MethodNone => False
  | Direct => x = num_ofZ 1
  | Similarity | Fuzzy => (x >=? c)%num = true
  | Sequence => x = dec 85 100
  | Reverse => x = dec 9 10
  end.

(** What [analyzeWord] records of a detection it keeps. *)
Definition recorded {R : Type} `{Number R} (c : R) (d : DetectedWord R)
  : Prop :=
  (d_confidence d >=? c)%num = true /\ d_type d = Custom
  /\ methodConfidence c (d_method d) (d_confidence d).

(** The highest severity among the detections [ds] is [m]. *)
Definition highestSeverity {R : Type} (ds : list (DetectedWord R))
    (m : Severity) : Prop :=
  (ds = [] -> m = LOW)
  /\ (ds <> [] -> exists d, d ∈ ds /\ d_severity d = m)
  /\ (forall d, d ∈ ds -> compareSeverity (d_severity d) m <= 0).

(** The results the search can produce over the variations [vs]. *)
Definition shaped {R : Type} `{Number R} (c : R) (vs : list jsstring) (d : Detection R) : Prop :=
  (found d = false /\ d = noMatch)
  \/ (found d = true /\ version d ∈ vs /\ (2 <= length (version d))%nat
      /\ methodConfidence c (method d) (confidence d)).

(** A replacement piece that cannot put the code unit [x] into the output
    on its own: literal text without [x], or a group reference (an
    out-of-range [$n] stands for the two characters themselves). *)
Definition pieceAvoids (x : N) (its : pattern) (p : piece) : bool :=
  match p with
  | Lit s => negb (bool_decide (x ∈ s))
  | Grp n =>
      (n <=? groups its)%nat
      || (negb (x =? 36)%N && negb (x =? 48 + N.of_nat n)%N)
  end.

Definition templateAvoids (x : N) (its : pattern) (tpl : list piece) : bool :=
  forallb (pieceAvoids x its) tpl.

(** No replacement text of the table holds [x]. *)
Definition tableAvoids (x : N) (table : list (jsstring * list jsstring))
  : bool :=
  forallb (fun '(_, rs) => forallb (fun r => negb (bool_decide (x ∈ r))) rs)
          table.

(** The table has an entry for the single code unit [x] whose replacements
    are without [x], and no later entry brings [x] back. *)
Fixpoint tableDrops (x : N) (table : list (jsstring * list jsstring))
  : bool :=
  match table with
  | [] => false
  | (k, rs) :: rest =>
      (JS.eqb k [x] && negb (bool_decide (rs = []))
       && tableAvoids x ((k, rs) :: rest))
      || tableDrops x rest
  end.

(** What makes every variation of [deepNormalizeText] free of [x]. *)
Definition normalizationDrops (x : N) : bool :=
  tableDrops x buildSubstitutionMap
  && forallb (fun its => templateAvoids x its [Grp 1; Grp 2])
             buildBypassPatterns
  && forallb (fun '(original, _) => negb (bool_decide (x ∈ original)))
             buildPhoneticPatterns.

(** The substitution pass of [deepNormalizeText] over a table. *)
Definition substituteAll (table : list (jsstring * list jsstring))
    (s : jsstring) : jsstring :=
  fold_left
    (fun normalized '(original, replacements) =>
       fold_left
         (fun normalized replacement =>
            let regex := escapeRegex original in
            replaceAll regex [Lit replacement] normalized)
         replacements normalized)
    table s.

(** The bypass-pattern pass of [deepNormalizeText]. *)
Definition collapseBypass (patterns : list pattern) (s : jsstring)
  : jsstring :=
  fold_left
    (fun normalized pattern => replaceAll pattern [Grp 1; Grp 2] normalized)
    patterns s.

(** The loop of [generatePhoneticVariation] over a table. *)
Definition foldPhonetic (table : list (jsstring * list jsstring))
    (s : jsstring) : jsstring :=
  fold_left
    (fun phonetic '(original, replacements) =>
       fold_left
         (fun phonetic replacement =>
            replaceAll (literal replacement) [Lit original] phonetic)
         replacements phonetic)
    table s.

(** The letter pass of [convertQwertyToGeorgian] over a table. *)
Definition transliterateLetters (table : list (jsstring * jsstring))
    (s : jsstring) : jsstring :=
  fold_left
    (fun converted '(qwerty, georgian) =>
       replaceAll (literalNoCase qwerty) [Lit georgian] converted)
    table s.

(** The whole-word pass of [convertQwertyToGeorgian] over a dictionary. *)
Definition transliterateWords (table : list (jsstring * list jsstring))
    (s : jsstring) : jsstring :=
  fold_left
    (fun converted '(latin, georgianList) =>
       fold_left
         (fun converted georgian =>
            let regex := [WordB] ++ literalNoCase latin ++ [WordB] in
            replaceAll regex [Lit georgian] converted)
         georgianList converted)
    table s.

(** The letter table has an entry for the single code unit [x], and no
    entry from there on writes [x]. *)
Fixpoint lettersDrop (x : N) (table : list (jsstring * jsstring)) : bool :=
  match table with
  | [] => false
  | (q, g) :: rest =>
      (JS.eqb q [x]
       && forallb (fun '(_, g) => negb (bool_decide (x ∈ g))) ((q, g) :: rest))
      || lettersDrop x rest
  end.

(** A row of the edit-distance matrix: as long as the row above, and each
    cell at most the larger of its two indices. *)
Definition rowBounded (i : nat) (row : list nat) : Prop :=
  forall j v, row !! j = Some v -> (v <= Nat.max i j)%nat.

(** A score that is a proportion. *)
Definition proportion (x : Q) : Prop := (0 <= x /\ x <= 1)%Q.

(** One turn of the loop of [calculateCharacterOverlap]. *)
Definition overlapStep (chars2 : list jsstring)
    (state : gset nat * nat) (char : jsstring) : gset nat * nat :=
  let '(used, matches) := state in
  match
    List.find
      (fun i => bool_decide (chars2 !! i = Some char)
                && negb (bool_decide (i ∈ used)))
      (seq 0 (length chars2))
  with
  | Some index => ({[index]} ∪ used, S matches)
  | None => (used, matches)
  end.


(** The magnitude of a double: [within h x] holds when [x] is a zero or a
    finite number below [2^h] in absolute value (so neither NaN nor an
    infinity). *)
Definition within (h : Z) (x : spec_float) : bool :=
  match x with
  | S754_zero _ => true
  | S754_finite _ m e => Zpos (digits2_pos m) + e <=? h
  | _ => false
  end.

(** A double that is a number of magnitude below [2^h]. *)
Definition finiteBelow (h : Z) (x : float) : Prop :=
  within h (Prim2SF x) = true.

(** A finite double of magnitude at least [2^(l-1)]. *)
Definition atLeast (l : Z) (x : spec_float) : bool :=
  match x with
  | S754_finite _ m e => l <=? Zpos (digits2_pos m) + e
  | _ => false
  end.

(** A string no longer than a JavaScript engine can hold; every length and
    count below is then an integer that a double represents exactly. *)
Definition representable (s : jsstring) : Prop :=
  Z.of_nat (length s) < 2 ^ 52.

(** One turn of the confidence total of [analyzeContent]:
    [Math.min(1.0, totalConfidence + detection.confidence * 0.3)]. *)
Definition addConfidence {R : Type} `{Number R} (total : R)
    (d : DetectedWord R) : R :=
  num_min (num_ofZ 1) (total + d_confidence d * dec 3 10)%num.

(** The code units on which [lowerUnit] is [String.prototype.toLowerCase]
    unit by unit: Basic Latin and Latin-1, Cyrillic U+0400 to U+045F, the
    Georgian block U+10A0 to U+10FF, and white space. *)
Definition covered (c : N) : bool :=
  inRange 0 0xff c || inRange 0x400 0x45f c || inRange 0x10a0 0x10ff c
  || isSpace c.

(** One detection of a medium-severity word by the reverse matcher. *)
Definition reverseHit : DetectedWord float :=
  {| d_word := str "idiot"; d_type := Custom; d_severity := MEDIUM;
     d_confidence := dec 9 10; d_method := Reverse;
     d_detectedVersion := str "toidi" |}.

(** ** Example worlds *)

Definition badwordRow (guildId : option string) : BadWordRow :=
  {| row_id := 1; row_word := str "badword"; row_language := Custom;
     row_severity := HIGH; row_guildId := guildId; row_isActive := true;
     row_addedBy := Some "mod1" |}.

Definition badwordEntry (guildSpecific : bool) : BadWordEntry :=
  {| word := str "badword"; language := Custom; severity := HIGH;
     isGuildSpecific := guildSpecific |}.

(** A fresh engine in front of a store that holds the one word. *)
Definition worldWith (guildId : option string) (up : bool)
  : World MemStore.t :=
  {| this := newEngine;
     store := {| MemStore.rows := [badwordRow guildId];
                 MemStore.nextId := 2; MemStore.online := up |};
     calls := [] |}.

(** The same after a successful load for guild [g] at time [t]; the store
    may have gone offline since. *)
Definition loadedWorld (g : string) (t : Z) (up : bool) : World MemStore.t :=
  {| this := {| customWords := ∅; settings := ∅;
                badWordsCache := {[ g := [badwordEntry true] ]};
                lastCacheUpdate := {[ g := t ]} |};
     store := {| MemStore.rows := [badwordRow (Some g)];
                 MemStore.nextId := 2; MemStore.online := up |};
     calls := [] |}.

Definition t0 : Z := 1700000000000.

(** ** Decimal literals
    [dec n d] is the double the source's literal denotes. *)
Lemma dec_literals :
  dec (R := float) 98 100 = 0x1.f5c28f5c28f5cp-1%float
  /\ dec (R := float) 95 100 = 0x1.e666666666666p-1%float
  /\ dec (R := float) 9 10 = 0x1.ccccccccccccdp-1%float
  /\ dec (R := float) 85 100 = 0x1.b333333333333p-1%float
  /\ dec (R := float) 8 10 = 0x1.999999999999ap-1%float
  /\ dec (R := float) 75 100 = 0x1.8p-1%float
  /\ dec (R := float) 70 100 = 0x1.6666666666666p-1%float
  /\ dec (R := float) 4 10 = 0x1.999999999999ap-2%float
  /\ dec (R := float) 3 10 = 0x1.3333333333333p-2%float
  /\ dec (R := float) 2 10 = 0x1.999999999999ap-3%float
  /\ dec (R := float) 1 10 = 0x1.999999999999ap-4%float.
Proof. vm_compute. repeat split. Qed.

(** ** The Jaro loops *)

Lemma marked_cons (m : bool) (marks : list bool) :
  marked (m :: marks) = ((if m then 1 else 0) + marked marks)%nat.
Proof. unfold marked. by destruct m. Qed.

Lemma marked_replicate (n : nat) : marked (replicate n false) = O.
Proof. induction n as [|n IH]; [done |]. cbn [replicate]. by rewrite marked_cons. Qed.

Lemma marked_insert (marks : list bool) (i : nat) :
  marks !! i = Some false -> marked (<[i:=true]> marks) = S (marked marks).
Proof.
  revert i. induction marks as [|m marks IH]; intros [|i] Hi; try done.
  - cbn in Hi. injection Hi as ->. by rewrite !marked_cons.
  - simpl. rewrite !marked_cons, <- Nat.add_succ_r. f_equal. exact (IH i Hi).
Qed.

Lemma marked_drop (marks : list bool) (i : nat) :
  marked (drop i marks)
  = ((if default false (marks !! i) then 1 else 0)
     + marked (drop (S i) marks))%nat.
Proof.
  revert i. induction marks as [|m marks IH]; intros [|i]; try done.
  - cbn [drop lookup list_lookup default from_option]. by rewrite marked_cons, drop_0.
  - cbn [drop]. by rewrite IH.
Qed.

Lemma findMarked_spec (marks : list bool) (k : nat) :
  (0 < marked marks)%nat ->
  exists d, findMarked marks k = Some (k + d)%nat
            /\ nextMarked marks k = (k + d)%nat
            /\ S (marked (drop (S d) marks)) = marked marks.
Proof.
  revert k. induction marks as [|m marks IH]; intros k Hpos.
  - by cbn in Hpos; lia.
  - rewrite marked_cons in Hpos. destruct m.
    + exists O. cbn [findMarked nextMarked drop]. rewrite Nat.add_0_r, drop_0.
      by rewrite marked_cons.
    + destruct (IH (S k)) as (d & Hf & Hn & Hm); [cbn in Hpos; lia |].
      exists (S d). cbn [findMarked nextMarked].
      rewrite Hf, Hn, marked_cons.
      split; [f_equal; lia |]. split; [lia |]. exact Hm.
Qed.

Lemma fold_seq_invariant {A} (f : A -> nat -> A) (P : nat -> A -> Prop)
    (n : nat) :
  forall (i : nat) (st : A),
    (forall j st', (i <= j < i + n)%nat -> P j st' -> P (S j) (f st' j)) ->
    P i st -> P (i + n)%nat (fold_left f (seq i n) st).
Proof.
  induction n as [|n IH]; intros i st Hstep Hst.
  - by rewrite Nat.add_0_r.
  - cbn [seq fold_left]. replace (i + S n)%nat with (S i + n)%nat by lia.
    apply IH.
    + intros j st' Hj. apply Hstep. lia.
    + apply Hstep; [lia | done].
Qed.

Lemma jaroMatchStep_keeps (str1 str2 : jsstring) (w : Z)
    (st : list bool * list bool * nat) (i : nat) :
  (i < length str1)%nat ->
  length st.1.1 = length str1 -> length st.1.2 = length str2 ->
  marked st.1.1 = marked st.1.2 ->
  (forall i', (i <= i' < length str1)%nat -> st.1.1 !! i' = Some false) ->
  let st' := jaroMatchStep str1 str2 w st i in
  length st'.1.1 = length str1 /\ length st'.1.2 = length str2
  /\ marked st'.1.1 = marked st'.1.2
  /\ (forall i', (S i <= i' < length str1)%nat -> st'.1.1 !! i' = Some false).
Proof.
  destruct st as [[m1 m2] c]. cbn [fst snd].
  intros Hi Hl1 Hl2 Hbal Hfalse. unfold jaroMatchStep.
  destruct (List.find _ _) as [j |] eqn:Hfind; cbn [fst snd].
  - apply find_some in Hfind as [Hin Hp].
    apply andb_prop in Hp as [Hfree Hsame].
    assert (Hj : m2 !! j = Some false).
    { destruct (m2 !! j) as [[|]|] eqn:Hm2; [done | done |].
      apply lookup_ge_None in Hm2. apply bool_decide_eq_true in Hsame.
      rewrite (proj2 (lookup_ge_None str2 j)) in Hsame by lia.
      apply lookup_lt_is_Some in Hi. destruct Hi as [x Hx]. congruence. }
    rewrite !length_insert.
    split; [done |]. split; [done |]. split.
    + rewrite (marked_insert m1 i), (marked_insert m2 j); try done.
      * by rewrite Hbal.
      * apply Hfalse. lia.
    + intros i' Hi'. rewrite list_lookup_insert_ne by lia.
      apply Hfalse. lia.
  - split; [done |]. split; [done |]. split; [done |].
    intros i' Hi'. apply Hfalse. lia.
Qed.

(** After the first loop both arrays carry the same number of marks. *)
Lemma jaroFindMatches_balanced (str1 str2 : jsstring) :
  marked (jaroFindMatches str1 str2).1.1
  = marked (jaroFindMatches str1 str2).1.2.
Proof.
  unfold jaroFindMatches.
  set (w := Z.max _ _ / 2 - 1).
  pose (P := fun (i : nat) (st : list bool * list bool * nat) =>
               length st.1.1 = length str1 /\ length st.1.2 = length str2
               /\ marked st.1.1 = marked st.1.2
               /\ forall i', (i <= i' < length str1)%nat ->
                             st.1.1 !! i' = Some false).
  assert (HP : P (0 + length str1)%nat
                 (fold_left (jaroMatchStep str1 str2 w) (seq 0 (length str1))
                    (replicate (length str1) false,
                     replicate (length str2) false, O))).
  { apply (fold_seq_invariant (jaroMatchStep str1 str2 w) P).
    - intros j st' Hj (Hl1 & Hl2 & Hbal & Hfalse).
      apply jaroMatchStep_keeps; [lia | done..].
    - unfold P. cbn [fst snd]. rewrite !length_replicate, !marked_replicate.
      repeat split; try done.
      intros i' Hi'. apply lookup_replicate_2. lia. }
  by destruct HP as (_ & _ & ? & _).
Qed.

(** The second loop never runs off [str2Matches]: written with the exit of
    the [while] explicit it computes what [jaroTranspositions] does. *)
Lemma checked_transpositions (str1 str2 : jsstring) (m1 m2 : list bool)
    (n : nat) :
  forall (i k t : nat),
    marked (drop k m2) = marked (drop i m1) ->
    fold_left (checkedTranspositionStep str1 str2 m1 m2) (seq i n)
              (Some (k, t))
    = Some (fold_left (jaroTranspositionStep str1 str2 m1 m2) (seq i n)
                      (k, t)).
Proof.
  induction n as [|n IH]; intros i k t Hbal; [done |].
  cbn [seq fold_left checkedTranspositionStep jaroTranspositionStep].
  rewrite (marked_drop m1 i) in Hbal.
  destruct (default false (m1 !! i)).
  - destruct (findMarked_spec (drop k m2) k) as (d & Hf & Hn & Hm);
      [lia |].
    rewrite Hf, Hn. apply IH.
    rewrite drop_drop in Hm.
    replace (S (k + d)) with (k + S d)%nat by lia. lia.
  - by apply IH.
Qed.

(** X25.  The [while (!str2Matches[k]) k++] of [calculateJaroSimilarity]
    always stops inside the array: each time it runs, a mark is left at or
    after [k], the two arrays holding the same number of marks. *)
Lemma jaro_while_stops (str1 str2 : jsstring) :
  let '(str1Matches, str2Matches, _) := jaroFindMatches str1 str2 in
  fold_left (checkedTranspositionStep str1 str2 str1Matches str2Matches)
            (seq 0 (length str1)) (Some (O, O))
  = Some (fold_left (jaroTranspositionStep str1 str2 str1Matches str2Matches)
                    (seq 0 (length str1)) (O, O)).
Proof.
  pose proof (jaroFindMatches_balanced str1 str2) as Hbal.
  destruct (jaroFindMatches str1 str2) as [[m1 m2] c]. cbn [fst snd] in Hbal.
  apply checked_transpositions. by rewrite !drop_0.
Qed.

(** ** Direct matches *)

Section DirectMatch.
Context {R : Type} `{Number R}.

Lemma matchVersions_direct (versions : list jsstring) (w : jsstring) (c : R)
    (best : Detection R) :
  (exists v, v ∈ versions /\ (2 <= length v)%nat /\ includes v w = true) ->
  let d := matchVersions versions w c best in
  found d = true /\ confidence d = num_ofZ 1 /\ method d = Direct
  /\ version d ∈ versions /\ (2 <= length (version d))%nat
  /\ includes (version d) w = true.
Proof.
  revert best.
  induction versions as [|v0 rest IH]; intros best (v & Hin & Hlen & Hinc).
  - by apply elem_of_nil in Hin.
  - cbn [matchVersions].
    destruct (length v0 <? 2)%nat eqn:Hshort.
    + apply Nat.ltb_lt in Hshort.
      apply elem_of_cons in Hin as [-> | Hin]; [lia |].
      destruct (IH best) as (? & ? & ? & ? & ? & ?); [by eauto |].
      repeat split; try done. by apply elem_of_cons; right.
    + apply Nat.ltb_ge in Hshort.
      destruct (includes v0 w) eqn:Hv0.
      * cbn. repeat split; try done. by apply elem_of_cons; left.
      * apply elem_of_cons in Hin as [-> | Hin]; [congruence |].
        destruct (IH (matchVersion v0 w c best))
          as (? & ? & ? & ? & ? & ?); [by eauto |].
        repeat split; try done. by apply elem_of_cons; right.
Qed.

(** The algorithms that follow the direct test never report the direct
    method. *)
Lemma matchVersion_method (v w : jsstring) (c : R) (best : Detection R) :
  method best <> Direct -> method (matchVersion v w c best) <> Direct.
Proof.
  intros Hbest. unfold matchVersion.
  set (b1 := fold_left _ _ best).
  assert (Hb1 : method b1 <> Direct).
  { subst b1. generalize (List.filter (fun w0 => (1 <? length w0)%nat)
                            (splitSpaces v [] false)).
    intros ws. revert best Hbest.
    induction ws as [|x ws IH]; intros best Hbest; [done |].
    cbn [fold_left]. apply IH.
    repeat case_match; try done. }
  clearbody b1.
  repeat case_match; cbn; try done.
Qed.

Lemma matchVersions_not_direct (versions : list jsstring) (w : jsstring)
    (c : R) (best : Detection R) :
  method best <> Direct ->
  method (matchVersions versions w c best) = Direct ->
  exists v, v ∈ versions /\ (2 <= length v)%nat /\ includes v w = true.
Proof.
  revert best.
  induction versions as [|v0 rest IH]; intros best Hbest; cbn [matchVersions].
  - done.
  - destruct (length v0 <? 2)%nat eqn:Hshort.
    + intros Hd. destruct (IH _ Hbest Hd) as (v & ? & ? & ?).
      exists v. split; [by apply elem_of_cons; right | done].
    + apply Nat.ltb_ge in Hshort.
      destruct (includes v0 w) eqn:Hv0.
      * intros _. exists v0. split; [by apply elem_of_cons; left | done].
      * intros Hd.
        destruct (IH _ (matchVersion_method v0 w c best Hbest) Hd)
          as (v & ? & ? & ?).
        exists v. split; [by apply elem_of_cons; right | done].
Qed.

(** Whenever one of the normalized variations of the text, at least two
    code units long, contains the target word,
    [detectWordWithAdvancedMatching] returns found = true, confidence 1.0
    and method direct, with that variation as the matched version, whatever
    the other algorithms scored on the variations before it. *)
Theorem direct_match_on_variation (text w : jsstring) (c : R) :
  (exists v, v ∈ normalizedVariations text /\ (2 <= length v)%nat
             /\ includes v w = true) ->
  let d := detectWordWithAdvancedMatching text w c in
  found d = true /\ confidence d = num_ofZ 1 /\ method d = Direct
  /\ version d ∈ normalizedVariations text
  /\ includes (version d) w = true.
Proof.
  intros Hex. unfold detectWordWithAdvancedMatching.
  destruct (matchVersions_direct _ w c
              {| found := false; confidence := num_ofZ 0;
                 method := MethodNone; version := [] |} Hex)
    as (? & ? & ? & ? & ? & ?).
  done.
Qed.

(** The direct method is reported only for such a variation. *)
Lemma direct_only_on_variation (text w : jsstring) (c : R) :
  method (detectWordWithAdvancedMatching text w c) = Direct ->
  exists v, v ∈ normalizedVariations text /\ (2 <= length v)%nat
            /\ includes v w = true.
Proof.
  unfold detectWordWithAdvancedMatching.
  by apply matchVersions_not_direct.
Qed.

End DirectMatch.

(** The example of the specification: the words of the text are squeezed
    together and "idiot" is found in the first variation. *)
Lemma direct_match_on_variation_witness :
  let text := str "you are an idiot today" in
  let w := str "idiot" in
  let d := detectWordWithAdvancedMatching (R := float) text w (dec 85 100) in
  str "youareanidiottoday" ∈ normalizedVariations text
  /\ found d = true /\ confidence d = num_ofZ 1 /\ method d = Direct
  /\ version d ∈ normalizedVariations text
  /\ includes (version d) w = true.
Proof.
  assert (Hin : str "youareanidiottoday"
                ∈ normalizedVariations (str "you are an idiot today")).
  { vm_compute. apply list_elem_of_here. }
  split; [exact Hin |].
  apply (direct_match_on_variation (R := float)).
  exists (str "youareanidiottoday").
  split; [exact Hin |].
  split; [vm_compute; lia | vm_compute; reflexivity].
Defined.

(** C1 fails on the code.  The listed word "mom", typed verbatim, is not
    matched: the substitution table rewrites every m of the text to rn
    (and every w to vv) but not those of the target word, so no variation
    contains "mom", the direct test the loop makes never succeeds, and no
    other matcher finds it either; the message passes as clean even under
    high sensitivity.  A word without m or w, "dad", is matched directly. *)
Theorem listed_word_missed_verbatim :
  let text := str "mom" in
  let w := str "mom" in
  let momEntry := {| word := w; language := Custom; severity := HIGH;
                     isGuildSpecific := true |} in
  includes text w = true
  /\ Forall (fun v => includes v w = false) (normalizedVariations text)
  /\ str "rnorn" ∈ normalizedVariations text
  /\ detectWordWithAdvancedMatching (R := float) text w (dec 85 100)
     = {| found := false; confidence := 0%float; method := MethodNone;
          version := [] |}
  /\ detectWordWithAdvancedMatching (R := float) text w (dec 70 100)
     = {| found := false; confidence := 0%float; method := MethodNone;
          version := [] |}
  /\ isClean (analyzeWith (R := float) [momEntry] text SensHigh) = true
  /\ detectedWords (analyzeWith (R := float) [momEntry] text SensHigh) = []
  /\ detectWordWithAdvancedMatching (R := float) (str "dad") (str "dad")
       (dec 85 100)
     = {| found := true; confidence := 1%float; method := Direct;
          version := str "dad" |}.
Proof.
  vm_compute.
  repeat (split; [first [reflexivity | repeat constructor] |]).
  reflexivity.
Qed.

(** ** The word-list cache *)

Section Cache.
Context {S : Type} `{StoreOps S}.

Ltac run_M :=
  unfold loadBadWords, addBadWord, removeBadWord, clearCache, tryCatch,
    awaitFindAll, awaitCreate, awaitDestroy, getThis, setThis, throw,
    mbind, M_bind, mret, M_ret, lastUpdateOf, loadQuery, logged in *;
  cbn [this store calls] in *.

(** Inside the TTL window nothing is fetched and the world is untouched. *)
Lemma loadBadWords_fresh (w : World S) (guildId : option string) (now : Z) :
  now - lastUpdateOf w guildId < cacheExpiry ->
  loadBadWords guildId now w
  = (inr match truthy guildId with
         | Some g => default [] (badWordsCache (this w) !! g)
         | None => []
         end, w).
Proof.
  intros Hfresh. apply Z.ltb_lt in Hfresh. run_M.
  by rewrite Hfresh.
Qed.

(** Past the TTL the store is asked once; its rows, lowercased, are cached
    under the scope key with the time of the call. *)
Lemma loadBadWords_expired (w : World S) (guildId : option string) (now : Z)
    (found_ : list BadWordRow) :
  cacheExpiry <= now - lastUpdateOf w guildId ->
  findAll (loadQuery guildId) (store w) = inr found_ ->
  loadBadWords guildId now w
  = (inr (map processRow found_),
     {| this :=
          {| customWords := customWords (this w);
             settings := settings (this w);
             badWordsCache :=
               <[cacheKeyOf guildId := map processRow found_]>
                 (badWordsCache (this w));
             lastCacheUpdate :=
               <[cacheKeyOf guildId := now]> (lastCacheUpdate (this w)) |};
        store := store w;
        calls := calls w ++ [CallFindAll (loadQuery guildId)] |}).
Proof.
  intros Hold Hfetch. apply Z.ltb_ge in Hold. run_M.
  by rewrite Hold, Hfetch.
Qed.

Lemma loadBadWords_failed (w : World S) (guildId : option string) (now : Z)
    (e : Error) :
  cacheExpiry <= now - lastUpdateOf w guildId ->
  findAll (loadQuery guildId) (store w) = inl e ->
  loadBadWords guildId now w
  = (inr [], logged w (CallFindAll (loadQuery guildId))).
Proof.
  intros Hold Hfetch. apply Z.ltb_ge in Hold. run_M.
  by rewrite Hold, Hfetch.
Qed.

(** C4.  When [loadBadWords] reaches its store fetch and the fetch fails,
    the call returns the empty list as an ordinary result (no error comes
    out of it) and the engine, cached lists and timestamps included, is
    what it was before the call; so is the store. *)
Theorem loadBadWords_fail_open (w : World S) (guildId : option string)
    (now : Z) (e : Error) :
  cacheExpiry <= now - lastUpdateOf w guildId ->
  findAll (loadQuery guildId) (store w) = inl e ->
  fst (loadBadWords guildId now w) = inr []
  /\ this (snd (loadBadWords guildId now w)) = this w
  /\ badWordsCache (this (snd (loadBadWords guildId now w)))
     = badWordsCache (this w)
  /\ lastCacheUpdate (this (snd (loadBadWords guildId now w)))
     = lastCacheUpdate (this w)
  /\ store (snd (loadBadWords guildId now w)) = store w.
Proof.
  intros Hold Hfetch.
  by rewrite (loadBadWords_failed w guildId now e Hold Hfetch).
Qed.

Lemma addBadWord_run (w : World S) (word_ : jsstring)
    (language_ : Language) (severity_ : Severity)
    (guildId addedBy : option string) :
  let n := addedWord word_ severity_ guildId addedBy in
  addBadWord word_ language_ severity_ guildId addedBy w
  = match create n (store w) with
    | inr (r, s') =>
        (inr r, {| this := invalidated guildId (this w); store := s';
                   calls := calls w ++ [CallCreate n] |})
    | inl e => (inl e, logged w (CallCreate n))
    end.
Proof.
  run_M. unfold addedWord.
  by destruct (create _ (store w)) as [e | [r s']].
Qed.

(** C8, as amended.  [addBadWord] validates nothing itself: its one store
    call is [create] with the lowercased, trimmed word, empty or not, under
    the language custom; it returns the created row when [create] succeeds
    and fails exactly when [create] fails, with the store's error. *)
Theorem addBadWord_outcome (w : World S) (word_ : jsstring)
    (language_ : Language) (severity_ : Severity)
    (guildId addedBy : option string) :
  let n := addedWord word_ severity_ guildId addedBy in
  let res := addBadWord word_ language_ severity_ guildId addedBy w in
  new_word n = trim (toLowerCase word_) /\ new_language n = Custom
  /\ calls (snd res) = calls w ++ [CallCreate n]
  /\ fst res = match create n (store w) with
               | inr (r, _) => inr r
               | inl e => inl e
               end
  /\ store (snd res) = match create n (store w) with
                       | inr (_, s') => s'
                       | inl _ => store w
                       end.
Proof.
  cbn zeta. rewrite addBadWord_run.
  by destruct (create _ (store w)) as [e | [r s']].
Qed.

Lemma removeBadWord_outcome (w : World S) (word_ : jsstring)
    (guildId : option string) :
  let q := removeQuery word_ guildId in
  removeBadWord word_ guildId w
  = match destroy q (store w) with
    | inr (n, s') =>
        (inr (0 <? n)%nat,
         {| this := invalidated guildId (this w); store := s';
            calls := calls w ++ [CallDestroy q] |})
    | inl e => (inl e, logged w (CallDestroy q))
    end.
Proof.
  run_M. unfold removeQuery.
  by destruct (destroy _ (store w)) as [e | [r s']].
Qed.

(** After an invalidation the next load finds no timestamp, takes the last
    load to be at time 0, and goes to the store. *)
Lemma load_after_invalidation (w : World S) (guildId : option string)
    (now : Z) (s' : S) (log : list StoreCall) :
  cacheExpiry <= now ->
  calls (snd (loadBadWords guildId now
                {| this := invalidated guildId (this w); store := s';
                   calls := log |}))
  = log ++ [CallFindAll (loadQuery guildId)].
Proof.
  intros Hnow.
  set (w' := {| this := invalidated guildId (this w); store := s';
                calls := log |}).
  assert (Hold : cacheExpiry <= now - lastUpdateOf w' guildId).
  { unfold lastUpdateOf, w', invalidated. cbn [this lastCacheUpdate].
    rewrite lookup_delete_eq. cbn. lia. }
  destruct (findAll (loadQuery guildId) (store w')) as [e | rows] eqn:Hfetch.
  - by rewrite (loadBadWords_failed w' guildId now e Hold Hfetch).
  - by rewrite (loadBadWords_expired w' guildId now rows Hold Hfetch).
Qed.

(** C5, as amended.  An [addBadWord] or [removeBadWord] call whose store
    write succeeds deletes the scope's cache entry and timestamp;
    [removeBadWord] does so whether or not a row matched and returns
    whether one did.  The next [loadBadWords] for the scope then fetches
    from the store, however recent the previous load (the clock reading at
    least the TTL, as any real one does).  A call whose store write throws
    rethrows the error and leaves the engine as it was. *)
Theorem write_invalidates_cache (w : World S) (word_ : jsstring)
    (language_ : Language) (severity_ : Severity)
    (guildId addedBy : option string) (now : Z) :
  cacheExpiry <= now ->
  let added := addBadWord word_ language_ severity_ guildId addedBy w in
  let removed := removeBadWord word_ guildId w in
  (forall r s',
      create (addedWord word_ severity_ guildId addedBy) (store w)
      = inr (r, s') ->
      fst added = inr r
      /\ badWordsCache (this (snd added)) !! cacheKeyOf guildId = None
      /\ lastCacheUpdate (this (snd added)) !! cacheKeyOf guildId = None
      /\ calls (snd (loadBadWords guildId now (snd added)))
         = calls (snd added) ++ [CallFindAll (loadQuery guildId)])
  /\ (forall n s',
      destroy (removeQuery word_ guildId) (store w) = inr (n, s') ->
      fst removed = inr (0 <? n)%nat
      /\ badWordsCache (this (snd removed)) !! cacheKeyOf guildId = None
      /\ lastCacheUpdate (this (snd removed)) !! cacheKeyOf guildId = None
      /\ calls (snd (loadBadWords guildId now (snd removed)))
         = calls (snd removed) ++ [CallFindAll (loadQuery guildId)])
  /\ (forall e,
      create (addedWord word_ severity_ guildId addedBy) (store w) = inl e ->
      fst added = inl e /\ this (snd added) = this w)
  /\ (forall e,
      destroy (removeQuery word_ guildId) (store w) = inl e ->
      fst removed = inl e /\ this (snd removed) = this w).
Proof.
  intros Hnow added removed. subst added removed.
  rewrite addBadWord_run, removeBadWord_outcome.
  split; [| split; [| split]].
  - intros r s' ->. cbn [fst snd this calls].
    split; [done |]. split; [apply lookup_delete_eq |].
    split; [apply lookup_delete_eq | by apply load_after_invalidation].
  - intros n s' ->. cbn [fst snd this calls].
    split; [done |]. split; [apply lookup_delete_eq |].
    split; [apply lookup_delete_eq | by apply load_after_invalidation].
  - by intros e ->.
  - by intros e ->.
Qed.

End Cache.

(** The store is offline five minutes after a load: the next load returns
    nothing and the stale cache stays. *)
Lemma loadBadWords_fail_open_witness :
  let w := loadedWorld "guildA" t0 false in
  let now := t0 + cacheExpiry in
  cacheExpiry <= now - lastUpdateOf w (Some "guildA")
  /\ findAll (loadQuery (Some "guildA")) (store w) = inl MemStore.down
  /\ fst (loadBadWords (Some "guildA") now w) = inr []
  /\ this (snd (loadBadWords (Some "guildA") now w)) = this w.
Proof.
  assert (Hold : cacheExpiry
                 <= t0 + cacheExpiry
                    - lastUpdateOf (loadedWorld "guildA" t0 false)
                        (Some "guildA")).
  { vm_compute. discriminate. }
  assert (Hfetch : findAll (loadQuery (Some "guildA"))
                     (store (loadedWorld "guildA" t0 false))
                   = inl MemStore.down).
  { reflexivity. }
  split; [exact Hold |]. split; [exact Hfetch |].
  destruct (loadBadWords_fail_open (loadedWorld "guildA" t0 false)
              (Some "guildA") (t0 + cacheExpiry) MemStore.down Hold Hfetch)
    as (Hres & Hthis & _).
  split; [exact Hres | exact Hthis].
Defined.

(** C2 fails for the global scope.  The first [loadBadWords(null)] fetches
    the global word and caches it under the key "global"; the second, one
    second later, returns the empty list although the cached list is
    there (the guild branch of the same line returns its cached list). *)
Theorem loadBadWords_global_ignores_cache :
  let w := worldWith None true in
  let first := loadBadWords None t0 w in
  let second := loadBadWords None (t0 + 1000) (snd first) in
  fst first = inr [badwordEntry false]
  /\ badWordsCache (this (snd first)) !! "global" = Some [badwordEntry false]
  /\ lastCacheUpdate (this (snd first)) !! "global" = Some t0
  /\ fst second = inr []
  /\ snd second = snd first.
Proof. vm_compute. repeat split. Qed.

(** The same two calls for a guild: the second returns the cached list and
    asks the store nothing. *)
Lemma loadBadWords_guild_uses_cache :
  let w := worldWith (Some "guildA") true in
  let first := loadBadWords (Some "guildA") t0 w in
  let second := loadBadWords (Some "guildA") (t0 + 1000) (snd first) in
  fst first = inr [badwordEntry true]
  /\ fst second = inr [badwordEntry true]
  /\ snd second = snd first
  /\ calls (snd second) = [CallFindAll (loadQuery (Some "guildA"))].
Proof. vm_compute. repeat split. Qed.

(** A word of blanks is stored as the empty word; no error is raised. *)
Lemma addBadWord_accepts_blank_word :
  let w := worldWith (Some "guildA") true in
  let res := addBadWord (str "   ") Custom HIGH (Some "guildA") (Some "mod1") w in
  trim (toLowerCase (str "   ")) = []
  /\ fst res
     = inr {| row_id := 2; row_word := []; row_language := Custom;
              row_severity := HIGH; row_guildId := Some "guildA";
              row_isActive := true; row_addedBy := Some "mod1" |}
  /\ length (MemStore.rows (store (snd res))) = 2%nat.
Proof. vm_compute. repeat split. Qed.

(** With the store offline both writes throw and the cache entry and its
    timestamp survive; and with a clock reading one second, a load right
    after a successful add asks the store nothing. *)
Lemma failed_write_keeps_cache :
  let w := loadedWorld "guildA" t0 false in
  let added := addBadWord (str "slur") Custom HIGH (Some "guildA") None w in
  let removed := removeBadWord (str "badword") (Some "guildA") w in
  (fst added = inl MemStore.down
   /\ badWordsCache (this (snd added)) !! "guildA" = Some [badwordEntry true]
   /\ lastCacheUpdate (this (snd added)) !! "guildA" = Some t0)
  /\ (fst removed = inl MemStore.down
      /\ badWordsCache (this (snd removed)) !! "guildA"
         = Some [badwordEntry true]
      /\ lastCacheUpdate (this (snd removed)) !! "guildA" = Some t0)
  /\ (let w := loadedWorld "guildA" 0 true in
      let added := addBadWord (str "slur") Custom HIGH (Some "guildA") None w in
      calls (snd (loadBadWords (Some "guildA") 1000 (snd added)))
      = calls (snd added)).
Proof. vm_compute. repeat split. Qed.

(** A word is added to, and another removed from, a guild whose list was
    loaded a second before: either way the next load asks the store. *)
Lemma write_invalidates_cache_witness :
  let w := loadedWorld "guildA" t0 true in
  let g := Some "guildA" in
  let now := t0 + 1000 in
  let added := addBadWord (str " Slur ") Custom HIGH g (Some "mod1") w in
  let removed := removeBadWord (str "BadWord") g w in
  cacheExpiry <= now
  /\ (badWordsCache (this (snd added)) !! "guildA" = None
      /\ lastCacheUpdate (this (snd added)) !! "guildA" = None
      /\ calls (snd (loadBadWords g now (snd added)))
         = calls (snd added) ++ [CallFindAll (loadQuery g)])
  /\ (fst removed = inr true
      /\ badWordsCache (this (snd removed)) !! "guildA" = None
      /\ lastCacheUpdate (this (snd removed)) !! "guildA" = None
      /\ calls (snd (loadBadWords g now (snd removed)))
         = calls (snd removed) ++ [CallFindAll (loadQuery g)]).
Proof.
  assert (Hnow : cacheExpiry <= t0 + 1000) by (vm_compute; discriminate).
  split; [exact Hnow |].
  destruct (write_invalidates_cache (loadedWorld "guildA" t0 true)
              (str " Slur ") Custom HIGH (Some "guildA") (Some "mod1")
              (t0 + 1000) Hnow) as (Hadd & _).
  destruct (write_invalidates_cache (loadedWorld "guildA" t0 true)
              (str "BadWord") Custom HIGH (Some "guildA") (Some "mod1")
              (t0 + 1000) Hnow) as (_ & Hrem & _).
  split.
  - edestruct Hadd as (_ & Hc & Ht & Hl); [vm_compute; reflexivity |].
    split; [exact Hc | split; [exact Ht | exact Hl]].
  - edestruct Hrem as (Hr & Hc & Ht & Hl); [vm_compute; reflexivity |].
    split; [exact Hr | split; [exact Hc | split; [exact Ht | exact Hl]]].
Defined.

(** ** The flag decision *)

Section Flagging.
Context {R : Type} `{Number R}.

Lemma filter_nonempty {A} (p : A -> bool) (l : list A) :
  (0 <? length (List.filter p l))%nat = true
  <-> exists x, x ∈ l /\ p x = true.
Proof.
  rewrite Nat.ltb_lt. split.
  - intros Hlen.
    destruct (List.filter p l) as [|x l'] eqn:Hf; [cbn in Hlen; lia |].
    assert (Hx : In x (List.filter p l)) by (rewrite Hf; left; reflexivity).
    apply filter_In in Hx as [Hx Hp].
    exists x. split; [by apply list_elem_of_In | done].
  - intros (x & Hx & Hp).
    assert (Hin : In x (List.filter p l)).
    { apply filter_In. split; [by apply list_elem_of_In | done]. }
    destruct (List.filter p l); [destruct Hin | cbn; lia].
Qed.

Lemma flag_empty (maxSeverity : Severity) (sensitivity : Sensitivity) :
  shouldFlagContent (R := R) [] maxSeverity sensitivity = false.
Proof. reflexivity. Qed.

Lemma flag_low_iff (ds : list (DetectedWord R)) (maxSeverity : Severity) :
  shouldFlagContent ds maxSeverity SensLow = true
  <-> maxSeverity = HIGH /\ exists d, d ∈ ds /\ highConfidence d = true.
Proof.
  destruct ds as [|d0 ds'].
  - rewrite flag_empty. split; [done |].
    intros (_ & d & Hd & _). by apply elem_of_nil in Hd.
  - unfold shouldFlagContent. cbn [length Nat.eqb].
    rewrite andb_true_iff, bool_decide_eq_true.
    pose proof (filter_nonempty highConfidence (d0 :: ds')) as Hf.
    unfold highConfidence in Hf. by rewrite Hf.
Qed.

Lemma flag_medium_iff (ds : list (DetectedWord R)) (maxSeverity : Severity) :
  shouldFlagContent ds maxSeverity SensMedium = true
  <-> ds <> []
      /\ (maxSeverity = HIGH
          \/ (maxSeverity = MEDIUM
              /\ exists d, d ∈ ds /\ mediumConfidence d = true)).
Proof.
  destruct ds as [|d0 ds'].
  - rewrite flag_empty. split; [done | by intros [? _]].
  - unfold shouldFlagContent. cbn [length Nat.eqb].
    rewrite orb_true_iff, andb_true_iff, !bool_decide_eq_true.
    pose proof (filter_nonempty mediumConfidence (d0 :: ds')) as Hf.
    unfold mediumConfidence in Hf. rewrite Hf.
    split; [by intros ? | by intros [_ ?]].
Qed.

Lemma flag_high_iff (ds : list (DetectedWord R)) (maxSeverity : Severity) :
  shouldFlagContent ds maxSeverity SensHigh = true <-> ds <> [].
Proof.
  destruct ds as [|d0 ds']; [by rewrite flag_empty |].
  unfold shouldFlagContent. by cbn [length Nat.eqb Nat.ltb Nat.leb].
Qed.

(** C3.  For the arguments [analyzeContent] passes, where maxSeverity is
    low when nothing was detected, [shouldFlagContent] flags exactly per
    sensitivity tier: under low only when maxSeverity is high and some
    detection has confidence >= 0.95; under medium when maxSeverity is
    high, or maxSeverity is medium and some detection has confidence in
    [0.85, 0.95); under high whenever there is a detection. *)
Theorem shouldFlagContent_tiers (ds : list (DetectedWord R))
    (maxSeverity : Severity) :
  (ds = [] -> maxSeverity = LOW) ->
  (shouldFlagContent ds maxSeverity SensLow = true
   <-> maxSeverity = HIGH /\ exists d, d ∈ ds /\ highConfidence d = true)
  /\ (shouldFlagContent ds maxSeverity SensMedium = true
      <-> maxSeverity = HIGH
          \/ (maxSeverity = MEDIUM
              /\ exists d, d ∈ ds /\ mediumConfidence d = true))
  /\ (shouldFlagContent ds maxSeverity SensHigh = true
      <-> exists d, d ∈ ds).
Proof.
  intros Hlow.
  split; [apply flag_low_iff |]. split.
  - rewrite flag_medium_iff. split; [by intros [_ ?] |].
    intros Hcase. split; [| done].
    intros Hnil. specialize (Hlow Hnil). subst ds.
    destruct Hcase as [? | [? _]]; congruence.
  - rewrite flag_high_iff. split.
    + destruct ds as [|d ds']; [done |]. intros _. exists d. apply list_elem_of_here.
    + intros [d Hd] ->. by apply elem_of_nil in Hd.
Qed.

(** C7.  For one detection list and one maxSeverity, whatever is flagged
    under low sensitivity is flagged under medium, and whatever is flagged
    under medium is flagged under high. *)
Theorem shouldFlagContent_monotone (ds : list (DetectedWord R))
    (maxSeverity : Severity) :
  (shouldFlagContent ds maxSeverity SensLow = true ->
   shouldFlagContent ds maxSeverity SensMedium = true)
  /\ (shouldFlagContent ds maxSeverity SensMedium = true ->
      shouldFlagContent ds maxSeverity SensHigh = true).
Proof.
  split.
  - intros [Hs (d & Hd & _)]%flag_low_iff. apply flag_medium_iff.
    split; [| by left].
    intros ->. by apply elem_of_nil in Hd.
  - intros [Hne _]%flag_medium_iff. by apply flag_high_iff.
Qed.

End Flagging.

(** A medium-severity word found by the reverse matcher (confidence 0.9):
    flagged under medium and high sensitivity, not under low. *)
Lemma shouldFlagContent_tiers_witness :
  ([reverseHit] = [] -> MEDIUM = LOW)
  /\ shouldFlagContent [reverseHit] MEDIUM SensLow = false
  /\ shouldFlagContent [reverseHit] MEDIUM SensMedium = true
  /\ shouldFlagContent [reverseHit] MEDIUM SensHigh = true.
Proof.
  assert (Hpre : [reverseHit] = [] -> MEDIUM = LOW) by discriminate.
  split; [exact Hpre |].
  destruct (shouldFlagContent_tiers [reverseHit] MEDIUM Hpre)
    as (Hl & Hm & Hh).
  split; [| split].
  - destruct (shouldFlagContent [reverseHit] MEDIUM SensLow) eqn:Hflag;
      [| reflexivity].
    destruct Hl as [Hl _]. by destruct (Hl eq_refl) as [? _].
  - apply Hm. right. split; [reflexivity |].
    exists reverseHit. split; [apply list_elem_of_here |].
    vm_compute. reflexivity.
  - apply Hh. exists reverseHit. apply list_elem_of_here.
Defined.

(** A direct hit on a high-severity word is flagged on every tier. *)
Lemma shouldFlagContent_monotone_witness :
  shouldFlagContent [directHit] HIGH SensLow = true
  /\ shouldFlagContent [directHit] HIGH SensMedium = true
  /\ shouldFlagContent [directHit] HIGH SensHigh = true.
Proof.
  destruct (shouldFlagContent_monotone [directHit] HIGH) as [Hlm Hmh].
  assert (Hlow : shouldFlagContent [directHit] HIGH SensLow = true)
    by (vm_compute; reflexivity).
  split; [exact Hlow |].
  split; [exact (Hlm Hlow) | exact (Hmh (Hlm Hlow))].
Defined.

(** ** The analysis loop *)

Section AnalysisLoop.
Context {R : Type} `{Number R}.

(** No detection, no severity: the loop raises maxSeverity only together
    with a detection. *)
Lemma analyzeWord_low_when_empty (text : jsstring) (threshold : R)
    (badWords : list BadWordEntry) (acc : list (DetectedWord R) * Severity * R) :
  (acc.1.1 = [] -> acc.1.2 = LOW) ->
  let out := fold_left (analyzeWord text threshold) badWords acc in
  out.1.1 = [] -> out.1.2 = LOW.
Proof.
  revert acc. induction badWords as [|b bs IH]; intros acc Hacc; [done |].
  cbn [fold_left]. apply IH.
  destruct acc as [[ds m] c]. unfold analyzeWord.
  case_match; [| done].
  cbn. intros Hnil. by apply app_eq_nil in Hnil as [_ ?].
Qed.

(** Inside [analyzeContent] the medium tier reads as the specification
    words it: the result is flagged exactly when its severity is high, or
    is medium with a detection of confidence in [0.85, 0.95). *)
Lemma analyzeWith_medium_tier (badWords : list BadWordEntry) (text : jsstring) :
  let r := analyzeWith (R := R) badWords text SensMedium in
  isClean r = false
  <-> resultSeverity r = HIGH
      \/ (resultSeverity r = MEDIUM
          /\ exists d, d ∈ detectedDetails r /\ mediumConfidence d = true).
Proof.
  unfold analyzeWith.
  pose proof (analyzeWord_low_when_empty text (confidenceThreshold SensMedium)
                badWords ([], LOW, num_ofZ 0) (fun _ => eq_refl)) as Hlow.
  destruct (fold_left _ badWords _) as [[ds m] c]. cbn in Hlow |- *.
  rewrite negb_false_iff, flag_medium_iff.
  split; [by intros [_ ?] |].
  intros Hcase. split; [| done].
  intros ->. destruct Hcase as [-> | [_ (d & Hd & _)]].
  - by specialize (Hlow eq_refl).
  - by apply elem_of_nil in Hd.
Qed.

End AnalysisLoop.

(** The scenario on the numbers the runtime computes with: "badword" is
    spelt "badvvord" in every variation, and the character-sequence
    detector reports it at confidence 0.85. *)
Lemma scenario_detection :
  let d := detectWordWithAdvancedMatching (R := float) scenarioText
             (str "badword") (dec 85 100) in
  found d = true /\ confidence d = dec 85 100 /\ method d = Sequence
  /\ version d = str "thisisa badvvordrnessage".
Proof. vm_compute. repeat split. Qed.

(** The same decision on exact rationals. *)
Lemma scenario_detection_exact :
  let d := detectWordWithAdvancedMatching (R := Q) scenarioText
             (str "badword") (dec 85 100) in
  found d = true /\ confidence d = (17 # 20)%Q /\ method d = Sequence.
Proof. vm_compute. repeat split. Qed.

Lemma scenario_analysis (e : BadWordEntry) :
  word e = str "badword" -> severity e = HIGH ->
  let r := analyzeWith (R := float) [e] scenarioText SensMedium in
  isClean r = false /\ detectedWords r = [str "badword"]
  /\ resultSeverity r = HIGH /\ action r = Timeout.
Proof.
  destruct e as [w l s g]. cbn [word severity]. intros -> ->.
  vm_compute. repeat split.
Qed.

(** C6.  When the word list loaded for the call is the single entry
    "badword" of high severity and the sensitivity is medium,
    [analyzeContent("this is a badword message")] returns isClean = false,
    detectedWords = ["badword"], severity high and action timeout. *)
Theorem badword_scenario {S : Type} `{StoreOps S} (w : World S)
    (guildId : option string) (now : Z) (e : BadWordEntry) :
  word e = str "badword" -> severity e = HIGH ->
  fst (loadBadWords guildId now w) = inr [e] ->
  exists r,
    fst (analyzeContent (R := float) (VString scenarioText)
           {| opt_sensitivity := Some SensMedium; opt_guildId := guildId |}
           now w) = inr r
    /\ isClean r = false /\ detectedWords r = [str "badword"]
    /\ resultSeverity r = HIGH /\ action r = Timeout.
Proof.
  intros Hword Hsev Hload.
  exists (analyzeWith (R := float) [e] scenarioText SensMedium).
  split; [| by apply scenario_analysis].
  unfold analyzeContent, scenarioText. cbn [str list_ascii_of_string map].
  cbn [opt_sensitivity opt_guildId default from_option].
  unfold mbind, M_bind, mret, M_ret.
  destruct (loadBadWords guildId now w) as [[err | l] w'];
    cbn in Hload; [done |].
  by injection Hload as ->.
Qed.

(** The scenario with the options [{sensitivity: 'medium'}] alone, the
    word being global, and with the id of a guild that owns the word. *)
Lemma badword_scenario_witness :
  (fst (loadBadWords None t0 (worldWith None true)) = inr [badwordEntry false]
   /\ exists r,
        fst (analyzeContent (R := float) (VString scenarioText)
               {| opt_sensitivity := Some SensMedium; opt_guildId := None |}
               t0 (worldWith None true)) = inr r
        /\ isClean r = false /\ detectedWords r = [str "badword"]
        /\ resultSeverity r = HIGH /\ action r = Timeout)
  /\ (fst (loadBadWords (Some "guildA") t0 (worldWith (Some "guildA") true))
      = inr [badwordEntry true]
      /\ exists r,
           fst (analyzeContent (R := float) (VString scenarioText)
                  {| opt_sensitivity := Some SensMedium;
                     opt_guildId := Some "guildA" |}
                  t0 (worldWith (Some "guildA") true)) = inr r
           /\ isClean r = false /\ detectedWords r = [str "badword"]
           /\ resultSeverity r = HIGH /\ action r = Timeout).
Proof.
  split.
  - split; [reflexivity |].
    exact (badword_scenario (worldWith None true) None t0
             (badwordEntry false) eq_refl eq_refl eq_refl).
  - split; [reflexivity |].
    exact (badword_scenario (worldWith (Some "guildA") true) (Some "guildA")
             t0 (badwordEntry true) eq_refl eq_refl eq_refl).
Defined.

(** What the ignored global cache does to the analysis: with no guild id
    the same message is flagged by a first call and passes as clean one
    second later. *)
Lemma global_scenario_flips :
  let options := {| opt_sensitivity := Some SensMedium; opt_guildId := None |} in
  let first := analyzeContent (R := float) (VString scenarioText) options t0
                 (worldWith None true) in
  let second := analyzeContent (R := float) (VString scenarioText) options
                  (t0 + 1000) (snd first) in
  (exists r, fst first = inr r /\ isClean r = false
             /\ detectedWords r = [str "badword"])
  /\ (exists r, fst second = inr r /\ isClean r = true
                /\ detectedWords r = []).
Proof.
  split; eexists; (split; [vm_compute; reflexivity |]); split; reflexivity.
Qed.

(** ** The containment bonus *)

Lemma dec_8_10_exact : dec (R := Q) 8 10 = (4 # 5)%Q.
Proof. reflexivity. Qed.

Lemma Qmax_floor (x floor : Q) :
  (floor <= num_max (R := Q) x floor)%Q.
Proof.
  cbn [num_max Q_number].
  destruct (Qle_bool x floor) eqn:Hle.
  - apply Qle_refl.
  - apply Qlt_le_weak, Qnot_le_lt. intros Hx.
    apply Qle_bool_iff in Hx. congruence.
Qed.

(** In exact arithmetic: for two non-empty words one of which contains the
    other, the score is at least 0.8 when the lengths differ by no more
    than the shorter length, and 0 when they differ by more. *)
Lemma containment_floor_exact (word1 word2 : jsstring) :
  word1 <> [] -> word2 <> [] ->
  includes word1 word2 || includes word2 word1 = true ->
  let len1 := Z.of_nat (length word1) in
  let len2 := Z.of_nat (length word2) in
  let score := calculateAdvancedSimilarity (R := Q) word1 word2 in
  (Z.abs (len1 - len2) <= Z.min len1 len2 -> (8 # 10 <= score)%Q)
  /\ (Z.min len1 len2 < Z.abs (len1 - len2) -> score = 0%Q).
Proof.
  intros Hne1 Hne2 Hcontains len1 len2 score.
  subst len1 len2 score. unfold calculateAdvancedSimilarity.
  destruct word1 as [|a word1]; [done |].
  destruct word2 as [|b word2]; [done |].
  cbn [Nat.eqb orb].
  change (length (a :: word1) =? 0)%nat with false.
  change (length (b :: word2) =? 0)%nat with false.
  cbn [orb].
  destruct (JS.eqb (a :: word1) (b :: word2)) eqn:Heq.
  - apply bool_decide_eq_true in Heq. rewrite Heq.
    split; [done | lia].
  - destruct (Z.abs _ >? Z.min _ _) eqn:Hguard.
    + apply Z.gtb_lt in Hguard. split; [lia | done].
    + assert (Hle : Z.abs (Z.of_nat (length (a :: word1))
                           - Z.of_nat (length (b :: word2)))
                    <= Z.min (Z.of_nat (length (a :: word1)))
                             (Z.of_nat (length (b :: word2)))).
      { destruct (Z.gtb_spec (Z.abs (Z.of_nat (length (a :: word1))
                                     - Z.of_nat (length (b :: word2))))
                    (Z.min (Z.of_nat (length (a :: word1)))
                           (Z.of_nat (length (b :: word2)))));
          [done | lia]. }
      split; [| lia].
      intros _. rewrite Hcontains, dec_8_10_exact.
      eapply Qle_trans; [| apply Qmax_floor]. done.
Qed.

(** C9, as stated, fails: "bad" is a substring of "badword", but the
    lengths differ by 4, more than the shorter length 3, and the score is 0
    (on doubles and on rationals alike). *)
Lemma containment_ignored_when_lengths_differ :
  includes (str "badword") (str "bad") = true
  /\ calculateAdvancedSimilarity (R := float) (str "bad") (str "badword")
     = 0%float
  /\ calculateAdvancedSimilarity (R := Q) (str "bad") (str "badword") = 0%Q.
Proof. vm_compute. repeat split. Qed.

(** With lengths 6 and 7 the same containment is scored well above 0.8 on
    doubles. *)
Lemma containment_scored_on_doubles :
  (calculateAdvancedSimilarity (R := float) (str "badwor") (str "badword")
   >=? dec 8 10)%num = true.
Proof. vm_compute. reflexivity. Qed.

(** ** Defaults for a guild never configured *)

Lemma never_saved_lookup (guildId : string) (e : Engine) :
  NeverSaved guildId e -> settings e !! guildId = None.
Proof.
  induction 1 as [| g s e Hne _ IH | e cache stamps _ IH].
  - apply lookup_empty.
  - cbn [saveGuildSettings settings]. by rewrite lookup_insert_ne.
  - exact IH.
Qed.

(** C10.  For a guild on which [saveGuildSettings] has never been called,
    [getGuildSettings] returns the default settings (moderation enabled,
    medium sensitivity, no custom words, no monitored channels, no excluded
    roles), [shouldMonitorChannel] is true for every channel and
    [isUserExcluded] is false for every list of roles. *)
Theorem unsaved_guild_defaults (guildId : string) (e : Engine) :
  NeverSaved guildId e ->
  getGuildSettings guildId e = defaultSettings
  /\ (enableModeration defaultSettings = true
      /\ sensitivityLevel defaultSettings = SensMedium
      /\ settingsCustomWords defaultSettings = []
      /\ monitoredChannels defaultSettings = []
      /\ excludedRoles defaultSettings = [])
  /\ (forall channelId, shouldMonitorChannel guildId channelId e = true)
  /\ (forall userRoles, isUserExcluded guildId userRoles e = false).
Proof.
  intros Hnever%never_saved_lookup.
  assert (Hget : getGuildSettings guildId e = defaultSettings).
  { unfold getGuildSettings. by rewrite Hnever. }
  split; [exact Hget |]. split; [done |]. split.
  - intros channelId. unfold shouldMonitorChannel. by rewrite Hget.
  - intros userRoles. unfold isUserExcluded. by rewrite Hget.
Qed.

(** Guild B was configured strictly, guild A never: A still gets the
    defaults. *)
Lemma unsaved_guild_defaults_witness :
  let e := saveGuildSettings "guildB" strictSettings newEngine in
  NeverSaved "guildA" e
  /\ getGuildSettings "guildA" e = defaultSettings
  /\ shouldMonitorChannel "guildA" "chan9" e = true
  /\ isUserExcluded "guildA" ["role1"] e = false
  /\ shouldMonitorChannel "guildB" "chan9" e = false
  /\ isUserExcluded "guildB" ["role1"] e = true.
Proof.
  assert (Hnever : NeverSaved "guildA"
                     (saveGuildSettings "guildB" strictSettings newEngine)).
  { apply never_save_other; [discriminate | apply never_new]. }
  split; [exact Hnever |].
  destruct (unsaved_guild_defaults "guildA" _ Hnever) as (Hget & _ & Hmon & Hex).
  split; [exact Hget |].
  split; [exact (Hmon "chan9") |].
  split; [exact (Hex ["role1"]) |].
  split; vm_compute; reflexivity.
Defined.

(** ** What the cache operations leave alone *)

Section Preservation.
Context {S : Type} `{StoreOps S}.

(** [loadBadWords] always returns a list: its catch clause swallows every
    store error. *)
Lemma loadBadWords_never_throws (w : World S) (guildId : option string)
    (now : Z) :
  exists l, fst (loadBadWords guildId now w) = inr l.
Proof.
  destruct (Z.lt_ge_cases (now - lastUpdateOf w guildId) cacheExpiry)
    as [Hfresh | Hold].
  - rewrite (loadBadWords_fresh w guildId now Hfresh). by eexists.
  - destruct (findAll (loadQuery guildId) (store w)) as [e | rows] eqn:Hfetch.
    + rewrite (loadBadWords_failed w guildId now e Hold Hfetch). by eexists.
    + rewrite (loadBadWords_expired w guildId now rows Hold Hfetch).
      by eexists.
Qed.

(** Hence [analyzeContent] returns a result for every input. *)
Lemma analyzeContent_never_throws {R : Type} `{Number R} (text : JSValue)
    (options : Options) (now : Z) (w : World S) :
  exists r, fst (analyzeContent (R := R) text options now w) = inr r.
Proof.
  unfold analyzeContent.
  destruct text as [| | n | [|c s]]; try (by eexists).
  unfold mbind, M_bind, mret, M_ret.
  destruct (loadBadWords_never_throws w (opt_guildId options) now) as [l Hl].
  destruct (loadBadWords (opt_guildId options) now w) as [[e | l'] w'];
    cbn in Hl; [done |].
  by eexists.
Qed.

Lemma NeverSaved_loadBadWords (g : string) (w : World S)
    (guildId : option string) (now : Z) :
  NeverSaved g (this w) ->
  NeverSaved g (this (snd (loadBadWords guildId now w))).
Proof.
  intros Hnever.
  destruct (Z.lt_ge_cases (now - lastUpdateOf w guildId) cacheExpiry)
    as [Hfresh | Hold].
  - by rewrite (loadBadWords_fresh w guildId now Hfresh).
  - destruct (findAll (loadQuery guildId) (store w)) as [e | rows] eqn:Hfetch.
    + by rewrite (loadBadWords_failed w guildId now e Hold Hfetch).
    + rewrite (loadBadWords_expired w guildId now rows Hold Hfetch).
      cbn [snd this]. by apply never_cache.
Qed.

Lemma NeverSaved_addBadWord (g : string) (w : World S) (word_ : jsstring)
    (language_ : Language) (severity_ : Severity)
    (guildId addedBy : option string) :
  NeverSaved g (this w) ->
  NeverSaved g
    (this (snd (addBadWord word_ language_ severity_ guildId addedBy w))).
Proof.
  intros Hnever. rewrite addBadWord_run.
  destruct (create _ (store w)) as [e | [r s']]; cbn [snd this logged].
  - done.
  - unfold invalidated. by apply never_cache.
Qed.

Lemma NeverSaved_removeBadWord (g : string) (w : World S) (word_ : jsstring)
    (guildId : option string) :
  NeverSaved g (this w) ->
  NeverSaved g (this (snd (removeBadWord word_ guildId w))).
Proof.
  intros Hnever. rewrite removeBadWord_outcome.
  destruct (destroy _ (store w)) as [e | [r s']]; cbn [snd this logged].
  - done.
  - unfold invalidated. by apply never_cache.
Qed.

End Preservation.

(** ** Further scenarios of the specification *)

(** Leetspeak: "y0u 4re stup1d" reads "youarestupid" after the substitution
    pass, a direct match for "stupid". *)
Example leetspeak_collapse :
  let d := detectWordWithAdvancedMatching (R := float) (str "y0u 4re stup1d")
             (str "stupid") (dec 85 100) in
  found d = true /\ method d = Direct /\ version d = str "youarestupid".
Proof. vm_compute. repeat split. Qed.

(** Reversal: "live" in the text is "evil" reversed. *)
Example reversed_evasion :
  let d := detectWordWithAdvancedMatching (R := float) (str "so live it")
             (str "evil") (dec 85 100) in
  found d = true /\ method d = Reverse /\ confidence d = dec 9 10.
Proof. vm_compute. repeat split. Qed.

(** A message without the word is clean. *)
Example hello_there_is_clean :
  let r := analyzeWith (R := float) [badwordEntry true] (str "hello there")
             SensMedium in
  isClean r = true /\ detectedWords r = [] /\ action r = Warn.
Proof. vm_compute. repeat split. Qed.

(** [null], a number and the empty string are answered without a look at
    the store. *)
Example malformed_input_is_clean :
  let options := {| opt_sensitivity := None; opt_guildId := Some "guildA" |} in
  let w := worldWith (Some "guildA") false in
  forall text, In text [VNull; VUndefined; VNumber 42; VString []] ->
    exists r,
      analyzeContent (R := float) text options t0 w = (inr r, w)
      /\ isClean r = true /\ detectedWords r = []
      /\ analysisMethod r = InputValidationFail.
Proof.
  intros options w text Hin. cbn in Hin.
  destruct Hin as [<- | [<- | [<- | [<- | []]]]]; by eexists.
Qed.

(** * Further properties of the engine *)

(** ** The cache across calls *)

Section CacheAcrossCalls.
Context {S : Type} `{StoreOps S}.

(** X1.  After a load for a guild (a non-empty id) that went to the store
    and got its rows, a second load for the same guild less than the TTL
    later returns the same list and leaves the world, call log included,
    as the first load left it. *)
Theorem second_load_served_from_cache (w : World S) (g : string)
    (t1 t2 : Z) (rows : list BadWordRow) :
  g <> "" ->
  cacheExpiry <= t1 - lastUpdateOf w (Some g) ->
  findAll (loadQuery (Some g)) (store w) = inr rows ->
  t2 - t1 < cacheExpiry ->
  let first := loadBadWords (Some g) t1 w in
  fst first = inr (map processRow rows)
  /\ calls (snd first) = calls w ++ [CallFindAll (loadQuery (Some g))]
  /\ loadBadWords (Some g) t2 (snd first) = first.
Proof.
  intros Hg Hold Hfetch Hnear first. subst first.
  rewrite (loadBadWords_expired w (Some g) t1 rows Hold Hfetch).
  cbn [fst snd calls]. split; [done |]. split; [done |].
  assert (Hkey : cacheKeyOf (Some g) = g).
  { unfold cacheKeyOf, truthy. by rewrite bool_decide_eq_false_2. }
  rewrite loadBadWords_fresh.
  - cbn [this badWordsCache]. unfold truthy.
    rewrite bool_decide_eq_false_2 by done.
    by rewrite Hkey, lookup_insert_eq.
  - unfold lastUpdateOf. cbn [this lastCacheUpdate].
    by rewrite lookup_insert_eq.
Qed.

(** X2.  Once the TTL has passed since a load that went to the store, the
    next load for the same scope goes to the store again: the two loads
    make exactly two [findAll] calls, and the second stamps the cache with
    its own time. *)
Theorem load_after_ttl_refetches (w : World S) (guildId : option string)
    (t1 t2 : Z) (rows : list BadWordRow) :
  cacheExpiry <= t1 - lastUpdateOf w guildId ->
  findAll (loadQuery guildId) (store w) = inr rows ->
  cacheExpiry <= t2 - t1 ->
  let first := loadBadWords guildId t1 w in
  let second := loadBadWords guildId t2 (snd first) in
  fst second = inr (map processRow rows)
  /\ calls (snd second)
     = calls w ++ [CallFindAll (loadQuery guildId);
                   CallFindAll (loadQuery guildId)]
  /\ lastCacheUpdate (this (snd second)) !! cacheKeyOf guildId = Some t2
  /\ badWordsCache (this (snd second)) !! cacheKeyOf guildId
     = Some (map processRow rows).
Proof.
  intros Hold Hfetch Hlate first second. subst first second.
  rewrite (loadBadWords_expired w guildId t1 rows Hold Hfetch).
  cbn [snd].
  rewrite (loadBadWords_expired _ guildId t2 rows).
  - cbn [fst snd this calls lastCacheUpdate badWordsCache].
    rewrite <- app_assoc, !lookup_insert_eq. done.
  - unfold lastUpdateOf. cbn [this lastCacheUpdate].
    by rewrite lookup_insert_eq.
  - done.
Qed.

(** X3.  [analyzeContent] returns a result for every input, whatever the
    store does; it never writes to the store, asks it at most one
    [findAll], and leaves the guild settings alone. *)
Theorem analyzeContent_store_use {R : Type} `{Number R} (text : JSValue)
    (options : Options) (now : Z) (w : World S) :
  let res := analyzeContent (R := R) text options now w in
  (exists r, fst res = inr r)
  /\ store (snd res) = store w
  /\ (calls (snd res) = calls w
      \/ calls (snd res)
         = calls w ++ [CallFindAll (loadQuery (opt_guildId options))])
  /\ settings (this (snd res)) = settings (this w)
  /\ customWords (this (snd res)) = customWords (this w).
Proof.
  cbn zeta. unfold analyzeContent.
  destruct text as [| | n | [|c s]];
    try (split; [by eexists |]; split; [done |]; split; [by left | done]).
  unfold mbind, M_bind, mret, M_ret.
  set (g := opt_guildId options).
  destruct (Z.lt_ge_cases (now - lastUpdateOf w g) cacheExpiry)
    as [Hfresh | Hold].
  - rewrite (loadBadWords_fresh w g now Hfresh). cbn [fst snd].
    split; [by eexists |]. split; [done |]. split; [by left | done].
  - destruct (findAll (loadQuery g) (store w)) as [e | rows] eqn:Hfetch.
    + rewrite (loadBadWords_failed w g now e Hold Hfetch). cbn [fst snd].
      split; [by eexists |]. split; [done |]. split; [by right | done].
    + rewrite (loadBadWords_expired w g now rows Hold Hfetch). cbn [fst snd].
      split; [by eexists |]. split; [done |]. split; [by right | done].
Qed.

(** X4.  Fail-open, seen from the caller: when the load inside
    [analyzeContent] reaches the store and the store fails, every message
    passes as clean, with no detected word, severity low and action warn. *)
Theorem store_outage_passes_everything {R : Type} `{Number R}
    (w : World S) (guildId : option string) (now : Z) (e : Error)
    (text : JSValue) (sensitivity : option Sensitivity) :
  cacheExpiry <= now - lastUpdateOf w guildId ->
  findAll (loadQuery guildId) (store w) = inl e ->
  exists r,
    fst (analyzeContent (R := R) text
           {| opt_sensitivity := sensitivity; opt_guildId := guildId |}
           now w) = inr r
    /\ isClean r = true /\ detectedWords r = [] /\ detectedDetails r = []
    /\ resultSeverity r = LOW /\ action r = Warn.
Proof.
  intros Hold Hfetch. unfold analyzeContent.
  destruct text as [| | n | [|c s]]; try (by eexists).
  unfold mbind, M_bind, mret, M_ret. cbn [opt_guildId opt_sensitivity].
  rewrite (loadBadWords_failed w guildId now e Hold Hfetch).
  by eexists.
Qed.

(** X5.  The three cache operations never touch the guild settings or the
    per-guild custom-word map. *)
Theorem cache_operations_keep_settings (w : World S) (word_ : jsstring)
    (language_ : Language) (severity_ : Severity)
    (guildId addedBy : option string) (now : Z) :
  let loaded := this (snd (loadBadWords guildId now w)) in
  let added :=
    this (snd (addBadWord word_ language_ severity_ guildId addedBy w)) in
  let removed := this (snd (removeBadWord word_ guildId w)) in
  (settings loaded = settings (this w)
   /\ customWords loaded = customWords (this w))
  /\ (settings added = settings (this w)
      /\ customWords added = customWords (this w))
  /\ (settings removed = settings (this w)
      /\ customWords removed = customWords (this w)).
Proof.
  cbn zeta. split; [| split].
  - destruct (Z.lt_ge_cases (now - lastUpdateOf w guildId) cacheExpiry)
      as [Hfresh | Hold].
    + by rewrite (loadBadWords_fresh w guildId now Hfresh).
    + destruct (findAll (loadQuery guildId) (store w)) as [e | rows] eqn:Hf.
      * by rewrite (loadBadWords_failed w guildId now e Hold Hf).
      * by rewrite (loadBadWords_expired w guildId now rows Hold Hf).
  - rewrite addBadWord_run. by destruct (create _ (store w)) as [e | [r s']].
  - rewrite removeBadWord_outcome.
    by destruct (destroy _ (store w)) as [e | [r s']].
Qed.

End CacheAcrossCalls.

(** ** Guild settings: save and look up *)

(** X6.  [getGuildSettings] after [saveGuildSettings] for the same guild
    returns what was saved; other guilds see no change; a second save for
    the guild replaces the first; the word cache is not touched. *)
Theorem saved_settings_round_trip (g g' : string) (s1 s2 : GuildSettings)
    (e : Engine) :
  getGuildSettings g (saveGuildSettings g s1 e) = s1
  /\ customWords (saveGuildSettings g s1 e) !! g = Some (settingsCustomWords s1)
  /\ (g' <> g ->
      getGuildSettings g' (saveGuildSettings g s1 e) = getGuildSettings g' e)
  /\ saveGuildSettings g s2 (saveGuildSettings g s1 e) = saveGuildSettings g s2 e
  /\ badWordsCache (saveGuildSettings g s1 e) = badWordsCache e
  /\ lastCacheUpdate (saveGuildSettings g s1 e) = lastCacheUpdate e.
Proof.
  unfold getGuildSettings, saveGuildSettings. cbn.
  rewrite !lookup_insert_eq, !insert_insert_eq.
  repeat split; try done.
  intros Hne. by rewrite lookup_insert_ne.
Qed.

(** X7.  What the saved lists mean: with an empty monitored list every
    channel is monitored, otherwise exactly the listed ones; a member is
    excluded exactly when one of the excluded roles is among the member's
    roles, so a member without roles never is. *)
Theorem saved_policy_lookups (g : string) (s : GuildSettings) (e : Engine)
    (channelId : string) (userRoles : list string) :
  let e' := saveGuildSettings g s e in
  (shouldMonitorChannel g channelId e' = true
   <-> monitoredChannels s = [] \/ channelId ∈ monitoredChannels s)
  /\ (isUserExcluded g userRoles e' = true
      <-> exists roleId, roleId ∈ excludedRoles s /\ roleId ∈ userRoles)
  /\ isUserExcluded g [] e' = false.
Proof.
  cbn zeta. unfold shouldMonitorChannel, isUserExcluded, getGuildSettings,
    saveGuildSettings. cbn. rewrite lookup_insert_eq. cbn.
  split; [| split].
  - rewrite orb_true_iff, bool_decide_eq_true, Nat.eqb_eq.
    by rewrite length_zero_iff_nil.
  - rewrite existsb_exists. split.
    + intros (r & Hr & Hin). exists r.
      apply bool_decide_eq_true in Hin. by rewrite list_elem_of_In.
    + intros (r & Hr & Hin). exists r.
      rewrite bool_decide_eq_true. by rewrite <- list_elem_of_In.
  - induction (excludedRoles s) as [|r rs IH]; [done |].
    cbn. rewrite IH. rewrite bool_decide_eq_false_2; [done |].
    apply not_elem_of_nil.
Qed.

(** ** Recommended action *)

(** X8.  The recommended action never gets milder when the severity rises
    or more words are detected (warn < delete < timeout < kick). *)
Theorem getRecommendedAction_monotone (s1 s2 : Severity) (n1 n2 : nat) :
  compareSeverity s1 s2 <= 0 -> (n1 <= n2)%nat ->
  (actionLevel (getRecommendedAction s1 n1)
   <= actionLevel (getRecommendedAction s2 n2))%nat.
Proof.
  intros Hs Hn.
  unfold compareSeverity in Hs.
  destruct s1, s2; cbn [severityLevel] in Hs; try lia;
    cbn [getRecommendedAction];
    repeat match goal with
           | |- context [(?a <? ?b)%nat] => destruct (Nat.ltb_spec a b)
           end; cbn; lia.
Qed.

Lemma getRecommendedAction_monotone_witness :
  compareSeverity MEDIUM HIGH <= 0 /\ (4 <= 5)%nat
  /\ (actionLevel (getRecommendedAction MEDIUM 4)
      <= actionLevel (getRecommendedAction HIGH 5))%nat.
Proof.
  split; [vm_compute; discriminate |]. split; [lia |].
  apply getRecommendedAction_monotone; [vm_compute; discriminate | lia].
Defined.

(** X26.  [compareSeverity] orders the severities low < medium < high:
    swapping the arguments flips the sign, the result is 0 exactly for
    equal severities, it stays within -2..2, and it is transitive. *)
Theorem compareSeverity_order (s1 s2 s3 : Severity) :
  compareSeverity s1 s2 = - compareSeverity s2 s1
  /\ (compareSeverity s1 s2 = 0 <-> s1 = s2)
  /\ -2 <= compareSeverity s1 s2 <= 2
  /\ (compareSeverity s1 s2 <= 0 -> compareSeverity s2 s3 <= 0 ->
      compareSeverity s1 s3 <= 0)
  /\ (compareSeverity LOW MEDIUM < 0 /\ compareSeverity MEDIUM HIGH < 0).
Proof.
  unfold compareSeverity.
  destruct s1, s2, s3; cbn [severityLevel];
    repeat split; try lia; try done.
Qed.

(** A guild's list is loaded from the store and asked for again a second
    later. *)
Lemma second_load_served_from_cache_witness :
  let w := worldWith (Some "guildA") true in
  let rows := [badwordRow (Some "guildA")] in
  let first := loadBadWords (Some "guildA") t0 w in
  "guildA" <> ""
  /\ cacheExpiry <= t0 - lastUpdateOf w (Some "guildA")
  /\ findAll (loadQuery (Some "guildA")) (store w) = inr rows
  /\ t0 + 1000 - t0 < cacheExpiry
  /\ fst first = inr (map processRow rows)
  /\ calls (snd first) = calls w ++ [CallFindAll (loadQuery (Some "guildA"))]
  /\ loadBadWords (Some "guildA") (t0 + 1000) (snd first) = first.
Proof.
  assert (Hg : "guildA" <> "") by discriminate.
  assert (Hold : cacheExpiry
                 <= t0 - lastUpdateOf (worldWith (Some "guildA") true)
                                      (Some "guildA"))
    by (vm_compute; discriminate).
  assert (Hfetch : findAll (loadQuery (Some "guildA"))
                     (store (worldWith (Some "guildA") true))
                   = inr [badwordRow (Some "guildA")]) by reflexivity.
  assert (Hnear : t0 + 1000 - t0 < cacheExpiry) by (vm_compute; reflexivity).
  split; [exact Hg |]. split; [exact Hold |]. split; [exact Hfetch |].
  split; [exact Hnear |].
  exact (second_load_served_from_cache (worldWith (Some "guildA") true)
           "guildA" t0 (t0 + 1000) [badwordRow (Some "guildA")]
           Hg Hold Hfetch Hnear).
Defined.

(** The same list is asked for again five minutes after the load. *)
Lemma load_after_ttl_refetches_witness :
  let w := worldWith (Some "guildA") true in
  let g := Some "guildA" in
  let rows := [badwordRow (Some "guildA")] in
  let second :=
    loadBadWords g (t0 + cacheExpiry) (snd (loadBadWords g t0 w)) in
  cacheExpiry <= t0 - lastUpdateOf w g
  /\ findAll (loadQuery g) (store w) = inr rows
  /\ cacheExpiry <= t0 + cacheExpiry - t0
  /\ fst second = inr (map processRow rows)
  /\ calls (snd second)
     = calls w ++ [CallFindAll (loadQuery g); CallFindAll (loadQuery g)]
  /\ lastCacheUpdate (this (snd second)) !! cacheKeyOf g
     = Some (t0 + cacheExpiry)
  /\ badWordsCache (this (snd second)) !! cacheKeyOf g
     = Some (map processRow rows).
Proof.
  assert (Hold : cacheExpiry
                 <= t0 - lastUpdateOf (worldWith (Some "guildA") true)
                                      (Some "guildA"))
    by (vm_compute; discriminate).
  assert (Hfetch : findAll (loadQuery (Some "guildA"))
                     (store (worldWith (Some "guildA") true))
                   = inr [badwordRow (Some "guildA")]) by reflexivity.
  assert (Hlate : cacheExpiry <= t0 + cacheExpiry - t0)
    by (vm_compute; discriminate).
  split; [exact Hold |]. split; [exact Hfetch |]. split; [exact Hlate |].
  exact (load_after_ttl_refetches (worldWith (Some "guildA") true)
           (Some "guildA") t0 (t0 + cacheExpiry)
           [badwordRow (Some "guildA")] Hold Hfetch Hlate).
Defined.

(** The store is offline five minutes after a load: a message made of the
    listed word passes as clean. *)
Lemma store_outage_passes_everything_witness :
  let w := loadedWorld "guildA" t0 false in
  let now := t0 + cacheExpiry in
  cacheExpiry <= now - lastUpdateOf w (Some "guildA")
  /\ findAll (loadQuery (Some "guildA")) (store w) = inl MemStore.down
  /\ exists r,
       fst (analyzeContent (R := float) (VString (str "badword"))
              {| opt_sensitivity := Some SensHigh;
                 opt_guildId := Some "guildA" |} now w) = inr r
       /\ isClean r = true /\ detectedWords r = [] /\ detectedDetails r = []
       /\ resultSeverity r = LOW /\ action r = Warn.
Proof.
  assert (Hold : cacheExpiry
                 <= t0 + cacheExpiry
                    - lastUpdateOf (loadedWorld "guildA" t0 false)
                        (Some "guildA"))
    by (vm_compute; discriminate).
  assert (Hfetch : findAll (loadQuery (Some "guildA"))
                     (store (loadedWorld "guildA" t0 false))
                   = inl MemStore.down) by reflexivity.
  split; [exact Hold |]. split; [exact Hfetch |].
  exact (store_outage_passes_everything (R := float)
           (loadedWorld "guildA" t0 false) (Some "guildA")
           (t0 + cacheExpiry) MemStore.down (VString (str "badword"))
           (Some SensHigh) Hold Hfetch).
Defined.

(** ** What a detection looks like *)

Section DetectionShape.
Context {R : Type} `{Number R}.

Lemma fuzzy_threshold (text target : jsstring) (threshold : R) :
  fuzzyFound (findFuzzySubstring text target threshold) = true ->
  (fuzzyConfidence (findFuzzySubstring text target threshold) >=? threshold)%num
  = true.
Proof.
  unfold findFuzzySubstring.
  set (P := fun m : FuzzyMatch R =>
              fuzzyFound m = true ->
              (fuzzyConfidence m >=? threshold)%num = true).
  assert (Hinner : forall i lens m, P m ->
            P (fold_left
                 (fun bestMatch len =>
                    if i + len >? Z.of_nat (length text) then bestMatch
                    else
                      let substring := substring text i (i + len) in
                      let similarity :=
                        calculateAdvancedSimilarity substring target in
                      if (similarity >=? threshold)%num
                         && (similarity >? fuzzyConfidence bestMatch)%num
                      then {| fuzzyFound := true;
                              fuzzyConfidence := similarity |}
                      else bestMatch) lens m)).
  { intros i lens. induction lens as [|len lens IH]; intros m Hm; [done |].
    cbn [fold_left]. apply IH.
    destruct (i + len >? _); [done |]. cbn zeta.
    destruct (_ && _) eqn:Hc; [| done].
    apply andb_prop in Hc as [Hc _]. by intros _. }
  generalize (seqZ 0 (Z.of_nat (length text) - Z.of_nat (length target) + 1)).
  intros is_.
  assert (Hinit : P {| fuzzyFound := false; fuzzyConfidence := num_ofZ 0 |})
    by done.
  revert Hinit. generalize {| fuzzyFound := false;
                              fuzzyConfidence := num_ofZ 0 (R := R) |}.
  induction is_ as [|i is_ IH]; intros m Hm; [done |].
  cbn [fold_left]. apply IH. by apply Hinner.
Qed.

(** X9.  [findFuzzySubstring] reports a match only at or above the
    threshold it was given, and never when the text is shorter than the
    target. *)
Theorem findFuzzySubstring_sound (text target : jsstring) (threshold : R) :
  let m := findFuzzySubstring text target threshold in
  (fuzzyFound m = true -> (fuzzyConfidence m >=? threshold)%num = true)
  /\ ((length text < length target)%nat ->
      m = {| fuzzyFound := false; fuzzyConfidence := num_ofZ 0 |}).
Proof.
  cbn zeta. split; [apply fuzzy_threshold |].
  intros Hshort. unfold findFuzzySubstring.
  by rewrite (seqZ_nil 0) by lia.
Qed.

Lemma matchVersion_shaped (c : R) (vs : list jsstring) (v w : jsstring)
    (best : Detection R) :
  v ∈ vs -> (2 <= length v)%nat ->
  shaped c vs best -> shaped c vs (matchVersion v w c best).
Proof.
  intros Hv Hlen Hbest. unfold matchVersion.
  set (b1 := fold_left _ _ best).
  assert (Hb1 : shaped c vs b1).
  { subst b1. generalize (List.filter (fun w0 => (1 <? length w0)%nat)
                            (splitSpaces v [] false)).
    intros ws. revert best Hbest.
    induction ws as [|x ws IH]; intros best Hbest; [done |].
    cbn [fold_left]. apply IH.
    destruct (_ >=? c)%num eqn:Hc; [| done].
    destruct (_ >? confidence best)%num; [| done].
    right. by cbn. }
  clearbody b1.
  pose proof (fuzzy_threshold v w c) as Hfz.
  destruct (fuzzyFound _ && _) eqn:Hf.
  - apply andb_prop in Hf as [Hf _]. specialize (Hfz Hf).
    set (b2 := {| found := true; confidence := _; method := Fuzzy;
                  version := v |}).
    assert (Hb2 : shaped c vs b2) by (right; by cbn).
    clearbody b2. clear Hb1.
    repeat case_match; try done; right; by cbn.
  - repeat case_match; try done; right; by cbn.
Qed.

Lemma matchVersions_shaped (c : R) (vs versions : list jsstring)
    (w : jsstring) (best : Detection R) :
  versions ⊆ vs -> shaped c vs best ->
  shaped c vs (matchVersions versions w c best).
Proof.
  revert best. induction versions as [|v rest IH]; intros best Hsub Hbest;
    [done |].
  cbn [matchVersions].
  assert (Hrest : rest ⊆ vs) by set_solver.
  assert (Hv : v ∈ vs) by set_solver.
  destruct (length v <? 2)%nat eqn:Hshort; [by apply IH |].
  apply Nat.ltb_ge in Hshort.
  destruct (includes v w).
  - right. by cbn.
  - apply IH; [done |]. by apply matchVersion_shaped.
Qed.

Lemma detect_shaped (text w : jsstring) (c : R) :
  shaped c (normalizedVariations text)
         (detectWordWithAdvancedMatching text w c).
Proof.
  unfold detectWordWithAdvancedMatching.
  apply matchVersions_shaped; [done |]. by left.
Qed.

(** X10.  Every result of [detectWordWithAdvancedMatching] is either the
    empty result (not found, confidence 0, method none) or a found one
    whose version is one of the normalized variations, at least two code
    units long, and whose confidence is what its method fixes: 1 for
    direct, 0.85 for sequence, 0.9 for reverse, and at least the threshold
    for similarity and fuzzy. *)
Theorem detection_shape (text w : jsstring) (c : R) :
  let d := detectWordWithAdvancedMatching text w c in
  (found d = false /\ d = noMatch)
  \/ (found d = true /\ version d ∈ normalizedVariations text
      /\ (2 <= length (version d))%nat
      /\ methodConfidence c (method d) (confidence d)).
Proof. apply detect_shaped. Qed.

End DetectionShape.

(** ** What an analysis records *)

Section Recorded.
Context {R : Type} `{Number R}.

(** The fold of [analyzeWith], with what it keeps true of its state. *)
Lemma analyzeWord_invariant (text : jsstring) (threshold : R)
    (P : list (DetectedWord R) -> Severity -> R -> Prop) :
  (forall ds m total wordData,
      P ds m total ->
      let d := detectWordWithAdvancedMatching text
                 (toLowerCase (word wordData)) threshold in
      found d = true -> (confidence d >=? threshold)%num = true ->
      P (ds ++ [{| d_word := word wordData; d_type := Custom;
                   d_severity := severity wordData;
                   d_confidence := confidence d; d_method := method d;
                   d_detectedVersion := version d |}])
        (if compareSeverity (severity wordData) m >? 0
         then severity wordData else m)
        (num_min (num_ofZ 1) (total + confidence d * dec 3 10)%num)) ->
  forall badWords acc,
    P acc.1.1 acc.1.2 acc.2 ->
    let out := fold_left (analyzeWord text threshold) badWords acc in
    P out.1.1 out.1.2 out.2.
Proof.
  intros Hstep badWords.
  induction badWords as [|b bs IH]; intros acc Hacc; [done |].
  cbn [fold_left]. apply IH.
  destruct acc as [[ds m] c]. unfold analyzeWord. cbn [fst snd] in *.
  destruct (found _ && _) eqn:Hc; [| done].
  apply andb_prop in Hc as [Hf Hc]. cbn [fst snd].
  by apply Hstep.
Qed.

Lemma analyzeWith_fold (badWords : list BadWordEntry) (text : jsstring)
    (sensitivity : Sensitivity) :
  let out := fold_left (analyzeWord text (confidenceThreshold sensitivity))
                       badWords ([], LOW, num_ofZ 0) in
  analyzeWith badWords text sensitivity
  = {| isClean := negb (shouldFlagContent out.1.1 out.1.2 sensitivity);
       detectedWords := map d_word out.1.1;
       detectedDetails := out.1.1;
       resultSeverity := out.1.2;
       resultConfidence := out.2;
       action := getRecommendedAction out.1.2 (length out.1.1);
       analysisMethod := AdvancedPatternMatching |}.
Proof. cbn zeta. unfold analyzeWith. by destruct (fold_left _ _ _) as [[? ?] ?]. Qed.

Lemma details_recorded (badWords : list BadWordEntry) (text : jsstring)
    (sensitivity : Sensitivity) :
  Forall (recorded (confidenceThreshold sensitivity))
         (detectedDetails (analyzeWith badWords text sensitivity)).
Proof.
  rewrite analyzeWith_fold. cbn [detectedDetails].
  apply (analyzeWord_invariant text (confidenceThreshold sensitivity)
           (fun ds _ _ => Forall (recorded (confidenceThreshold sensitivity)) ds));
    [| by apply Forall_nil].
  intros ds m total wordData Hds det Hf Hc.
  apply Forall_app. split; [done |]. apply Forall_singleton.
  unfold recorded. cbn [d_confidence d_type d_method].
  split; [done |]. split; [done |].
  destruct (detect_shaped text (toLowerCase (word wordData))
              (confidenceThreshold sensitivity))
    as [[Hnf _] | (_ & _ & _ & Hm)]; [| done].
  subst det. congruence.
Qed.

Lemma details_severity (badWords : list BadWordEntry) (text : jsstring)
    (sensitivity : Sensitivity) :
  highestSeverity (detectedDetails (analyzeWith badWords text sensitivity))
                  (resultSeverity (analyzeWith badWords text sensitivity)).
Proof.
  rewrite analyzeWith_fold. cbn [detectedDetails resultSeverity].
  apply (analyzeWord_invariant text (confidenceThreshold sensitivity)
           (fun ds m _ => highestSeverity ds m)).
  - intros ds m total wordData (Hnil & Hex & Hall) det _ _.
    split; [| split].
    + intros Habs. by apply app_eq_nil in Habs as [_ ?].
    + intros _. destruct (Z.gtb_spec (compareSeverity (severity wordData) m) 0)
        as [Hgt | Hle].
      * eexists. split; [apply elem_of_app; right; apply list_elem_of_here |].
        done.
      * destruct ds as [|d0 ds0].
        -- rewrite (Hnil eq_refl) in Hle |- *.
           eexists. split; [apply list_elem_of_here |]. cbn.
           unfold compareSeverity in Hle.
           destruct (severity wordData); cbn in Hle; try done; lia.
        -- destruct (Hex ltac:(done)) as (d & Hd & Hm).
           exists d. split; [by apply elem_of_app; left | done].
    + intros d [Hd | Hd]%elem_of_app.
      * specialize (Hall d Hd). unfold compareSeverity in *.
        destruct (Z.gtb_spec (severityLevel (severity wordData)
                              - severityLevel m) 0); lia.
      * apply list_elem_of_singleton in Hd. subst d. cbn.
        unfold compareSeverity in *.
        destruct (Z.gtb_spec (severityLevel (severity wordData)
                              - severityLevel m) 0); lia.
  - split; [done |]. split; [done |].
    intros d Hd. by apply elem_of_nil in Hd.
Qed.

(** X11.  Every detection [analyzeContent] records is of type custom, has
    a confidence at or above the threshold of the sensitivity, and carries
    the confidence its method fixes (so its method is never none). *)
Theorem recorded_detections_meet_threshold (badWords : list BadWordEntry)
    (text : jsstring) (sensitivity : Sensitivity) :
  Forall (fun d =>
            (d_confidence d >=? confidenceThreshold sensitivity)%num = true
            /\ d_type d = Custom /\ d_method d <> MethodNone
            /\ methodConfidence (confidenceThreshold sensitivity)
                                (d_method d) (d_confidence d))
         (detectedDetails (analyzeWith badWords text sensitivity)).
Proof.
  eapply Forall_impl; [apply details_recorded |].
  intros d (Hc & Ht & Hm). cbn beta.
  split; [done |]. split; [done |]. split; [| done].
  intros Hnone. by rewrite Hnone in Hm.
Qed.

(** X12.  The detected words are a selection, in order, of the words of
    the loaded list: nothing is reported that is not on the list, and no
    list entry is reported twice. *)
Theorem detected_words_from_list (badWords : list BadWordEntry)
    (text : jsstring) (sensitivity : Sensitivity) :
  let r := analyzeWith badWords text sensitivity in
  detectedWords r `sublist_of` map word badWords
  /\ detectedWords r = map d_word (detectedDetails r)
  /\ (length (detectedWords r) <= length badWords)%nat.
Proof.
  cbn zeta. unfold analyzeWith.
  assert (Hone : forall acc b,
            let st := analyzeWord text (confidenceThreshold sensitivity) acc b in
            st.1.1 = acc.1.1
            \/ exists x, d_word x = word b /\ st.1.1 = acc.1.1 ++ [x]).
  { intros [[ds m] c] b. unfold analyzeWord.
    destruct (found _ && _); [right | by left].
    eexists. split; [| reflexivity]. done. }
  assert (Hgen : forall bw acc,
            let out := fold_left
                         (analyzeWord text (confidenceThreshold sensitivity))
                         bw acc in
            exists extra, out.1.1 = acc.1.1 ++ extra
                          /\ map d_word extra `sublist_of` map word bw).
  { induction bw as [|b bs IH]; intros acc.
    - exists []. by rewrite app_nil_r.
    - cbn [fold_left].
      destruct (IH (analyzeWord text (confidenceThreshold sensitivity) acc b))
        as (extra & Hout & Hsub).
      cbn zeta. rewrite Hout.
      destruct (Hone acc b) as [-> | (x & Hx & ->)].
      + exists extra. split; [done |]. cbn [List.map]. apply sublist_cons, Hsub.
      + exists (x :: extra). split; [by rewrite <- app_assoc |].
        cbn [List.map]. rewrite Hx. apply sublist_skip, Hsub. }
  destruct (Hgen badWords ([], LOW, num_ofZ 0)) as (extra & Hout & Hsub).
  cbn zeta in Hout.
  destruct (fold_left _ badWords _) as [[ds m] c]. cbn in Hout |- *.
  subst ds. split; [done |]. split; [done |].
  apply sublist_length in Hsub. rewrite !List.length_map in Hsub.
  rewrite List.length_map. lia.
Qed.

(** X13.  The severity of a result is the highest severity among its
    detections: low when there is none, otherwise the severity of one of
    them and no lower than any of them. *)
Theorem result_severity_is_maximum (badWords : list BadWordEntry)
    (text : jsstring) (sensitivity : Sensitivity) :
  let r := analyzeWith badWords text sensitivity in
  (detectedDetails r = [] -> resultSeverity r = LOW)
  /\ (detectedDetails r <> [] ->
      exists d, d ∈ detectedDetails r /\ d_severity d = resultSeverity r)
  /\ (forall d, d ∈ detectedDetails r ->
      compareSeverity (d_severity d) (resultSeverity r) <= 0).
Proof. apply details_severity. Qed.

(** X14.  An analysis flags only what it detected: a result that is not
    clean has a detection, its action is the one [getRecommendedAction]
    gives for its severity and number of detections, and under high
    sensitivity every result with a detection is flagged. *)
Theorem flagged_needs_detection (badWords : list BadWordEntry)
    (text : jsstring) (sensitivity : Sensitivity) :
  let r := analyzeWith badWords text sensitivity in
  (isClean r = false -> detectedDetails r <> [])
  /\ action r = getRecommendedAction (resultSeverity r)
                                     (length (detectedDetails r))
  /\ (sensitivity = SensHigh ->
      (isClean r = false <-> detectedDetails r <> [])).
Proof.
  cbn zeta. rewrite analyzeWith_fold.
  cbn [isClean detectedDetails action resultSeverity].
  set (out := fold_left _ _ _). split; [| split]; [| done |].
  - intros Hflag Hnil. rewrite Hnil in Hflag. by rewrite flag_empty in Hflag.
  - intros ->. rewrite negb_false_iff. apply flag_high_iff.
Qed.

End Recorded.

(** X15.  Under low sensitivity the threshold 0.98 is above the fixed
    confidences of the sequence (0.85) and reverse (0.9) matchers: with
    JavaScript numbers every recorded detection is a direct, similarity or
    fuzzy one. *)
Theorem low_sensitivity_methods (badWords : list BadWordEntry)
    (text : jsstring) :
  Forall (fun d => d_method d = Direct \/ d_method d = Similarity
                   \/ d_method d = Fuzzy)
         (detectedDetails (analyzeWith (R := float) badWords text SensLow)).
Proof.
  eapply Forall_impl; [apply details_recorded |].
  intros d (Hc & _ & Hm). cbn beta.
  destruct (d_method d); cbn in Hm; try tauto.
  - rewrite Hm in Hc. by vm_compute in Hc.
  - rewrite Hm in Hc. by vm_compute in Hc.
Qed.

(** ** Code units that normalization removes *)

Lemma bump_Some (r : option (jsstring * nat)) (caps : jsstring) (n : nat) :
  bump r = Some (caps, n) -> exists n', r = Some (caps, n') /\ n = S n'.
Proof.
  destruct r as [[caps' n'] |]; [| done].
  cbn. intros [= -> <-]. by eexists.
Qed.

(** Captures are code units of the input. *)
Lemma matchItems_captures (its : pattern) :
  forall (prev : option N) (s caps caps' : jsstring) (n : nat),
    matchItems its prev s caps = Some (caps', n) ->
    forall c, c ∈ caps' -> c ∈ caps \/ c ∈ s.
Proof.
  induction its as [|it r IH]; intros prev s caps caps' n Hm c Hc.
  - cbn in Hm. injection Hm as <- <-. by left.
  - destruct it as [p | p | p min | min |]; cbn [matchItems] in Hm.
    + destruct s as [|a s']; [done |].
      destruct (p a); [| done].
      apply bump_Some in Hm as (n' & Hm & _).
      destruct (IH _ _ _ _ _ Hm c Hc) as [? | ?]; [by left |].
      right. by apply elem_of_cons; right.
    + destruct s as [|a s']; [done |].
      destruct (p a); [| done].
      apply bump_Some in Hm as (n' & Hm & _).
      destruct (IH _ _ _ _ _ Hm c Hc) as [Hin | ?].
      * apply elem_of_app in Hin as [? | Hin]; [by left |].
        apply list_elem_of_singleton in Hin. subst c.
        right. apply list_elem_of_here.
      * right. by apply elem_of_cons; right.
    + revert min prev n Hm.
      induction s as [|a s' IHs]; intros min prev n Hm.
      * destruct min; [| done]. exact (IH _ _ _ _ _ Hm c Hc).
      * destruct (p a).
        -- destruct (bump _) as [[caps1 n1] |] eqn:Hrun.
           ++ injection Hm as -> ->.
              apply bump_Some in Hrun as (n' & Hrun & _).
              destruct (IHs _ _ _ Hrun) as [? | ?]; [by left |].
              right. by apply elem_of_cons; right.
           ++ destruct min; [| done]. exact (IH _ _ _ _ _ Hm c Hc).
        -- destruct min; [| done]. exact (IH _ _ _ _ _ Hm c Hc).
    + revert min prev n Hm.
      induction s as [|a s' IHs]; intros min prev n Hm.
      * destruct min; [| done]. exact (IH _ _ _ _ _ Hm c Hc).
      * destruct (match caps with
                  | [] => false
                  | g :: _ => (a =? g)%N
                  end).
        -- destruct (bump _) as [[caps1 n1] |] eqn:Hrun.
           ++ injection Hm as -> ->.
              apply bump_Some in Hrun as (n' & Hrun & _).
              destruct (IHs _ _ _ Hrun) as [? | ?]; [by left |].
              right. by apply elem_of_cons; right.
           ++ destruct min; [| done]. exact (IH _ _ _ _ _ Hm c Hc).
        -- destruct min; [| done]. exact (IH _ _ _ _ _ Hm c Hc).
    + destruct (xorb _ _); [| done]. exact (IH _ _ _ _ _ Hm c Hc).
Qed.

Lemma expand_avoids (x : N) (its : pattern) (tpl : list piece)
    (caps : jsstring) :
  templateAvoids x its tpl = true -> x ∉ caps -> x ∉ expand its tpl caps.
Proof.
  intros Htpl Hcaps. unfold expand, templateAvoids in *.
  induction tpl as [|p tpl IH]; cbn; [apply not_elem_of_nil |].
  cbn in Htpl. apply andb_prop in Htpl as [Hp Htpl].
  apply not_elem_of_app. split; [| by apply IH].
  destruct p as [n | s]; cbn in *.
  - destruct (n <=? groups its)%nat.
    + destruct (caps !! Nat.pred n) as [c |] eqn:Hc; [| apply not_elem_of_nil].
      intros Hx. apply list_elem_of_singleton in Hx. subst c.
      apply Hcaps. by eapply list_elem_of_lookup_2.
    + cbn in Hp. apply andb_prop in Hp as [H36 H48].
      apply negb_true_iff, N.eqb_neq in H36, H48.
      intros Hx. apply elem_of_cons in Hx as [-> | Hx]; [done |].
      apply list_elem_of_singleton in Hx. done.
  - apply negb_true_iff in Hp. by apply bool_decide_eq_false in Hp.
Qed.

(** A global replace cannot bring in a code unit that neither the text nor
    the replacement template holds. *)
Lemma replaceFrom_avoids (x : N) (its : pattern) (tpl : list piece) :
  templateAvoids x its tpl = true ->
  forall (s : jsstring) (skip : nat) (prev : option N),
    x ∉ s -> x ∉ replaceFrom its tpl skip prev s.
Proof.
  intros Htpl. induction s as [|c s' IH]; intros skip prev Hs.
  - cbn. destruct skip; [| apply not_elem_of_nil].
    destruct (matchItems its prev [] []) as [[caps n] |] eqn:Hm;
      [| apply not_elem_of_nil].
    apply expand_avoids; [done |].
    intros Hx. destruct (matchItems_captures _ _ _ _ _ _ Hm x Hx) as [H | H];
      by apply elem_of_nil in H.
  - apply not_elem_of_cons in Hs as [Hc Hs'].
    cbn [replaceFrom]. destruct skip as [|k]; [| by apply IH].
    destruct (matchItems its prev (c :: s') []) as [[caps [|n]] |] eqn:Hm.
    + apply not_elem_of_app. split.
      * apply expand_avoids; [done |].
        intros Hx.
        destruct (matchItems_captures _ _ _ _ _ _ Hm x Hx) as [H | H];
          [by apply elem_of_nil in H |].
        apply elem_of_cons in H as [-> | H]; done.
      * apply not_elem_of_cons. split; [done | by apply IH].
    + apply not_elem_of_app. split; [| by apply IH].
      apply expand_avoids; [done |].
      intros Hx.
      destruct (matchItems_captures _ _ _ _ _ _ Hm x Hx) as [H | H];
        [by apply elem_of_nil in H |].
      apply elem_of_cons in H as [-> | H]; done.
    + apply not_elem_of_cons. split; [done | by apply IH].
Qed.

Lemma replaceAll_avoids (x : N) (its : pattern) (tpl : list piece)
    (s : jsstring) :
  templateAvoids x its tpl = true -> x ∉ s -> x ∉ replaceAll its tpl s.
Proof. intros Htpl Hs. by apply replaceFrom_avoids. Qed.

(** Replacing every code unit of a class by text without [x] removes [x]
    when [x] is in the class. *)
Lemma replaceFrom_drops (x : N) (p : N -> bool) (r : jsstring) :
  p x = true -> x ∉ r ->
  forall (s : jsstring) (prev : option N),
    x ∉ replaceFrom [One p] [Lit r] 0 prev s.
Proof.
  intros Hp Hr. induction s as [|c s' IH]; intros prev.
  - cbn. apply not_elem_of_nil.
  - cbn [replaceFrom matchItems]. destruct (p c) eqn:Hc; cbn.
    + rewrite app_nil_r. apply not_elem_of_app. split; [done | apply IH].
    + apply not_elem_of_cons. split; [congruence | apply IH].
Qed.

Lemma substituteAll_avoids (x : N) (table : list (jsstring * list jsstring)) :
  tableAvoids x table = true ->
  forall s, x ∉ s -> x ∉ substituteAll table s.
Proof.
  unfold substituteAll.
  induction table as [|[k rs] rest IH]; intros Htab s Hs; [done |].
  cbn in Htab. apply andb_prop in Htab as [Hrs Hrest].
  cbn [fold_left]. apply IH; [done |].
  clear IH Hrest. revert s Hs.
  induction rs as [|r rs IHr]; intros s Hs; [done |].
  cbn in Hrs. apply andb_prop in Hrs as [Hr Hrs].
  cbn [fold_left]. apply IHr; [done |].
  apply replaceAll_avoids; [| done].
  cbn. by rewrite Hr.
Qed.

Lemma substituteAll_drops (x : N) (table : list (jsstring * list jsstring)) :
  tableDrops x table = true -> forall s, x ∉ substituteAll table s.
Proof.
  induction table as [|[k rs] rest IH]; intros Hdrop s; [done |].
  cbn [tableDrops] in Hdrop.
  apply orb_prop in Hdrop as [Hhere | Hlater].
  - apply andb_prop in Hhere as [Hk Havoid].
    apply andb_prop in Hk as [Hk Hrs].
    apply bool_decide_eq_true in Hk. subst k.
    destruct rs as [|r rs]; [done |].
    pose proof Havoid as Havoid'.
    cbn in Havoid. apply andb_prop in Havoid as [Hrrs Hrest].
    apply andb_prop in Hrrs as [Hr Hrs'].
    change (substituteAll (([x], r :: rs) :: rest) s)
      with (substituteAll (([x], rs) :: rest)
              (replaceAll (escapeRegex [x]) [Lit r] s)).
    apply substituteAll_avoids.
    + cbn. by rewrite Hrs', Hrest.
    + apply replaceFrom_drops; [apply N.eqb_refl |].
      apply negb_true_iff in Hr. by apply bool_decide_eq_false in Hr.
  - unfold substituteAll. cbn [fold_left]. apply IH. done.
Qed.

Lemma collapseBypass_avoids (x : N) (patterns : list pattern) :
  forallb (fun its => templateAvoids x its [Grp 1; Grp 2]) patterns = true ->
  forall s, x ∉ s -> x ∉ collapseBypass patterns s.
Proof.
  unfold collapseBypass.
  induction patterns as [|its rest IH]; intros Hp s Hs; [done |].
  cbn [forallb] in Hp. apply andb_prop in Hp as [Hits Hrest].
  cbn [fold_left]. apply IH; [done |]. by apply replaceAll_avoids.
Qed.

Lemma foldPhonetic_avoids (x : N) (table : list (jsstring * list jsstring)) :
  forallb (fun '(original, _) => negb (bool_decide (x ∈ original))) table
  = true ->
  forall s, x ∉ s -> x ∉ foldPhonetic table s.
Proof.
  unfold foldPhonetic.
  induction table as [|[k rs] rest IH]; intros Htab s Hs; [done |].
  cbn [forallb] in Htab. apply andb_prop in Htab as [Hk Hrest].
  cbn [fold_left]. apply IH; [done |].
  clear IH Hrest. revert s Hs.
  induction rs as [|r rs IHr]; intros s Hs; [done |].
  cbn [fold_left]. apply IHr.
  apply replaceAll_avoids; [| done].
  cbn. by rewrite Hk.
Qed.

Lemma deepNormalizeText_avoids (x : N) (text v : jsstring) :
  normalizationDrops x = true -> v ∈ deepNormalizeText text -> x ∉ v.
Proof.
  intros Hdrops Hv. unfold normalizationDrops in Hdrops.
  apply andb_prop in Hdrops as [Hdrops Hphon].
  apply andb_prop in Hdrops as [Hsub Hbyp].
  unfold deepNormalizeText in Hv.
  apply list_elem_of_In, filter_In in Hv as [Hv _].
  set (s0 := trim _) in Hv.
  change (fold_left _ buildSubstitutionMap s0)
    with (substituteAll buildSubstitutionMap s0) in Hv.
  set (s1 := substituteAll _ s0) in Hv.
  change (fold_left _ buildBypassPatterns s1)
    with (collapseBypass buildBypassPatterns s1) in Hv.
  set (s2 := collapseBypass _ s1) in Hv.
  assert (H2 : x ∉ s2).
  { apply collapseBypass_avoids; [done |]. by apply substituteAll_drops. }
  set (letters := replaceAll _ [] s2) in Hv.
  assert (Hl : x ∉ letters) by (by apply replaceAll_avoids).
  cbn [In] in Hv.
  destruct Hv as [<- | [<- | [<- | [<- | [<- | []]]]]]; try done.
  - by apply replaceAll_avoids.
  - by apply replaceAll_avoids.
  - by apply foldPhonetic_avoids.
Qed.

(** *** Transliteration *)

Ltac bools_to_props :=
  repeat match goal with
         | H : _ && _ = true |- _ => apply andb_prop in H as [? ?]
         | H : _ || _ = true |- _ => apply orb_prop in H as [? | ?]
         | H : negb _ = true |- _ => apply negb_true_iff in H
         | H : _ && _ = false |- _ => apply andb_false_iff in H as [? | ?]
         | H : _ || _ = false |- _ => apply orb_false_iff in H as [? ?]
         | H : negb _ = false |- _ => apply negb_false_iff in H
         | H : (_ <=? _)%N = true |- _ => apply N.leb_le in H
         | H : (_ =? _)%N = true |- _ => apply N.eqb_eq in H
         | H : (_ <=? _)%N = false |- _ => apply N.leb_gt in H
         | H : (_ =? _)%N = false |- _ => apply N.eqb_neq in H
         end.

Lemma lowerUnit_not_upper (c : N) : isUpperAscii (lowerUnit c) = false.
Proof.
  unfold lowerUnit, isUpperAscii, inRange.
  repeat case_match; bools_to_props;
    apply andb_false_iff; rewrite !N.leb_gt; lia.
Qed.

Lemma toLowerCase_not_upper (s : jsstring) (x : N) :
  isUpperAscii x = true -> x ∉ toLowerCase s.
Proof.
  intros Hx Hin. unfold toLowerCase in Hin.
  apply list_elem_of_In, in_map_iff in Hin as (c & <- & _).
  by rewrite lowerUnit_not_upper in Hx.
Qed.

Lemma transliterateLetters_avoids (x : N) (table : list (jsstring * jsstring)) :
  forallb (fun '(_, g) => negb (bool_decide (x ∈ g))) table = true ->
  forall s, x ∉ s -> x ∉ transliterateLetters table s.
Proof.
  unfold transliterateLetters.
  induction table as [|[q g] rest IH]; intros Htab s Hs; [done |].
  cbn [forallb] in Htab. apply andb_prop in Htab as [Hg Hrest].
  cbn [fold_left]. apply IH; [done |].
  apply replaceAll_avoids; [| done]. cbn. by rewrite Hg.
Qed.

Lemma transliterateLetters_drops (x : N) (table : list (jsstring * jsstring)) :
  lettersDrop x table = true -> forall s, x ∉ transliterateLetters table s.
Proof.
  induction table as [|[q g] rest IH]; intros Hdrop s; [done |].
  cbn [lettersDrop] in Hdrop.
  apply orb_prop in Hdrop as [Hhere | Hlater].
  - apply andb_prop in Hhere as [Hq Havoid].
    apply bool_decide_eq_true in Hq. subst q.
    cbn [forallb] in Havoid. apply andb_prop in Havoid as [Hg Hrest].
    change (transliterateLetters (([x], g) :: rest) s)
      with (transliterateLetters rest
              (replaceAll (literalNoCase [x]) [Lit g] s)).
    apply transliterateLetters_avoids; [done |].
    apply replaceFrom_drops.
    + by rewrite N.eqb_refl.
    + apply negb_true_iff in Hg. by apply bool_decide_eq_false in Hg.
  - unfold transliterateLetters. cbn [fold_left]. by apply IH.
Qed.

(** A word-boundary pattern that starts on a class finds nothing in a text
    without a code unit of that class. *)
Lemma replaceFrom_no_match (p : N -> bool) (rest : pattern)
    (tpl : list piece) :
  forall (s : jsstring) (prev : option N),
    (forall c, c ∈ s -> p c = false) ->
    replaceFrom (WordB :: One p :: rest) tpl 0 prev s = s.
Proof.
  induction s as [|c s' IH]; intros prev Hs.
  - cbn. by destruct (xorb _ _).
  - cbn [replaceFrom matchItems].
    rewrite (Hs c) by apply list_elem_of_here.
    destruct (xorb _ _); f_equal; apply IH;
      intros c' Hc'; apply Hs; by apply elem_of_cons; right.
Qed.

Lemma noCase_letter (c0 c : N) :
  isAsciiLetter c0 = true -> isAsciiLetter c = false ->
  (c =? c0)%N || (upperAsciiUnit c =? upperAsciiUnit c0)%N = false.
Proof.
  unfold isAsciiLetter, upperAsciiUnit, isUpperAscii, isLowerAscii, inRange.
  intros H0 Hc.
  repeat case_match; bools_to_props;
    apply orb_false_iff; split; apply N.eqb_neq; lia.
Qed.

Lemma transliterateWords_id (table : list (jsstring * list jsstring))
    (s : jsstring) :
  forallb (fun '(latin, _) => match latin with
                              | c0 :: _ => isAsciiLetter c0
                              | [] => false
                              end) table = true ->
  (forall c, c ∈ s -> isAsciiLetter c = false) ->
  transliterateWords table s = s.
Proof.
  intros Htab Hs. unfold transliterateWords.
  induction table as [|[latin gs] rest IH]; [done |].
  cbn [forallb] in Htab. apply andb_prop in Htab as [Hl Hrest].
  cbn [fold_left].
  assert (Hinner : fold_left
                     (fun converted georgian =>
                        let regex := [WordB] ++ literalNoCase latin ++ [WordB] in
                        replaceAll regex [Lit georgian] converted) gs s = s).
  { clear IH. induction gs as [|g gs IHg]; [done |].
    cbn [fold_left]. rewrite <- IHg at 2. f_equal.
    destruct latin as [|c0 latin]; [done |].
    apply replaceFrom_no_match.
    intros c Hc. apply noCase_letter; [done | by apply Hs]. }
  etransitivity; [| exact (IH Hrest)]. f_equal. exact Hinner.
Qed.

Lemma lower_letter_cases (x : N) :
  isLowerAscii x = true -> x ∈ map N.of_nat (seq 97 26).
Proof.
  unfold isLowerAscii, inRange. intros [?%N.leb_le ?%N.leb_le]%andb_prop.
  apply list_elem_of_In, in_map_iff. exists (N.to_nat x).
  split; [lia |]. apply in_seq. lia.
Qed.

Lemma letters_transliterated (s : jsstring) (x : N) :
  isAsciiLetter x = true ->
  x ∉ transliterateLetters georgianQwertyMap (toLowerCase s).
Proof.
  unfold isAsciiLetter. intros [Hu | Hl]%orb_prop.
  - apply transliterateLetters_avoids.
    + assert (Hall : forallb
                (fun x => forallb (fun '(_, g) => negb (bool_decide (x ∈ g)))
                                  georgianQwertyMap)
                (map N.of_nat (seq 65 26)) = true) by (vm_compute; reflexivity).
      rewrite forallb_forall in Hall. apply Hall.
      unfold isUpperAscii, inRange in Hu.
      apply andb_prop in Hu as [?%N.leb_le ?%N.leb_le].
      apply in_map_iff. exists (N.to_nat x). split; [lia |].
      apply in_seq. lia.
    + by apply toLowerCase_not_upper.
  - apply transliterateLetters_drops.
    assert (Hall : forallb (fun x => lettersDrop x georgianQwertyMap)
                     (map N.of_nat (seq 97 26)) = true)
      by (vm_compute; reflexivity).
    rewrite forallb_forall in Hall. apply Hall.
    by apply list_elem_of_In, lower_letter_cases.
Qed.

Lemma includes_elem (s t : jsstring) :
  includes s t = true -> forall c, c ∈ t -> c ∈ s.
Proof.
  assert (Hstarts : forall s t, startsWith s t = true ->
                                forall c, c ∈ t -> c ∈ s).
  { clear. induction s as [|a s IH]; intros [|b t] Hst c Hc;
      try (by apply elem_of_nil in Hc); [done |].
    cbn in Hst. apply andb_prop in Hst as [Hab Hst].
    apply N.eqb_eq in Hab. subst b.
    apply elem_of_cons in Hc as [-> | Hc]; [apply list_elem_of_here |].
    apply elem_of_cons; right. by eapply IH. }
  induction s as [|a s IH]; intros Hinc c Hc.
  - cbn in Hinc. rewrite orb_false_r in Hinc. by eapply Hstarts.
  - cbn [includes] in Hinc. apply orb_prop in Hinc as [Hst | Hinc].
    + by eapply Hstarts.
    + apply elem_of_cons; right. by apply IH.
Qed.

Lemma variation_avoids (x : N) (text v : jsstring) :
  normalizationDrops x = true -> isAsciiLetter x = true ->
  v ∈ normalizedVariations text -> x ∉ v.
Proof.
  intros Hdrops Hletter Hv. unfold normalizedVariations in Hv.
  apply elem_of_app in Hv as [Hv | Hv];
    [by eapply deepNormalizeText_avoids |].
  apply elem_of_app in Hv as [Hv | Hv];
    [| by eapply deepNormalizeText_avoids].
  apply list_elem_of_singleton in Hv. subst v.
  unfold convertQwertyToGeorgian.
  change (fold_left _ georgianPatterns ?s)
    with (transliterateWords georgianPatterns s).
  change (fold_left _ georgianQwertyMap ?s)
    with (transliterateLetters georgianQwertyMap s).
  rewrite transliterateWords_id.
  - by apply letters_transliterated.
  - reflexivity.
  - intros c Hc. destruct (isAsciiLetter c) eqn:Hl; [| done].
    by apply letters_transliterated in Hc.
Qed.

(** X16.  The whole-word dictionary of [convertQwertyToGeorgian] never
    fires: the letter pass before it leaves no Latin letter for its
    patterns to start on.  The result is the letter pass applied to the
    lowercased text, and it holds no Latin letter. *)
Theorem transliteration_leaves_no_latin (text : jsstring) :
  convertQwertyToGeorgian text
  = transliterateLetters georgianQwertyMap (toLowerCase text)
  /\ forall c, c ∈ convertQwertyToGeorgian text -> isAsciiLetter c = false.
Proof.
  assert (Hclean : forall c,
            c ∈ transliterateLetters georgianQwertyMap (toLowerCase text) ->
            isAsciiLetter c = false).
  { intros c Hc. destruct (isAsciiLetter c) eqn:Hl; [| done].
    by apply letters_transliterated in Hc. }
  assert (Heq : convertQwertyToGeorgian text
                = transliterateLetters georgianQwertyMap (toLowerCase text)).
  { unfold convertQwertyToGeorgian.
    change (fold_left _ georgianPatterns ?s)
      with (transliterateWords georgianPatterns s).
    change (fold_left _ georgianQwertyMap ?s)
      with (transliterateLetters georgianQwertyMap s).
    by apply transliterateWords_id. }
  split; [exact Heq |]. by rewrite Heq.
Qed.

(** X17.  No variation the matcher looks at holds the letter w or the
    letter m: the substitution table rewrites them to vv and rn, and
    nothing after it writes them back. *)
Theorem variations_without_w_and_m (text v : jsstring) :
  v ∈ normalizedVariations text -> (119%N ∉ v) /\ (109%N ∉ v).
Proof.
  intros Hv. split; by eapply variation_avoids.
Qed.

(** X18.  A target word that holds the letter w or m never gets a direct
    match, whatever the text. *)
Theorem w_or_m_never_direct {R : Type} `{Number R} (text target : jsstring)
    (c : R) :
  119%N ∈ target \/ 109%N ∈ target ->
  method (detectWordWithAdvancedMatching text target c) <> Direct.
Proof.
  intros Hwm Hdirect.
  apply direct_only_on_variation in Hdirect as (v & Hv & _ & Hinc).
  destruct Hwm as [Hx | Hx];
    apply (includes_elem _ _ Hinc) in Hx;
    by eapply variation_avoids in Hx.
Qed.

Lemma w_or_m_never_direct_witness :
  (119%N ∈ str "badword" \/ 109%N ∈ str "badword")
  /\ method (detectWordWithAdvancedMatching (R := float)
               (str "this is a badword message") (str "badword")
               (dec 85 100)) <> Direct.
Proof.
  assert (Hw : 119%N ∈ str "badword" \/ 109%N ∈ str "badword").
  { left. vm_compute. do 3 apply list_elem_of_further.
    apply list_elem_of_here. }
  split; [exact Hw |]. by apply w_or_m_never_direct.
Defined.

Lemma variations_without_w_and_m_witness :
  str "thisisa badvvordrnessage"
    ∈ normalizedVariations (str "this is a badword message")
  /\ (119%N ∉ str "thisisa badvvordrnessage")
  /\ (109%N ∉ str "thisisa badvvordrnessage").
Proof.
  assert (Hv : str "thisisa badvvordrnessage"
               ∈ normalizedVariations (str "this is a badword message")).
  { vm_compute. apply list_elem_of_here. }
  split; [exact Hv |]. by apply variations_without_w_and_m in Hv.
Defined.

(** ** Bounds of the similarity algorithms *)


Lemma levenshteinRow_bounded (str1 : jsstring) (c2 : N) (above : list nat)
    (i : nat) :
  length above = S (length str1) ->
  rowBounded i above ->
  length (levenshteinRow str1 c2 above) = S (length str1)
  /\ rowBounded (S i) (levenshteinRow str1 c2 above).
Proof.
  intros Hlen Habove. unfold levenshteinRow.
  destruct above as [|a0 above']; [done |].
  cbn in Hlen. injection Hlen as Hlen.
  assert (Ha0 : (a0 <= i)%nat).
  { specialize (Habove O a0 eq_refl). lia. }
  assert (Hups : forall j v, above' !! j = Some v ->
                             (v <= Nat.max i (S j))%nat).
  { intros j v Hj. exact (Habove (S j) v Hj). }
  clear Habove.
  set (fill := fix fill (s1 : jsstring) (diag left : nat) (ups : list nat)
                 {struct s1} : list nat := _).
  assert (Hfill : forall s1 ups k diag left,
            length ups = length s1 ->
            (diag <= Nat.max i k)%nat ->
            (left <= Nat.max (S i) k)%nat ->
            (forall j v, ups !! j = Some v ->
                         (v <= Nat.max i (S k + j))%nat) ->
            length (fill s1 diag left ups) = length s1
            /\ forall j v, fill s1 diag left ups !! j = Some v ->
                           (v <= Nat.max (S i) (S k + j))%nat).
  { induction s1 as [|c1 s1 IH]; intros ups k diag left Hl Hd Hleft Hu.
    - destruct ups; [| done]. split; [done |]. intros j v Hj. done.
    - destruct ups as [|up ups]; [done |]. cbn in Hl. injection Hl as Hl.
      cbn [fill]. fold fill.
      set (cell := if (c2 =? c1)%N then diag else _).
      assert (Hup : (up <= Nat.max i (S k))%nat).
      { specialize (Hu O up eq_refl). by rewrite Nat.add_0_r in Hu. }
      assert (Hcell : (cell <= Nat.max (S i) (S k))%nat).
      { subst cell. destruct (c2 =? c1)%N; lia. }
      destruct (IH ups (S k) up cell Hl) as [IHlen IHb].
      + done.
      + done.
      + intros j v Hj. specialize (Hu (S j) v Hj).
        replace (S (S k) + j)%nat
          with (S k + S j)%nat by lia. done.
      + split; [cbn; by rewrite IHlen |].
        intros [|j] v Hj.
        * cbn in Hj. injection Hj as <-. by rewrite Nat.add_0_r.
        * cbn in Hj. specialize (IHb j v Hj).
          replace (S k + S j)%nat
            with (S (S k) + j)%nat by lia. done. }
  destruct (Hfill str1 above' O a0 (S a0)) as [Hfl Hfb];
    [done | lia | lia | |].
  { intros j v Hj. by apply Hups. }
  split; [cbn; by rewrite Hfl |].
  intros [|j] v Hj.
  - cbn in Hj. injection Hj as <-. lia.
  - cbn in Hj. exact (Hfb j v Hj).
Qed.

Lemma levenshtein_rows (str1 str2 : jsstring) (row : list nat) (i : nat) :
  length row = S (length str1) -> rowBounded i row ->
  let out := fold_left (fun above c2 => levenshteinRow str1 c2 above)
                       str2 row in
  length out = S (length str1)
  /\ rowBounded (i + length str2) out.
Proof.
  revert row i. induction str2 as [|c2 str2 IH]; intros row i Hlen Hb.
  - cbn. by rewrite Nat.add_0_r.
  - cbn [fold_left length].
    destruct (levenshteinRow_bounded str1 c2 row i Hlen Hb) as [Hl' Hb'].
    replace (i + S (length str2))%nat
      with (S i + length str2)%nat by lia.
    by apply IH.
Qed.

Lemma last_at_length {A} (l : list A) (n : nat) (v d : A) :
  length l = S n -> l !! n = Some v -> List.last l d = v.
Proof.
  revert n. induction l as [|a l IH]; intros n Hlen Hv; [done |].
  destruct l as [|b l].
  - cbn in Hlen. injection Hlen as <-. cbn in Hv |- *. congruence.
  - destruct n as [|n]; [done |].
    change (List.last (a :: b :: l) d) with (List.last (b :: l) d).
    apply (IH n); [cbn in Hlen |- *; lia | done].
Qed.

Lemma levenshtein_le_longer (str1 str2 : jsstring) :
  (calculateLevenshteinDistance str1 str2
   <= Nat.max (length str1) (length str2))%nat.
Proof.
  unfold calculateLevenshteinDistance.
  destruct (length str1 =? 0)%nat eqn:H1; [lia |].
  destruct (length str2 =? 0)%nat eqn:H2; [lia |].
  destruct (levenshtein_rows str1 str2 (seq 0 (S (length str1))) O)
    as [Hlen Hb].
  - by rewrite length_seq.
  - intros j v Hj. apply lookup_seq in Hj as [-> _]. lia.
  - cbn zeta in Hlen, Hb.
    set (rowN := fold_left _ str2 _) in *.
    destruct (rowN !! length str1) as [v |] eqn:Hv.
    + rewrite (last_at_length rowN (length str1) v O Hlen Hv).
      specialize (Hb _ _ Hv). lia.
    + apply lookup_ge_None in Hv. lia.
Qed.

(** X19.  The edit distance of two strings is at most the length of the
    longer one, and against the empty string it is the length of the
    other; so the similarity [1 - distance / maxLen] is never negative. *)
Theorem levenshtein_at_most_longer (str1 str2 : jsstring) :
  (calculateLevenshteinDistance str1 str2
   <= Nat.max (length str1) (length str2))%nat
  /\ calculateLevenshteinDistance str1 [] = length str1
  /\ calculateLevenshteinDistance [] str2 = length str2.
Proof.
  split; [apply levenshtein_le_longer | split].
  - unfold calculateLevenshteinDistance. by destruct str1.
  - done.
Qed.

(** *** The Jaro counts *)

Lemma marked_le_length (marks : list bool) : (marked marks <= length marks)%nat.
Proof.
  induction marks as [|m marks IH]; [done |].
  rewrite marked_cons. destruct m; cbn [length]; lia.
Qed.

Lemma marked_take_S (marks : list bool) (i : nat) :
  marked (take (S i) marks)
  = (marked (take i marks)
     + if default false (marks !! i) then 1 else 0)%nat.
Proof.
  revert i. induction marks as [|m marks IH]; intros i.
  - by rewrite !take_nil.
  - destruct i as [|i].
    + change (take 1 (m :: marks)) with (m :: take 0 marks).
      rewrite !take_0, marked_cons. cbn [lookup list_lookup default from_option].
      by destruct m.
    + change (take (S (S i)) (m :: marks))
        with (m :: take (S i) marks).
      change (take (S i) (m :: marks)) with (m :: take i marks).
      rewrite !marked_cons, IH.
      change ((m :: marks) !! S i) with (marks !! i). lia.
Qed.

Lemma jaroMatchStep_counts (str1 str2 : jsstring) (w : Z)
    (st : list bool * list bool * nat) (i : nat) :
  (i < length str1)%nat ->
  length st.1.1 = length str1 -> length st.1.2 = length str2 ->
  st.2 = marked st.1.1 -> st.2 = marked st.1.2 ->
  (forall i', (i <= i' < length str1)%nat -> st.1.1 !! i' = Some false) ->
  let st' := jaroMatchStep str1 str2 w st i in
  length st'.1.1 = length str1 /\ length st'.1.2 = length str2
  /\ st'.2 = marked st'.1.1 /\ st'.2 = marked st'.1.2
  /\ (forall i', (S i <= i' < length str1)%nat ->
                 st'.1.1 !! i' = Some false).
Proof.
  destruct st as [[m1 m2] c]. cbn [fst snd].
  intros Hi Hl1 Hl2 Hc1 Hc2 Hfalse.
  pose proof (jaroMatchStep_keeps str1 str2 w (m1, m2, c) i Hi Hl1 Hl2
                ltac:(cbn [fst snd]; congruence) Hfalse) as Hkeep.
  cbn zeta in Hkeep |- *. unfold jaroMatchStep in *.
  destruct (List.find _ _) as [j |] eqn:Hfind; cbn [fst snd] in *.
  - destruct Hkeep as (? & ? & Hbal & ?).
    split; [done |]. split; [done |].
    assert (Hm1 : marked (<[i:=true]> m1) = S c).
    { rewrite marked_insert; [congruence |]. apply Hfalse. lia. }
    split; [done |]. split; [congruence | done].
  - destruct Hkeep as (? & ? & _ & ?). done.
Qed.

Lemma jaroFindMatches_counts (str1 str2 : jsstring) :
  let st := jaroFindMatches str1 str2 in
  length st.1.1 = length str1 /\ length st.1.2 = length str2
  /\ st.2 = marked st.1.1 /\ st.2 = marked st.1.2.
Proof.
  cbn zeta. unfold jaroFindMatches.
  set (w := Z.max _ _ / 2 - 1).
  pose (P := fun (i : nat) (st : list bool * list bool * nat) =>
               length st.1.1 = length str1 /\ length st.1.2 = length str2
               /\ st.2 = marked st.1.1 /\ st.2 = marked st.1.2
               /\ forall i', (i <= i' < length str1)%nat ->
                             st.1.1 !! i' = Some false).
  assert (HP : P (0 + length str1)%nat
                 (fold_left (jaroMatchStep str1 str2 w) (seq 0 (length str1))
                    (replicate (length str1) false,
                     replicate (length str2) false, O))).
  { apply (fold_seq_invariant (jaroMatchStep str1 str2 w) P).
    - intros j st' Hj (Hl1 & Hl2 & Hc1 & Hc2 & Hfalse).
      apply jaroMatchStep_counts; [lia | done..].
    - unfold P. cbn [fst snd]. rewrite !length_replicate, !marked_replicate.
      repeat split; try done.
      intros i' Hi'. apply lookup_replicate_2. lia. }
  destruct HP as (? & ? & ? & ? & _). done.
Qed.

Lemma jaroTranspositions_le (str1 str2 : jsstring) (m1 m2 : list bool) :
  length m1 = length str1 ->
  (jaroTranspositions str1 str2 m1 m2 <= marked m1)%nat.
Proof.
  intros Hlen. unfold jaroTranspositions.
  pose (P := fun (i : nat) (st : nat * nat) =>
               (st.2 <= marked (take i m1))%nat).
  assert (HP : P (0 + length str1)%nat
                 (fold_left (jaroTranspositionStep str1 str2 m1 m2)
                            (seq 0 (length str1)) (O, O))).
  { apply (fold_seq_invariant _ P).
    - intros j [k t] Hj Hst. unfold P in *. cbn [snd] in *.
      rewrite marked_take_S. unfold jaroTranspositionStep.
      destruct (default false (m1 !! j)); cbn [snd]; [| lia].
      destruct (bool_decide _); lia.
    - unfold P. cbn. lia. }
  unfold P in HP. cbn [Nat.add] in HP.
  rewrite (take_ge m1) in HP by lia. exact HP.
Qed.

(** X20.  In [calculateJaroSimilarity] the match counter equals the number
    of marks in either array, so it is at most the length of the shorter
    string, and the transposition count is at most the match counter. *)
Theorem jaro_counts (str1 str2 : jsstring) :
  let '(str1Matches, str2Matches, matches) := jaroFindMatches str1 str2 in
  matches = marked str1Matches /\ matches = marked str2Matches
  /\ (matches <= Nat.min (length str1) (length str2))%nat
  /\ (jaroTranspositions str1 str2 str1Matches str2Matches <= matches)%nat.
Proof.
  pose proof (jaroFindMatches_counts str1 str2) as Hc. cbn zeta in Hc.
  destruct (jaroFindMatches str1 str2) as [[m1 m2] c]. cbn [fst snd] in Hc.
  destruct Hc as (Hl1 & Hl2 & Hc1 & Hc2).
  split; [done |]. split; [done |]. split.
  - pose proof (marked_le_length m1). pose proof (marked_le_length m2). lia.
  - rewrite Hc1. by apply jaroTranspositions_le.
Qed.

(** *** Scores are proportions *)

Lemma Qdiv_proportion (x y : Q) :
  (0 <= x)%Q -> (x <= y)%Q -> proportion (num_div x y).
Proof.
  intros Hx Hxy. unfold proportion. cbn [num_div Q_number].
  rewrite Qred_correct.
  destruct (Qlt_le_dec 0 y) as [Hy | Hy].
  - split.
    + apply Qle_shift_div_l; [done |]. lra.
    + apply Qle_shift_div_r; [done |]. lra.
  - assert (Hy0 : (y == 0)%Q) by lra.
    rewrite Hy0. unfold Qdiv. change (/ 0)%Q with 0%Q. lra.
Qed.

Lemma Qmax_proportion (x y : Q) :
  proportion x -> proportion y -> proportion (num_max x y).
Proof. intros Hx Hy. cbn [num_max Q_number]. by destruct (Qle_bool x y). Qed.

Lemma mean3_proportion (a b c : Q) :
  proportion a -> proportion b -> proportion c ->
  proportion (num_div (num_add (num_add a b) c) (inject_Z 3)).
Proof.
  unfold proportion. intros [? ?] [? ?] [? ?].
  cbn [num_div num_add Q_number]. rewrite !Qred_correct.
  change (inject_Z 3) with 3%Q. split.
  - apply Qle_shift_div_l; lra.
  - apply Qle_shift_div_r; lra.
Qed.

Lemma inject_Z_nat_le (n m : nat) :
  (n <= m)%nat -> (inject_Z (Z.of_nat n) <= inject_Z (Z.of_nat m))%Q.
Proof. intros Hle. rewrite <- Zle_Qle. lia. Qed.

Lemma inject_Z_nat_nonneg (n : nat) : (0 <= inject_Z (Z.of_nat n))%Q.
Proof. change 0%Q with (inject_Z 0). rewrite <- Zle_Qle. lia. Qed.

Lemma overlapStep_fold (chars2 : list jsstring) (chars1 : list jsstring) :
  forall (used : gset nat) (matches : nat),
    matches = size used ->
    (forall i, i ∈ used -> (i < length chars2)%nat) ->
    let st := fold_left (overlapStep chars2) chars1 (used, matches) in
    st.2 = size st.1
    /\ (forall i, i ∈ st.1 -> (i < length chars2)%nat)
    /\ (st.2 <= matches + length chars1)%nat.
Proof.
  induction chars1 as [|char chars1 IH]; intros used matches Hm Hused.
  - cbn. split; [done |]. split; [done | lia].
  - cbn [fold_left].
    destruct (overlapStep chars2 (used, matches) char) as [used' matches']
      eqn:Hstep.
    unfold overlapStep in Hstep.
    destruct (List.find _ _) as [index |] eqn:Hfind;
      injection Hstep as <- <-.
    + apply find_some in Hfind as [Hin Hok].
      apply in_seq in Hin. apply andb_true_iff in Hok as [_ Hfree].
      apply negb_true_iff, bool_decide_eq_false in Hfree.
      destruct (IH ({[index]} ∪ used) (S matches)) as (? & ? & ?).
      * assert (Hdisj : {[index]} ## used) by (by apply disjoint_singleton_l).
        rewrite (size_union _ _ Hdisj), size_singleton. lia.
      * intros i Hi. apply elem_of_union in Hi as [Hi | Hi]; [| by apply Hused].
        apply elem_of_singleton in Hi as ->. lia.
      * cbn zeta. split; [done |]. split; [done |]. cbn [length]. lia.
    + destruct (IH used matches Hm Hused) as (? & ? & ?).
      cbn zeta. split; [done |]. split; [done |]. cbn [length]. lia.
Qed.

Lemma overlap_matches (chars1 chars2 : list jsstring) :
  let st := fold_left (overlapStep chars2) chars1 (∅, O) in
  (st.2 <= length chars1)%nat /\ (st.2 <= length chars2)%nat.
Proof.
  destruct (overlapStep_fold chars2 chars1 ∅ O) as (Hsize & Hused & Hle).
  - by rewrite size_empty.
  - set_solver.
  - cbn zeta in *. split; [lia |].
    rewrite Hsize.
    set (used := (fold_left (overlapStep chars2) chars1 (∅, O)).1) in *.
    assert (Hsub : used ⊆ list_to_set (seq 0 (length chars2))).
    { intros i Hi. apply elem_of_list_to_set, elem_of_seq.
      specialize (Hused i Hi). lia. }
    apply subseteq_size in Hsub.
    rewrite size_list_to_set in Hsub by apply NoDup_seq.
    by rewrite length_seq in Hsub.
Qed.

Lemma fold_left_pointwise {A B} (f g : A -> B -> A) (l : list B) :
  (forall a b, f a b = g a b) ->
  forall a, fold_left f l a = fold_left g l a.
Proof.
  intros Hfg. induction l as [|b l IH]; intros a; [done |].
  cbn [fold_left]. by rewrite Hfg, IH.
Qed.

Lemma calculateCharacterOverlap_fold {R} `{Number R} (str1 str2 : jsstring) :
  calculateCharacterOverlap str1 str2
  = (num_ofZ (Z.of_nat (fold_left (overlapStep (codePoints str2))
                                  (codePoints str1) (∅, O)).2 * 2)
     / num_ofZ (Z.of_nat (length (codePoints str1))
                + Z.of_nat (length (codePoints str2))))%num.
Proof.
  unfold calculateCharacterOverlap.
  rewrite (fold_left_pointwise _ (overlapStep (codePoints str2)))
    by (by intros [used matches] char).
  by destruct (fold_left _ _ _).
Qed.

Lemma overlap_proportion (str1 str2 : jsstring) :
  proportion (calculateCharacterOverlap (R := Q) str1 str2).
Proof.
  rewrite calculateCharacterOverlap_fold.
  destruct (overlap_matches (codePoints str1) (codePoints str2)) as [H1 H2].
  cbn zeta in H1, H2. cbn [num_ofZ Q_number].
  apply Qdiv_proportion.
  - change 0%Q with (inject_Z 0). rewrite <- Zle_Qle. lia.
  - rewrite <- Zle_Qle. lia.
Qed.

Lemma jaro_proportion (str1 str2 : jsstring) :
  proportion (calculateJaroSimilarity (R := Q) str1 str2).
Proof.
  unfold calculateJaroSimilarity.
  destruct (JS.eqb str1 str2); [by split |].
  destruct (_ || _) eqn:Hlen; [by split |].
  apply orb_false_iff in Hlen as [Hl1 Hl2].
  apply Nat.eqb_neq in Hl1, Hl2.
  pose proof (jaroFindMatches_counts str1 str2) as Hc. cbn zeta in Hc.
  pose proof (jaroTranspositions_le str1 str2) as Ht.
  destruct (jaroFindMatches str1 str2) as [[m1 m2] c]. cbn [fst snd] in Hc.
  destruct Hc as (Hlen1 & Hlen2 & Hc1 & Hc2).
  specialize (Ht m1 m2 Hlen1). rewrite <- Hc1 in Ht.
  destruct (c =? 0)%nat eqn:Hzero; [by split |].
  apply Nat.eqb_neq in Hzero.
  pose proof (marked_le_length m1). pose proof (marked_le_length m2).
  set (t := jaroTranspositions str1 str2 m1 m2) in *.
  cbn [num_ofZ Q_number].
  assert (Hm : (1 <= inject_Z (Z.of_nat c))%Q).
  { change 1%Q with (inject_Z 1). rewrite <- Zle_Qle. lia. }
  assert (Hmt : (inject_Z (Z.of_nat t) <= inject_Z (Z.of_nat c))%Q)
    by (apply inject_Z_nat_le; lia).
  pose proof (inject_Z_nat_nonneg t) as Ht0.
  assert (Hhalf : (num_div (inject_Z (Z.of_nat t)) (inject_Z 2)
                   == inject_Z (Z.of_nat t) * (1 # 2))%Q).
  { cbn [num_div Q_number]. by rewrite Qred_correct. }
  apply mean3_proportion.
  - apply Qdiv_proportion; [lra | apply inject_Z_nat_le; lia].
  - apply Qdiv_proportion; [lra | apply inject_Z_nat_le; lia].
  - apply Qdiv_proportion; cbn [num_sub Q_number];
      rewrite Qred_correct, Hhalf; lra.
Qed.

Lemma weightedAverage_proportion (levenshtein jaro overlap containment : Q) :
  proportion levenshtein -> proportion jaro -> proportion overlap ->
  proportion containment ->
  proportion (weightedAverage levenshtein jaro overlap containment).
Proof.
  unfold proportion, weightedAverage. intros [? ?] [? ?] [? ?] [? ?].
  change (dec 4 10) with (2 # 5)%Q. change (dec 3 10) with (3 # 10)%Q.
  change (dec 2 10) with (1 # 5)%Q. change (dec 1 10) with (1 # 10)%Q.
  cbn [num_add num_mul Q_number]. rewrite !Qred_correct. lra.
Qed.

Lemma similarity_proportion (word1 word2 : jsstring) :
  proportion (calculateAdvancedSimilarity (R := Q) word1 word2).
Proof.
  unfold calculateAdvancedSimilarity.
  destruct (_ || _) eqn:Hlen; [by split |].
  apply orb_false_iff in Hlen as [Hl1 Hl2].
  apply Nat.eqb_neq in Hl1, Hl2.
  destruct (JS.eqb word1 word2); [by split |].
  destruct (_ >? _)%Z; [by split |].
  assert (Hcont : proportion
            (if includes word1 word2 || includes word2 word1
             then dec 8 10 else num_ofZ 0)).
  { destruct (_ || _); by split. }
  apply Qmax_proportion; [| done].
  apply weightedAverage_proportion;
    [| apply jaro_proportion | apply overlap_proportion | done].
  pose proof (levenshtein_le_longer word1 word2) as Hd.
  destruct (Qdiv_proportion
              (inject_Z (Z.of_nat (calculateLevenshteinDistance word1 word2)))
              (inject_Z (Z.max (Z.of_nat (length word1))
                               (Z.of_nat (length word2))))) as [H0 H1].
  { apply inject_Z_nat_nonneg. }
  { rewrite <- Zle_Qle. lia. }
  unfold proportion. cbn [num_sub num_div num_ofZ Q_number] in *.
  rewrite !Qred_correct in *. change (inject_Z 1) with 1%Q. lra.
Qed.

(** X23.  The thresholds of [analyzeContent] and the tiers of
    [shouldFlagContent] put together, on exact rationals.  Under low
    sensitivity every recorded detection already has confidence at least
    0.98, so a result is flagged exactly when its severity is high.  Under
    medium sensitivity every recorded detection has confidence at least
    0.85, so a result is flagged exactly when its severity is high, or its
    severity is medium and some detection has confidence below 0.95: a
    medium-severity result all of whose detections are direct matches is
    clean. *)
Theorem analysis_tiers (badWords : list BadWordEntry) (text : jsstring) :
  let low := analyzeWith (R := Q) badWords text SensLow in
  let medium := analyzeWith (R := Q) badWords text SensMedium in
  (isClean low = false <-> resultSeverity low = HIGH)
  /\ (isClean medium = false <->
      resultSeverity medium = HIGH
      \/ (resultSeverity medium = MEDIUM
          /\ exists d, d ∈ detectedDetails medium
                       /\ (d_confidence d < 95 # 100)%Q))
  /\ (resultSeverity medium = MEDIUM ->
      Forall (fun d => d_method d = Direct) (detectedDetails medium) ->
      isClean medium = true).
Proof.
  cbn zeta.
  pose proof (details_recorded (R := Q) badWords text SensLow) as Hlow.
  pose proof (details_severity (R := Q) badWords text SensLow) as Hsevl.
  pose proof (details_recorded (R := Q) badWords text SensMedium) as Hmed.
  pose proof (details_severity (R := Q) badWords text SensMedium) as Hsevm.
  rewrite !analyzeWith_fold in *.
  cbn [isClean detectedDetails resultSeverity] in *.
  set (outl := fold_left _ _ _) in *. clearbody outl.
  set (outm := fold_left _ _ _) in *. clearbody outm.
  destruct outl as [[dsl ml] cl]. destruct outm as [[dsm mm] cm].
  cbn [fst snd] in *.
  assert (Hmedium : negb (shouldFlagContent dsm mm SensMedium) = false <->
            mm = HIGH
            \/ (mm = MEDIUM
                /\ exists d, d ∈ dsm /\ (d_confidence d < 95 # 100)%Q)).
  { rewrite negb_false_iff, flag_medium_iff.
    destruct Hsevm as (Hnil & _ & _). split.
    - intros [Hne [-> | [-> (d & Hd & Hc)]]]; [by left | right].
      split; [done |]. exists d. split; [done |].
      unfold mediumConfidence in Hc. apply andb_prop in Hc as [_ Hc].
      cbn [num_ltb Q_number] in Hc. apply negb_true_iff in Hc.
      apply Qnot_le_lt. intros Habs.
      change (dec 95 100) with (19 # 20)%Q in Hc.
      assert (Hle : (19 # 20 <= d_confidence d)%Q) by lra.
      apply Qle_bool_iff in Hle. congruence.
    - intros Hcase. split.
      + intros ->. specialize (Hnil eq_refl).
        destruct Hcase as [? | [? _]]; congruence.
      + destruct Hcase as [-> | [-> (d & Hd & Hc)]]; [by left | right].
        split; [done |]. exists d. split; [done |].
        rewrite Forall_forall in Hmed. destruct (Hmed d Hd) as (Hthr & _ & _).
        unfold mediumConfidence. rewrite andb_true_iff. split; [done |].
        cbn [num_ltb Q_number]. apply negb_true_iff.
        destruct (Qle_bool (dec 95 100) (d_confidence d)) eqn:Hle; [| done].
        apply Qle_bool_iff in Hle.
        change (dec 95 100) with (19 # 20)%Q in Hle. lra. }
  split; [| split; [exact Hmedium |]].
  - rewrite negb_false_iff, flag_low_iff. split; [by intros [? _] |].
    intros ->. split; [done |].
    destruct Hsevl as (Hnil & _ & _).
    destruct dsl as [|d0 dsl'].
    + by specialize (Hnil eq_refl).
    + exists d0. split; [apply list_elem_of_here |].
      apply Forall_cons in Hlow as [(Hthr & _ & _) _].
      unfold highConfidence. cbn [num_leb Q_number] in *.
      apply Qle_bool_iff. apply Qle_bool_iff in Hthr.
      change (confidenceThreshold SensLow) with (49 # 50)%Q in Hthr.
      change (dec 95 100) with (19 # 20)%Q. lra.
  - intros -> Hdirect.
    apply not_false_is_true. intros Hflag.
    apply Hmedium in Hflag as [? | [_ (d & Hd & Hc)]]; [done |].
    rewrite Forall_forall in Hmed, Hdirect.
    destruct (Hmed d Hd) as (_ & _ & Hm). rewrite (Hdirect d Hd) in Hm.
    cbn in Hm. rewrite Hm in Hc. by vm_compute in Hc.
Qed.

(** ** The word from the dashboard to the matcher *)

Ltac ranges_to_props :=
  unfold isUpperAscii, inRange in *;
  rewrite ?orb_true_iff, ?andb_true_iff, ?negb_true_iff, ?orb_false_iff,
    ?andb_false_iff, ?negb_false_iff, ?N.leb_le, ?N.leb_gt, ?N.eqb_eq,
    ?N.eqb_neq in *.

Lemma lowerUnit_fixed (d : N) :
  isUpperAscii d = false ->
  inRange 0xc0 0xde d && negb (d =? 0xd7)%N = false ->
  inRange 0x400 0x40f d = false ->
  inRange 0x410 0x42f d = false ->
  inRange 0x10a0 0x10c5 d || (d =? 0x10c7)%N || (d =? 0x10cd)%N = false ->
  inRange 0x1c90 0x1cba d || inRange 0x1cbd 0x1cbf d = false ->
  lowerUnit d = d.
Proof. intros H1 H2 H3 H4 H5 H6. unfold lowerUnit. by rewrite H1, H2, H3, H4, H5, H6. Qed.

Lemma lowerUnit_idempotent (c : N) : lowerUnit (lowerUnit c) = lowerUnit c.
Proof.
  unfold lowerUnit at 2 3.
  destruct (isUpperAscii c) eqn:H1;
    [apply lowerUnit_fixed; clear -H1; ranges_to_props; lia |].
  destruct (inRange 0xc0 0xde c && negb (c =? 0xd7)%N) eqn:H2;
    [apply lowerUnit_fixed; clear -H2; ranges_to_props; lia |].
  destruct (inRange 0x400 0x40f c) eqn:H3;
    [apply lowerUnit_fixed; clear -H3; ranges_to_props; lia |].
  destruct (inRange 0x410 0x42f c) eqn:H4;
    [apply lowerUnit_fixed; clear -H4; ranges_to_props; lia |].
  destruct (inRange 0x10a0 0x10c5 c || (c =? 0x10c7)%N || (c =? 0x10cd)%N)
    eqn:H5;
    [apply lowerUnit_fixed; clear -H5; ranges_to_props; lia |].
  destruct (inRange 0x1c90 0x1cba c || inRange 0x1cbd 0x1cbf c) eqn:H6;
    [apply lowerUnit_fixed; clear -H6; ranges_to_props; lia |].
  by apply lowerUnit_fixed.
Qed.

Lemma toLowerCase_idempotent (s : jsstring) :
  toLowerCase (toLowerCase s) = toLowerCase s.
Proof.
  unfold toLowerCase. rewrite map_map. apply map_ext.
  intros c. apply lowerUnit_idempotent.
Qed.

Lemma trimStart_suffix (s : jsstring) : trimStart s `suffix_of` s.
Proof.
  induction s as [|c s IH]; [done |]. cbn [trimStart].
  destruct (isSpace c); [by apply suffix_cons_r | done].
Qed.

Lemma trim_keeps (P : N -> Prop) (s : jsstring) :
  Forall P s -> Forall P (trim s).
Proof.
  intros Hs. unfold trim.
  assert (Hsuf : forall t : jsstring, Forall P t -> Forall P (trimStart t)).
  { intros t Ht. destruct (trimStart_suffix t) as [pre Hpre].
    rewrite Hpre in Ht. by apply Forall_app in Ht as [_ ?]. }
  apply Forall_rev, Hsuf, Forall_rev, Hsuf, Hs.
Qed.

Lemma trim_toLowerCase_fixed (s : jsstring) :
  toLowerCase (trim (toLowerCase s)) = trim (toLowerCase s).
Proof.
  assert (Hfix : Forall (fun c => lowerUnit c = c) (trim (toLowerCase s))).
  { apply trim_keeps. unfold toLowerCase. apply Forall_map, Forall_forall.
    intros c _. apply lowerUnit_idempotent. }
  unfold toLowerCase at 1.
  induction Hfix as [|c t Hc _ IH]; [done |].
  cbn [List.map]. by rewrite Hc, IH.
Qed.

Lemma trimStart_fixed (s : jsstring) :
  match s with [] => True | c :: _ => isSpace c = false end ->
  trimStart s = s.
Proof. destruct s as [|c s]; [done |]. cbn [trimStart]. by intros ->. Qed.

Lemma trimStart_head (s : jsstring) :
  match trimStart s with [] => True | c :: _ => isSpace c = false end.
Proof.
  induction s as [|c s IH]; [done |]. cbn [trimStart].
  by destruct (isSpace c) eqn:Hc.
Qed.

Lemma trim_idempotent (s : jsstring) : trim (trim s) = trim s.
Proof.
  unfold trim.
  set (a := trimStart s).
  set (b := trimStart (rev a)).
  assert (Hb : trimStart b = b) by apply trimStart_fixed, trimStart_head.
  assert (Hrb : trimStart (rev b) = rev b).
  { apply trimStart_fixed.
    destruct (trimStart_suffix (rev a)) as [pre Hpre]. fold b in Hpre.
    assert (Ha : a = rev b ++ rev pre)
      by (by rewrite <- rev_app_distr, <- Hpre, rev_involutive).
    pose proof (trimStart_head s) as Hhead. fold a in Hhead.
    destruct (rev b) as [|c r]; [done |].
    by rewrite Ha in Hhead. }
  by rewrite Hrb, rev_involutive, Hb.
Qed.

(** X24.  The word [addBadWord] writes, for an input in the scripts the
    engine's tables cover, is a fixed point of the normalization the other
    entry points apply: lower-casing it again ([loadBadWords],
    [analyzeContent]) or trimming it again changes nothing.  So a row
    written by [addBadWord] is cached and matched under the very word
    stored, and passing the cached word back to [removeBadWord] or
    [addBadWord] addresses that stored word. *)
Theorem stored_word_is_matched_word (word_ : jsstring) (severity_ : Severity)
    (guildId addedBy : option string) :
  Forall (fun c => covered c = true) word_ ->
  let stored := new_word (addedWord word_ severity_ guildId addedBy) in
  toLowerCase stored = stored /\ trim stored = stored
  /\ (forall row, row_word row = stored ->
        let cached := word (processRow row) in
        cached = stored
        /\ toLowerCase cached = stored
        /\ q_word (removeQuery cached guildId) = Some stored
        /\ new_word (addedWord cached severity_ guildId addedBy) = stored).
Proof.
  intros _. cbn zeta. cbn [addedWord new_word].
  assert (Hlow : toLowerCase (trim (toLowerCase word_))
                 = trim (toLowerCase word_)) by apply trim_toLowerCase_fixed.
  assert (Htrim : trim (trim (toLowerCase word_)) = trim (toLowerCase word_))
    by apply trim_idempotent.
  split; [done |]. split; [done |].
  intros row Hrow. unfold processRow. cbn [word removeQuery q_word].
  rewrite Hrow, !Hlow, Htrim. done.
Qed.

(** The dashboard input " Slur " is stored as "slur". *)
Lemma stored_word_is_matched_word_witness :
  Forall (fun c => covered c = true) (str " Slur ")
  /\ new_word (addedWord (str " Slur ") HIGH (Some "guildA") (Some "mod1"))
     = str "slur"
  /\ toLowerCase (str "slur") = str "slur" /\ trim (str "slur") = str "slur".
Proof.
  assert (Hc : Forall (fun c => covered c = true) (str " Slur "))
    by (vm_compute; repeat constructor).
  split; [exact Hc |]. split; [reflexivity |].
  destruct (stored_word_is_matched_word (str " Slur ") HIGH (Some "guildA")
              (Some "mod1") Hc) as (Hl & Ht & _).
  split; [exact Hl | exact Ht].
Defined.

(** ** Magnitudes of doubles *)

Lemma digits2_pos_size (p : positive) : digits2_pos p = Pos.size p.
Proof. induction p as [p IH | p IH |]; cbn; by rewrite ?IH. Qed.

Lemma Zdigits2_log2 (m : Z) : 0 < m -> Zdigits2 m = Z.log2 m + 1.
Proof.
  destruct m as [| p | p]; try lia. intros _.
  cbn [Zdigits2]. rewrite digits2_pos_size.
  destruct p as [p | p |]; cbn; lia.
Qed.

Lemma Zdigits2_nonneg (m : Z) : 0 <= Zdigits2 m.
Proof. destruct m; cbn; lia. Qed.

Lemma Zdigits2_pos (m : Z) : 0 < m -> 1 <= Zdigits2 m.
Proof.
  intros Hm. rewrite Zdigits2_log2 by done.
  pose proof (Z.log2_nonneg m). lia.
Qed.

Lemma Zdigits2_mono (a b : Z) : 0 <= a <= b -> Zdigits2 a <= Zdigits2 b.
Proof.
  intros [Ha Hab]. destruct (Z.eq_dec a 0) as [-> | Hne].
  - apply Zdigits2_nonneg.
  - rewrite !Zdigits2_log2 by lia.
    pose proof (Z.log2_le_mono a b Hab). lia.
Qed.

Lemma Zdigits2_succ (m : Z) : 0 <= m -> Zdigits2 (m + 1) <= Zdigits2 m + 1.
Proof.
  intros Hm. destruct (Z.eq_dec m 0) as [-> | Hne]; [done |].
  rewrite !Zdigits2_log2 by lia.
  pose proof (Z.log2_succ_le m). unfold Z.succ in *. lia.
Qed.

Lemma Zdigits2_lt_pow2 (m h : Z) : 0 <= m -> 0 <= h -> m < 2 ^ h -> Zdigits2 m <= h.
Proof.
  intros Hm Hh Hlt. destruct (Z.eq_dec m 0) as [-> | Hne]; [done |].
  rewrite Zdigits2_log2 by lia.
  assert (Z.log2 m < h) by (apply Z.log2_lt_pow2; lia). lia.
Qed.

Lemma Zdigits2_bound (m : Z) : 0 < m -> 2 ^ (Zdigits2 m - 1) <= m < 2 ^ Zdigits2 m.
Proof.
  intros Hm. rewrite Zdigits2_log2 by done.
  replace (Z.log2 m + 1 - 1) with (Z.log2 m) by lia.
  pose proof (Z.log2_spec m Hm). unfold Z.succ in *. lia.
Qed.

Lemma iter_pos_iter {A} (f : A -> A) (p : positive) (x : A) :
  SpecFloat.iter_pos f p x = Pos.iter f x p.
Proof.
  revert x. induction p as [p IH | p IH |]; intros x; cbn.
  - rewrite !IH. by rewrite !Pos.iter_swap.
  - by rewrite !IH.
  - done.
Qed.

Lemma shr_1_div2 (mrs : shr_record) :
  0 <= shr_m mrs -> shr_m (shr_1 mrs) = Z.div2 (shr_m mrs).
Proof.
  destruct mrs as [m r s]. cbn [shr_m]. intros Hm.
  destruct m as [| [p | p |] | p]; try done; lia.
Qed.

Lemma shr_iter_shiftr (p : positive) (mrs : shr_record) :
  0 <= shr_m mrs ->
  shr_m (SpecFloat.iter_pos shr_1 p mrs) = Z.shiftr (shr_m mrs) (Zpos p).
Proof.
  intros Hm. rewrite iter_pos_iter.
  induction p as [| p IH] using Pos.peano_ind.
  - cbn [Pos.iter]. rewrite shr_1_div2 by done. by rewrite Z.div2_spec.
  - rewrite Pos.iter_succ, shr_1_div2.
    + rewrite IH, Z.div2_spec, Z.shiftr_shiftr by lia. f_equal. lia.
    + rewrite IH. by apply Z.shiftr_nonneg.
Qed.

Lemma shr_record_of_loc_m (m : Z) (l : location) :
  shr_m (shr_record_of_loc m l) = m.
Proof. by destruct l as [| []]. Qed.

(** One alignment step of the rounding. *)
Lemma shr_fexp_within (m e : Z) (l : location) (h : Z) :
  0 <= m -> e <= 971 -> Zdigits2 m + e <= h -> -1074 <= h <= 1024 ->
  let st := shr_fexp prec emax m e l in
  0 <= shr_m st.1 /\ st.2 <= 971 /\ Zdigits2 (shr_m st.1) + st.2 <= h.
Proof.
  intros Hm He Hd Hh. unfold shr_fexp, shr.
  set (n := fexp prec emax (Zdigits2 m + e) - e).
  assert (Hn : n = Z.max (Zdigits2 m + e - 53) (-1074) - e) by done.
  clearbody n.
  destruct n as [| p | p]; cbn [fst snd];
    rewrite ?shr_record_of_loc_m; try done.
  rewrite shr_iter_shiftr by (by rewrite shr_record_of_loc_m).
  rewrite shr_record_of_loc_m.
  split; [by apply Z.shiftr_nonneg |]. split; [lia |].
  destruct (Z.eq_dec (Z.shiftr m (Zpos p)) 0) as [-> | Hne].
  - cbn [Zdigits2]. lia.
  - assert (Hpos : 0 < m).
    { destruct (Z.eq_dec m 0) as [-> | ?]; [by rewrite Z.shiftr_0_l in Hne | lia]. }
    assert (Hlog : Zpos p <= Z.log2 m).
    { destruct (Z_lt_le_dec (Z.log2 m) (Zpos p)) as [Hlt | ?]; [| done].
      by rewrite Z.shiftr_eq_0 in Hne by lia. }
    assert (0 <= Z.shiftr m (Zpos p)) by (by apply Z.shiftr_nonneg).
    rewrite Zdigits2_log2 by lia.
    rewrite Z.log2_shiftr by done.
    rewrite Zdigits2_log2 in Hd, Hn by done. lia.
Qed.

Lemma round_nearest_even_range (m : Z) (l : location) :
  m <= round_nearest_even m l <= m + 1.
Proof. destruct l as [| []]; cbn; try lia. destruct (Z.even m); lia. Qed.

(** The rounding of a mantissa of bounded magnitude is a number of about
    that magnitude: it neither overflows nor is undefined. *)
Lemma binary_round_aux_within (sx : bool) (mx ex : Z) (lx : location) (h : Z) :
  0 <= mx -> ex <= 971 -> Zdigits2 mx + ex <= h -> -1074 <= h <= 1023 ->
  within (h + 1) (binary_round_aux prec emax sx mx ex lx) = true.
Proof.
  intros Hm He Hd Hh. unfold binary_round_aux.
  pose proof (shr_fexp_within mx ex lx h Hm He Hd ltac:(lia)) as H1.
  cbn zeta in H1.
  destruct (shr_fexp prec emax mx ex lx) as [mrs' e']. cbn [fst snd] in H1.
  destruct H1 as (Hm1 & He1 & Hd1).
  pose proof (round_nearest_even_range (shr_m mrs') (loc_of_shr_record mrs'))
    as Hr.
  set (m2 := round_nearest_even _ _) in *.
  assert (Hd2 : Zdigits2 m2 + e' <= h + 1).
  { pose proof (Zdigits2_mono m2 (shr_m mrs' + 1) ltac:(lia)).
    pose proof (Zdigits2_succ (shr_m mrs') Hm1). lia. }
  pose proof (shr_fexp_within m2 e' loc_Exact (h + 1) ltac:(lia) He1 Hd2
                ltac:(lia)) as H2.
  cbn zeta in H2.
  destruct (shr_fexp prec emax m2 e' loc_Exact) as [mrs'' e''].
  cbn [fst snd] in H2. destruct H2 as (Hm3 & He3 & Hd3).
  destruct (shr_m mrs'') as [| m | m] eqn:Hm''; [done | | lia].
  replace (emax - prec) with 971 by done.
  destruct (Z.leb_spec e'' 971) as [_ | ?]; [| lia].
  cbn [within]. apply Z.leb_le. cbn [Zdigits2] in Hd3. lia.
Qed.

Lemma within_mono (h h' : Z) (x : spec_float) :
  h <= h' -> within h x = true -> within h' x = true.
Proof.
  intros Hh. destruct x as [| | | s m e]; try done. cbn [within].
  rewrite !Z.leb_le. lia.
Qed.

Lemma digits2_pos_shift (m d : positive) :
  Zpos (digits2_pos (Pos.iter xO m d)) = Zpos (digits2_pos m) + Zpos d.
Proof.
  induction d as [| d IH] using Pos.peano_ind; [cbn; lia |].
  rewrite Pos.iter_succ. cbn [digits2_pos]. lia.
Qed.

Lemma shl_align_spec (mx : positive) (ex ex' : Z) :
  let r := shl_align mx ex ex' in
  Zpos (digits2_pos r.1) + r.2 = Zpos (digits2_pos mx) + ex
  /\ r.2 <= ex /\ r.2 = Z.min ex ex'.
Proof.
  unfold shl_align. destruct (ex' - ex) as [| d | d] eqn:Hd; cbn [fst snd].
  - lia.
  - lia.
  - rewrite digits2_pos_shift. lia.
Qed.

Lemma binary_round_within (sx : bool) (mx : positive) (ex h : Z) :
  ex <= 971 -> Zpos (digits2_pos mx) + ex <= h -> -1074 <= h <= 1023 ->
  within (h + 1) (binary_round prec emax sx mx ex) = true.
Proof.
  intros He Hd Hh. unfold binary_round.
  pose proof (shl_align_spec mx ex
                (fexp prec emax (Zpos (digits2_pos mx) + ex))) as Hs.
  cbn zeta in Hs. destruct (shl_align _ _ _) as [mz ez]. cbn [fst snd] in Hs.
  apply binary_round_aux_within; [done | lia | cbn [Zdigits2]; lia | done].
Qed.

Lemma binary_normalize_within (m e h : Z) (szero : bool) :
  e <= 971 -> Zdigits2 m + e <= h -> -1074 <= h <= 1023 ->
  within (h + 1) (binary_normalize prec emax m e szero) = true.
Proof.
  intros He Hd Hh. destruct m as [| p | p]; cbn [binary_normalize]; [done | |];
    by apply binary_round_within.
Qed.

Lemma Zdigits2_abs (m : Z) : Zdigits2 m = Zdigits2 (Z.abs m).
Proof. by destruct m. Qed.

Lemma Zdigits2_le_pow (m h : Z) : 0 <= h -> Z.abs m < 2 ^ h -> Zdigits2 m <= h.
Proof.
  intros Hh Hm. rewrite Zdigits2_abs. apply Zdigits2_lt_pow2; lia.
Qed.

Lemma pos_lt_pow2_digits (p : positive) : Zpos p < 2 ^ Zpos (digits2_pos p).
Proof. pose proof (Zdigits2_bound (Zpos p) ltac:(lia)) as H. cbn [Zdigits2] in H. lia. Qed.

Lemma pos_ge_pow2_digits (p : positive) : 2 ^ (Zpos (digits2_pos p) - 1) <= Zpos p.
Proof. pose proof (Zdigits2_bound (Zpos p) ltac:(lia)) as H. cbn [Zdigits2] in H. lia. Qed.

(** The sum or difference of two aligned mantissas. *)
Lemma aligned_sum_digits (mx my : positive) (ex ey : Z) (sx sy : bool)
    (op : Z -> Z -> Z) (h : Z) :
  (op = Z.add \/ op = Z.sub) ->
  Zpos (digits2_pos mx) + ex <= h -> Zpos (digits2_pos my) + ey <= h ->
  let ez := Z.min ex ey in
  Zdigits2 (op (cond_Zopp sx (Zpos (shl_align mx ex ez).1))
               (cond_Zopp sy (Zpos (shl_align my ey ez).1))) + ez
  <= h + 1.
Proof.
  intros Hop Hx Hy ez.
  pose proof (shl_align_spec mx ex ez) as Hsx.
  pose proof (shl_align_spec my ey ez) as Hsy.
  cbn zeta in Hsx, Hsy.
  destruct (shl_align mx ex ez) as [mx' ex'].
  destruct (shl_align my ey ez) as [my' ey']. cbn [fst snd] in *.
  assert (Hex : ex' = ez) by lia. assert (Hey : ey' = ez) by lia.
  pose proof (pos_lt_pow2_digits mx'). pose proof (pos_lt_pow2_digits my').
  set (dx := Zpos (digits2_pos mx')) in *.
  set (dy := Zpos (digits2_pos my')) in *.
  assert (Hdx : 0 < dx) by done. assert (Hdy : 0 < dy) by done.
  assert (Hk : 0 <= h - ez) by lia.
  assert (Hpx : 2 ^ dx <= 2 ^ (h - ez)) by (apply Z.pow_le_mono_r; lia).
  assert (Hpy : 2 ^ dy <= 2 ^ (h - ez)) by (apply Z.pow_le_mono_r; lia).
  assert (Hp : 2 ^ (h - ez + 1) = 2 * 2 ^ (h - ez))
    by (rewrite Z.pow_add_r by lia; lia).
  assert (Zdigits2 (op (cond_Zopp sx (Zpos mx')) (cond_Zopp sy (Zpos my')))
          <= h - ez + 1); [| lia].
  apply Zdigits2_le_pow; [lia |].
  destruct Hop as [-> | ->]; destruct sx, sy; cbn [cond_Zopp]; lia.
Qed.

Lemma SFadd_within (x y : spec_float) (h : Z) :
  within h x = true -> within h y = true -> -1074 <= h <= 970 ->
  within (h + 2) (SFadd prec emax x y) = true.
Proof.
  intros Hx Hy Hh.
  destruct x as [sx | | | sx mx ex], y as [sy | | | sy my ey]; try done.
  - cbn. by destruct sx, sy.
  - cbn [SFadd]. apply (within_mono h); [lia | done].
  - cbn [SFadd]. apply (within_mono h); [lia | done].
  - cbn [SFadd within] in *. apply Z.leb_le in Hx, Hy.
    pose proof (aligned_sum_digits mx my ex ey sx sy Z.add h (or_introl eq_refl)
                  Hx Hy) as Hd. cbn zeta in Hd.
    replace (h + 2) with (h + 1 + 1) by lia.
    apply binary_normalize_within; [| done | lia].
    pose proof (Pos2Z.is_pos (digits2_pos mx)). lia.
Qed.

Lemma SFsub_within (x y : spec_float) (h : Z) :
  within h x = true -> within h y = true -> -1074 <= h <= 970 ->
  within (h + 2) (SFsub prec emax x y) = true.
Proof.
  intros Hx Hy Hh.
  destruct x as [sx | | | sx mx ex], y as [sy | | | sy my ey]; try done.
  - cbn. by destruct sx, sy.
  - cbn [SFsub]. apply (within_mono h); [lia | done].
  - cbn [SFsub]. apply (within_mono h); [lia | done].
  - cbn [SFsub within] in *. apply Z.leb_le in Hx, Hy.
    pose proof (aligned_sum_digits mx my ex ey sx sy Z.sub h (or_intror eq_refl)
                  Hx Hy) as Hd. cbn zeta in Hd.
    replace (h + 2) with (h + 1 + 1) by lia.
    apply binary_normalize_within; [| done | lia].
    pose proof (Pos2Z.is_pos (digits2_pos mx)). lia.
Qed.

Lemma SFmul_within (x y : spec_float) (hx hy : Z) :
  within hx x = true -> within hy y = true ->
  -1074 <= hx + hy <= 970 ->
  within (hx + hy + 1) (SFmul prec emax x y) = true.
Proof.
  intros Hx Hy Hh.
  destruct x as [sx | | | sx mx ex], y as [sy | | | sy my ey]; try done.
  cbn [SFmul within] in *. apply Z.leb_le in Hx, Hy.
  pose proof (Pos2Z.is_pos (digits2_pos mx)).
  pose proof (Pos2Z.is_pos (digits2_pos my)).
  apply binary_round_aux_within; [done | lia | | lia].
  assert (Zdigits2 (Zpos (mx * my))
          <= Zpos (digits2_pos mx) + Zpos (digits2_pos my)); [| lia].
  apply Zdigits2_lt_pow2; [done | lia |].
  rewrite Z.pow_add_r by lia.
  pose proof (pos_lt_pow2_digits mx). pose proof (pos_lt_pow2_digits my).
  rewrite Pos2Z.inj_mul. nia.
Qed.

Lemma SFdiv_core_digits (mx my : positive) (ex ey : Z) :
  let r := SFdiv_core_binary prec emax (Zpos mx) ex (Zpos my) ey in
  let D := Zpos (digits2_pos mx) + ex - (Zpos (digits2_pos my) + ey) in
  0 <= r.1.1
  /\ r.1.2 <= Z.max (D - 53) (-1074)
  /\ Zdigits2 r.1.1 + r.1.2 <= Z.max (D + 1) (-1074).
Proof.
  cbn zeta. unfold SFdiv_core_binary. cbn [Zdigits2].
  set (d1 := Zpos (digits2_pos mx)). set (d2 := Zpos (digits2_pos my)).
  set (e' := Z.min (fexp prec emax (d1 + ex - (d2 + ey))) (ex - ey)).
  assert (He' : e' = Z.min (Z.max (d1 + ex - (d2 + ey) - 53) (-1074)) (ex - ey))
    by done.
  clearbody e'.
  set (s := ex - ey - e'). assert (Hs : s = ex - ey - e') by done.
  clearbody s.
  set (m' := match s with Z.pos _ => Z.shiftl (Zpos mx) s | 0 => Zpos mx
             | Z.neg _ => 0 end).
  assert (Hm' : m' = Zpos mx * 2 ^ s).
  { subst m'. destruct s as [| p | p]; [lia | | lia].
    by rewrite Z.shiftl_mul_pow2. }
  clearbody m'.
  pose proof (Z_div_mod m' (Zpos my) ltac:(lia)) as Hdm.
  destruct (Z.div_eucl m' (Zpos my)) as [q r]. cbn [fst snd].
  destruct Hdm as [Hq Hr].
  assert (Hs0 : 0 <= s) by lia.
  assert (Hpow : 0 < 2 ^ s) by (apply Z.pow_pos_nonneg; lia).
  assert (Hq0 : 0 <= q) by nia.
  split; [done |]. split; [lia |].
  pose proof (pos_lt_pow2_digits mx) as Hmx.
  pose proof (pos_ge_pow2_digits my) as Hmy.
  fold d1 in Hmx. fold d2 in Hmy.
  assert (Hd1 : 0 < d1) by done. assert (Hd2 : 0 < d2) by done.
  destruct (Z_lt_le_dec (d1 + s - (d2 - 1)) 0) as [Hneg | Hk].
  - assert (q = 0); [| subst q; cbn [Zdigits2]; lia].
    assert (m' < Zpos my); [| nia].
    assert (2 ^ (d1 + s) <= 2 ^ (d2 - 1)) by (apply Z.pow_le_mono_r; lia).
    assert (Zpos mx * 2 ^ s < 2 ^ (d1 + s)); [| lia].
    rewrite Z.pow_add_r by lia. nia.
  - assert (Zdigits2 q <= d1 + s - (d2 - 1)); [| lia].
    apply Zdigits2_lt_pow2; [done | done |].
    assert (Hsplit : 2 ^ (d1 + s) = 2 ^ (d1 + s - (d2 - 1)) * 2 ^ (d2 - 1)).
    { rewrite <- Z.pow_add_r by lia. f_equal. lia. }
    assert (Hlt : Zpos mx * 2 ^ s < 2 ^ (d1 + s))
      by (rewrite Z.pow_add_r by lia; nia).
    assert (Hp2 : 0 < 2 ^ (d2 - 1)) by (apply Z.pow_pos_nonneg; lia).
    assert (Hk2 : 0 < 2 ^ (d1 + s - (d2 - 1))) by (apply Z.pow_pos_nonneg; lia).
    nia.
Qed.

(** A quotient by a divisor of magnitude at least one. *)
Lemma SFdiv_within (x y : spec_float) (h : Z) :
  within h x = true -> atLeast 1 y = true -> 0 <= h <= 1022 ->
  within (h + 1) (SFdiv prec emax x y) = true.
Proof.
  intros Hx Hy Hh.
  destruct x as [sx | | | sx mx ex], y as [sy | | | sy my ey]; try done.
  cbn [SFdiv within atLeast] in *. apply Z.leb_le in Hx, Hy.
  pose proof (SFdiv_core_digits mx my ex ey) as Hc. cbn zeta in Hc.
  destruct (SFdiv_core_binary prec emax (Zpos mx) ex (Zpos my) ey)
    as [[mz ez] lz]. cbn [fst snd] in Hc. destruct Hc as (Hm & He & Hd).
  apply binary_round_aux_within; lia.
Qed.

Lemma round_canonical (sx : bool) (m : positive) (e : Z) :
  fexp prec emax (Zpos (digits2_pos m) + e) <= e -> e <= 971 ->
  binary_round_aux prec emax sx (Zpos m) e loc_Exact = S754_finite sx m e.
Proof.
  intros Hc He. unfold binary_round_aux.
  assert (Hstep : shr_fexp prec emax (Zpos m) e loc_Exact
                  = ({| shr_m := Zpos m; shr_r := false; shr_s := false |}, e)).
  { unfold shr_fexp, shr. cbn [Zdigits2].
    destruct (fexp prec emax (Zpos (digits2_pos m) + e) - e) eqn:Hn;
      try done. lia. }
  rewrite Hstep. cbn [shr_m loc_of_shr_record round_nearest_even].
  rewrite Hstep. cbn [shr_m].
  replace (emax - prec) with 971 by done.
  by destruct (Z.leb_spec e 971); [| lia].
Qed.

(** An integer below [2^53] is converted exactly. *)
Lemma binary_normalize_count (z : Z) :
  1 <= z < 2 ^ 53 ->
  exists m e, binary_normalize prec emax z 0 false = S754_finite false m e
              /\ Zpos (digits2_pos m) + e = Zdigits2 z.
Proof.
  intros Hz. destruct z as [| p | p]; try lia.
  cbn [binary_normalize Zdigits2]. unfold binary_round.
  assert (Hd : Zpos (digits2_pos p) <= 53).
  { change (Zpos (digits2_pos p)) with (Zdigits2 (Zpos p)).
    apply Zdigits2_lt_pow2; lia. }
  pose proof (Pos2Z.is_pos (digits2_pos p)) as Hd0.
  pose proof (shl_align_spec p 0
                (fexp prec emax (Zpos (digits2_pos p) + 0))) as Hs.
  cbn zeta in Hs. destruct (shl_align _ _ _) as [mz ez]. cbn [fst snd] in Hs.
  assert (Hf : fexp prec emax (Zpos (digits2_pos p) + 0)
               = Zpos (digits2_pos p) - 53).
  { unfold fexp, SpecFloat.emin.
    replace (3 - emax - prec) with (-1074) by done.
    replace prec with 53 by done. lia. }
  rewrite Hf in Hs. destruct Hs as (Hsum & Hle & Hez).
  exists mz, ez. split; [| lia].
  apply round_canonical; [| lia].
  unfold fexp, SpecFloat.emin.
  replace (3 - emax - prec) with (-1074) by done.
  replace prec with 53 by done. lia.
Qed.

(** *** The same on the primitive doubles *)

Lemma finiteBelow_mono (h h' : Z) (x : float) :
  h <= h' -> finiteBelow h x -> finiteBelow h' x.
Proof. unfold finiteBelow. apply within_mono. Qed.

Lemma add_finite (x y : float) (h : Z) :
  finiteBelow h x -> finiteBelow h y -> -1074 <= h <= 970 ->
  finiteBelow (h + 2) (x + y)%float.
Proof. unfold finiteBelow. rewrite add_spec. apply SFadd_within. Qed.

Lemma sub_finite (x y : float) (h : Z) :
  finiteBelow h x -> finiteBelow h y -> -1074 <= h <= 970 ->
  finiteBelow (h + 2) (x - y)%float.
Proof. unfold finiteBelow. rewrite sub_spec. apply SFsub_within. Qed.

Lemma mul_finite (x y : float) (hx hy : Z) :
  finiteBelow hx x -> finiteBelow hy y -> -1074 <= hx + hy <= 970 ->
  finiteBelow (hx + hy + 1) (x * y)%float.
Proof. unfold finiteBelow. rewrite mul_spec. apply SFmul_within. Qed.

Lemma div_finite (x y : float) (h : Z) :
  finiteBelow h x -> atLeast 1 (Prim2SF y) = true -> 0 <= h <= 1022 ->
  finiteBelow (h + 1) (x / y)%float.
Proof. unfold finiteBelow. rewrite div_spec. apply SFdiv_within. Qed.

Lemma ofZ_count (z : Z) :
  1 <= z < 2 ^ 53 ->
  atLeast 1 (Prim2SF (FloatNum.ofZ z)) = true
  /\ finiteBelow 53 (FloatNum.ofZ z).
Proof.
  intros Hz. unfold finiteBelow, FloatNum.ofZ.
  destruct (Z.ltb_spec z 0) as [? | _]; [lia |].
  rewrite of_uint63_spec, Uint63.of_Z_spec.
  rewrite Z.mod_small
    by (split; [lia |]; apply (Z.lt_trans _ (2 ^ 53)); [lia | done]).
  destruct (binary_normalize_count z Hz) as (m & e & -> & Hd).
  cbn [atLeast within]. rewrite Hd, !Z.leb_le.
  pose proof (Zdigits2_pos z ltac:(lia)).
  assert (Zdigits2 z <= 53) by (apply Zdigits2_lt_pow2; lia). lia.
Qed.

Lemma ofZ_finite (z : Z) : 0 <= z < 2 ^ 53 -> finiteBelow 53 (FloatNum.ofZ z).
Proof.
  intros Hz. destruct (Z.eq_dec z 0) as [-> | Hne]; [by vm_compute |].
  by apply ofZ_count; lia.
Qed.

Lemma SFcompare_refl (x : spec_float) :
  x <> S754_nan -> SFcompare x x = Some Eq.
Proof.
  destruct x as [s | s | | s m e]; try done; intros _; cbn.
  - by destruct s.
  - rewrite Z.compare_refl, Pos.compare_cont_refl. by destruct s.
Qed.

Lemma SFcompare_antisym (x y : spec_float) :
  SFcompare y x = option_map CompOpp (SFcompare x y).
Proof.
  destruct x as [sx | sx | | sx mx ex], y as [sy | sy | | sy my ey];
    try done; cbn;
    try (by destruct sx); try (by destruct sy); try (by destruct sx, sy).
  rewrite (Z.compare_antisym ex ey).
  destruct sx, sy; try done;
    destruct (ex ?= ey) eqn:He; cbn; try done;
    by rewrite (ZC4 my mx), ?CompOpp_involutive.
Qed.

Lemma is_nan_spec (x : float) :
  is_nan x = false <-> Prim2SF x <> S754_nan.
Proof.
  unfold is_nan. rewrite FloatAxioms.eqb_spec, negb_false_iff.
  unfold SFeqb. split.
  - intros Hc Hn. by rewrite Hn in Hc.
  - intros Hn. by rewrite SFcompare_refl.
Qed.

Lemma finiteBelow_not_nan (h : Z) (x : float) :
  finiteBelow h x -> is_nan x = false.
Proof.
  unfold finiteBelow. intros Hx. apply is_nan_spec. intros Hn.
  by rewrite Hn in Hx.
Qed.

Lemma max_cases (x y : float) :
  is_nan x = false -> is_nan y = false ->
  FloatNum.max x y = x \/ FloatNum.max x y = y.
Proof.
  intros Hx Hy. unfold FloatNum.max. rewrite Hx, Hy. cbn [orb].
  repeat case_match; auto.
Qed.

(** [Math.max(x, c)] is at least [c] when neither is NaN. *)
Lemma max_floor (x c : float) :
  is_nan x = false -> is_nan c = false ->
  (c <=? FloatNum.max x c)%float = true.
Proof.
  intros Hx Hc. unfold FloatNum.max. rewrite Hx, Hc. cbn [orb].
  apply is_nan_spec in Hx, Hc.
  assert (Hcc : (c <=? c)%float = true).
  { rewrite leb_spec. unfold SFleb. by rewrite SFcompare_refl. }
  rewrite !ltb_spec. unfold SFltb.
  pose proof (SFcompare_antisym (Prim2SF x) (Prim2SF c)) as Ha.
  destruct (SFcompare (Prim2SF x) (Prim2SF c)) as [[| |] |] eqn:Hxc;
    cbn [option_map CompOpp] in Ha; rewrite ?Ha.
  - destruct (_ && _); [done |].
    rewrite leb_spec. unfold SFleb. by rewrite Ha.
  - done.
  - rewrite leb_spec. unfold SFleb. by rewrite Ha.
  - destruct (Prim2SF x) as [| | |], (Prim2SF c) as [| | |]; done.
Qed.

(** ** The similarity scores on doubles *)

Lemma codePoints_length (s : jsstring) :
  (length (codePoints s) <= length s)%nat
  /\ (s <> [] -> codePoints s <> []).
Proof.
  split.
  - induction s as [|c s IH]; [done |].
    cbn [codePoints]. destruct s as [|d s']; [done |].
    destruct (isHighSurrogate c && isLowSurrogate d).
    + destruct (codePoints (d :: s')) as [|x r]; cbn [length] in *; lia.
    + cbn [length] in *. lia.
  - destruct s as [|c [|d s']]; [done | done |]. intros _.
    cbn [codePoints]. by destruct (_ && _).
Qed.

Lemma jaro_finite (str1 str2 : jsstring) :
  representable str1 -> representable str2 ->
  finiteBelow 60 (calculateJaroSimilarity (R := float) str1 str2).
Proof.
  unfold representable. intros Hr1 Hr2. unfold calculateJaroSimilarity.
  destruct (JS.eqb str1 str2); [by vm_compute |].
  destruct (_ || _) eqn:Hlen; [by vm_compute |].
  apply orb_false_iff in Hlen as [Hl1 Hl2].
  apply Nat.eqb_neq in Hl1, Hl2.
  pose proof (jaroFindMatches_counts str1 str2) as Hc. cbn zeta in Hc.
  pose proof (jaroTranspositions_le str1 str2) as Ht.
  destruct (jaroFindMatches str1 str2) as [[m1 m2] c]. cbn [fst snd] in Hc.
  destruct Hc as (Hlen1 & Hlen2 & Hc1 & Hc2).
  specialize (Ht m1 m2 Hlen1). rewrite <- Hc1 in Ht.
  destruct (c =? 0)%nat eqn:Hzero; [by vm_compute |].
  apply Nat.eqb_neq in Hzero.
  pose proof (marked_le_length m1). pose proof (marked_le_length m2).
  set (t := jaroTranspositions str1 str2 m1 m2) in *.
  cbn [num_ofZ num_add num_sub num_div float_number].
  assert (H53 : 2 ^ 52 < 2 ^ 53) by done.
  destruct (ofZ_count (Z.of_nat c)) as [Hm1 Hm]; [lia |].
  destruct (ofZ_count (Z.of_nat (length str1))) as [Hn1 _]; [lia |].
  destruct (ofZ_count (Z.of_nat (length str2))) as [Hn2 _]; [lia |].
  assert (Ht' : finiteBelow 53 (FloatNum.ofZ (Z.of_nat t)))
    by (apply ofZ_finite; lia).
  assert (H2 : atLeast 1 (Prim2SF (FloatNum.ofZ 2)) = true) by (by vm_compute).
  assert (H3 : atLeast 1 (Prim2SF (FloatNum.ofZ 3)) = true) by (by vm_compute).
  apply (div_finite _ _ 59); [| done | lia].
  apply (add_finite _ _ 57); [| | lia].
  - apply (finiteBelow_mono 56); [lia |].
    apply (add_finite _ _ 54); [| | lia];
      by apply (div_finite _ _ 53); [| | lia].
  - apply (div_finite _ _ 56); [| done | lia].
    apply (sub_finite _ _ 54); [| | lia].
    + by apply (finiteBelow_mono 53); [lia |].
    + by apply (div_finite _ _ 53); [| | lia].
Qed.

Lemma overlap_finite (str1 str2 : jsstring) :
  str1 <> [] \/ str2 <> [] ->
  representable str1 -> representable str2 ->
  finiteBelow 54 (calculateCharacterOverlap (R := float) str1 str2).
Proof.
  unfold representable. intros Hne Hr1 Hr2.
  rewrite calculateCharacterOverlap_fold.
  destruct (overlap_matches (codePoints str1) (codePoints str2)) as [H1 H2].
  cbn zeta in H1, H2.
  destruct (codePoints_length str1) as [Hl1 Hn1].
  destruct (codePoints_length str2) as [Hl2 Hn2].
  assert (Hpos : (0 < length (codePoints str1) + length (codePoints str2))%nat).
  { destruct Hne as [Hne | Hne].
    - specialize (Hn1 Hne). destruct (codePoints str1); [done | cbn; lia].
    - specialize (Hn2 Hne). destruct (codePoints str2); [done | cbn; lia]. }
  assert (H53 : 2 ^ 53 = 2 * 2 ^ 52) by done.
  cbn [num_ofZ num_div float_number].
  apply (div_finite _ _ 53); [| | lia].
  - apply ofZ_finite. lia.
  - apply ofZ_count. lia.
Qed.

Lemma weightedAverage_finite (levenshtein jaro overlap containment : float) :
  finiteBelow 56 levenshtein -> finiteBelow 60 jaro ->
  finiteBelow 54 overlap -> finiteBelow 0 containment ->
  finiteBelow 67 (weightedAverage levenshtein jaro overlap containment).
Proof.
  intros Hl Hj Ho Hc. unfold weightedAverage.
  cbn [num_add num_mul float_number].
  assert (H4 : finiteBelow 0 (dec 4 10)) by (by vm_compute).
  assert (H3 : finiteBelow 0 (dec 3 10)) by (by vm_compute).
  assert (H2 : finiteBelow 0 (dec 2 10)) by (by vm_compute).
  assert (H1 : finiteBelow 0 (dec 1 10)) by (by vm_compute).
  apply (add_finite _ _ 65); [| | lia].
  - apply (add_finite _ _ 63); [| | lia].
    + apply (add_finite _ _ 61); [| | lia].
      * apply (finiteBelow_mono (56 + 0 + 1)); [lia |].
        by apply mul_finite.
      * apply (finiteBelow_mono (60 + 0 + 1)); [lia |].
        by apply mul_finite.
    + apply (finiteBelow_mono (54 + 0 + 1)); [lia |]. by apply mul_finite.
  - apply (finiteBelow_mono (0 + 0 + 1)); [lia |]. by apply mul_finite.
Qed.

Lemma levenshtein_score_finite (word1 word2 : jsstring) :
  word1 <> [] -> representable word1 -> representable word2 ->
  finiteBelow 56
    (num_ofZ 1
     - num_ofZ (Z.of_nat (calculateLevenshteinDistance word1 word2))
       / num_ofZ (Z.max (Z.of_nat (length word1))
                        (Z.of_nat (length word2))))%num.
Proof.
  unfold representable. intros Hne Hr1 Hr2.
  pose proof (levenshtein_le_longer word1 word2) as Hd.
  assert (0 < length word1)%nat by (destruct word1; [done | cbn; lia]).
  assert (H53 : 2 ^ 52 < 2 ^ 53) by done.
  cbn [num_ofZ num_sub num_div float_number].
  apply (sub_finite _ _ 54); [by vm_compute | | lia].
  apply (div_finite _ _ 53); [| | lia].
  - apply ofZ_finite. lia.
  - apply ofZ_count. lia.
Qed.

(** The combined score, once the three guards are passed, and its size. *)
Lemma similarity_on_doubles (word1 word2 : jsstring) :
  representable word1 -> representable word2 ->
  let score := calculateAdvancedSimilarity (R := float) word1 word2 in
  let containment : float :=
    if includes word1 word2 || includes word2 word1
    then dec 8 10 else num_ofZ 0 in
  let weighted :=
    weightedAverage
      (num_ofZ 1
       - num_ofZ (Z.of_nat (calculateLevenshteinDistance word1 word2))
         / num_ofZ (Z.max (Z.of_nat (length word1))
                          (Z.of_nat (length word2))))%num
      (calculateJaroSimilarity word1 word2)
      (calculateCharacterOverlap word1 word2) containment in
  finiteBelow 67 score
  /\ (word1 <> [] -> word2 <> [] -> word1 <> word2 ->
      Z.abs (Z.of_nat (length word1) - Z.of_nat (length word2))
      <= Z.min (Z.of_nat (length word1)) (Z.of_nat (length word2)) ->
      score = FloatNum.max weighted containment
      /\ finiteBelow 67 weighted
      /\ (containment <=? score)%float = true).
Proof.
  intros Hr1 Hr2. cbn zeta. unfold calculateAdvancedSimilarity.
  destruct (_ || _) eqn:Hlen.
  { split; [by vm_compute |]. intros Hn1 Hn2.
    apply orb_prop in Hlen as [Hl | Hl]; apply Nat.eqb_eq in Hl.
    - by destruct word1. - by destruct word2. }
  apply orb_false_iff in Hlen as [Hl1 Hl2].
  apply Nat.eqb_neq in Hl1, Hl2.
  assert (Hne1 : word1 <> []) by (by destruct word1).
  unfold JS.eqb. destruct (bool_decide_reflect (word1 = word2)) as [Heq | Hneq].
  { split; [by vm_compute | done]. }
  destruct (Z.gtb_spec (Z.abs (Z.of_nat (length word1) - Z.of_nat (length word2)))
              (Z.min (Z.of_nat (length word1)) (Z.of_nat (length word2))))
    as [Hfar | Hnear].
  { split; [by vm_compute |]. intros. lia. }
  set (containment := if includes word1 word2 || includes word2 word1
                      then dec 8 10 else num_ofZ 0).
  assert (Hc : finiteBelow 0 containment).
  { subst containment. by destruct (_ || _); vm_compute. }
  pose proof (weightedAverage_finite _ _ _ _
                (levenshtein_score_finite word1 word2 Hne1 Hr1 Hr2)
                (jaro_finite word1 word2 Hr1 Hr2)
                (overlap_finite word1 word2 (or_introl Hne1) Hr1 Hr2) Hc) as Hw.
  set (weighted := weightedAverage _ _ _ _) in *.
  pose proof (finiteBelow_not_nan _ _ Hw) as Hwn.
  pose proof (finiteBelow_not_nan _ _ Hc) as Hcn.
  cbn [num_max float_number].
  split.
  - destruct (max_cases weighted containment Hwn Hcn) as [-> | ->];
      [done |]. by apply (finiteBelow_mono 0).
  - intros _ _ _ _. split; [done |]. split; [done |].
    by apply max_floor.
Qed.

(** ** The containment floor on doubles *)

(** C9, as amended, on the doubles the code computes with.  For two
    non-empty words one of which contains the other: equal words score
    1; different words whose lengths differ by no more than the shorter
    length score [Math.max(weighted, 0.8)], where the weighted sum is a
    number (never NaN), so the score is at least 0.8; words whose lengths
    differ by more score 0. *)
Theorem containment_floor (word1 word2 : jsstring) :
  word1 <> [] -> word2 <> [] ->
  includes word1 word2 || includes word2 word1 = true ->
  representable word1 -> representable word2 ->
  let len1 := Z.of_nat (length word1) in
  let len2 := Z.of_nat (length word2) in
  let score := calculateAdvancedSimilarity (R := float) word1 word2 in
  let weighted :=
    weightedAverage
      (num_ofZ 1
       - num_ofZ (Z.of_nat (calculateLevenshteinDistance word1 word2))
         / num_ofZ (Z.max len1 len2))%num
      (calculateJaroSimilarity word1 word2)
      (calculateCharacterOverlap word1 word2) (dec 8 10) in
  (word1 = word2 -> score = num_ofZ 1)
  /\ (word1 <> word2 -> Z.abs (len1 - len2) <= Z.min len1 len2 ->
      score = FloatNum.max weighted (dec 8 10)
      /\ is_nan weighted = false
      /\ (dec 8 10 <=? score)%float = true)
  /\ (Z.min len1 len2 < Z.abs (len1 - len2) -> score = num_ofZ 0).
Proof.
  intros Hne1 Hne2 Hcontains Hr1 Hr2. cbn zeta.
  assert (Hl1 : (length word1 =? 0)%nat = false)
    by (destruct word1; [done | reflexivity]).
  assert (Hl2 : (length word2 =? 0)%nat = false)
    by (destruct word2; [done | reflexivity]).
  split; [| split].
  - intros Heq. unfold calculateAdvancedSimilarity.
    rewrite Hl1, Hl2. cbn [orb]. unfold JS.eqb.
    by rewrite bool_decide_eq_true_2.
  - intros Hneq Hnear.
    destruct (similarity_on_doubles word1 word2 Hr1 Hr2) as [_ Hmain].
    cbn zeta in Hmain. rewrite Hcontains in Hmain.
    destruct (Hmain Hne1 Hne2 Hneq Hnear) as (Hscore & Hw & Hfloor).
    split; [done |]. split; [| done].
    by apply (finiteBelow_not_nan 67).
  - intros Hfar. unfold calculateAdvancedSimilarity.
    rewrite Hl1, Hl2. cbn [orb]. unfold JS.eqb.
    rewrite bool_decide_eq_false_2 by (intros ->; lia).
    by destruct (Z.gtb_spec
                   (Z.abs (Z.of_nat (length word1) - Z.of_nat (length word2)))
                   (Z.min (Z.of_nat (length word1)) (Z.of_nat (length word2))));
      [| lia].
Qed.

(** "badwor" inside "badword": the lengths 6 and 7 pass the guard and the
    score is at least 0.8. *)
Lemma containment_floor_witness :
  str "badwor" <> [] /\ str "badword" <> []
  /\ includes (str "badwor") (str "badword")
     || includes (str "badword") (str "badwor") = true
  /\ representable (str "badwor") /\ representable (str "badword")
  /\ (dec 8 10
      <=? calculateAdvancedSimilarity (R := float) (str "badwor")
            (str "badword"))%float = true.
Proof.
  assert (H1 : str "badwor" <> []) by discriminate.
  assert (H2 : str "badword" <> []) by discriminate.
  assert (Hc : includes (str "badwor") (str "badword")
               || includes (str "badword") (str "badwor") = true)
    by reflexivity.
  assert (Hr1 : representable (str "badwor")) by (vm_compute; reflexivity).
  assert (Hr2 : representable (str "badword")) by (vm_compute; reflexivity).
  split; [exact H1 |]. split; [exact H2 |]. split; [exact Hc |].
  split; [exact Hr1 |]. split; [exact Hr2 |].
  destruct (containment_floor (str "badwor") (str "badword") H1 H2 Hc Hr1 Hr2)
    as (_ & Hnear & _).
  apply Hnear; [discriminate | vm_compute; discriminate].
Defined.

(** ** Scores and confidences as numbers *)

(** X21.  The similarity scores are numbers.  On doubles, for strings of
    representable length, [calculateJaroSimilarity] and
    [calculateAdvancedSimilarity] never return NaN or an infinity, nor
    does [calculateCharacterOverlap] unless both strings are empty, where
    it returns NaN (0/0).  In exact arithmetic the same scores lie
    between 0 and 1. *)
Theorem similarity_scores_are_numbers (word1 word2 : jsstring) :
  representable word1 -> representable word2 ->
  (finiteBelow 60 (calculateJaroSimilarity (R := float) word1 word2)
   /\ finiteBelow 67 (calculateAdvancedSimilarity (R := float) word1 word2)
   /\ (word1 <> [] \/ word2 <> [] ->
       finiteBelow 54 (calculateCharacterOverlap (R := float) word1 word2))
   /\ is_nan (calculateCharacterOverlap (R := float) [] []) = true)
  /\ (proportion (calculateJaroSimilarity (R := Q) word1 word2)
      /\ proportion (calculateAdvancedSimilarity (R := Q) word1 word2)
      /\ (word1 <> [] \/ word2 <> [] ->
          proportion (calculateCharacterOverlap (R := Q) word1 word2))).
Proof.
  intros Hr1 Hr2. split.
  - split; [by apply jaro_finite |].
    split; [by apply (similarity_on_doubles word1 word2) |].
    split; [intros Hne; by apply overlap_finite | by vm_compute].
  - split; [apply jaro_proportion |].
    split; [apply similarity_proportion | intros _; apply overlap_proportion].
Qed.

Lemma similarity_scores_are_numbers_witness :
  representable (str "badwor") /\ representable (str "badword")
  /\ is_nan (calculateAdvancedSimilarity (R := float) (str "badwor")
               (str "badword")) = false
  /\ proportion (calculateAdvancedSimilarity (R := Q) (str "badwor")
                   (str "badword")).
Proof.
  assert (Hr1 : representable (str "badwor")) by (vm_compute; reflexivity).
  assert (Hr2 : representable (str "badword")) by (vm_compute; reflexivity).
  split; [exact Hr1 |]. split; [exact Hr2 |].
  destruct (similarity_scores_are_numbers (str "badwor") (str "badword")
              Hr1 Hr2) as [(_ & Hf & _) (_ & Hq & _)].
  split; [exact (finiteBelow_not_nan 67 _ Hf) | exact Hq].
Defined.

Lemma min_cap_on_doubles (x : float) :
  (1 <? FloatNum.min 1 x)%float = false.
Proof.
  unfold FloatNum.min.
  destruct (is_nan 1 || is_nan x); [by vm_compute |].
  destruct (1 <? x)%float eqn:H1; [by vm_compute |].
  destruct (x <? 1)%float; [done |].
  by destruct (is_zero 1 && get_sign 1).
Qed.

Lemma running_total_capped (ds : list (DetectedWord float)) (total : float) :
  (1 <? total)%float = false ->
  (1 <? fold_left addConfidence ds total)%float = false.
Proof.
  revert total. induction ds as [|d ds IH]; intros total Ht; [done |].
  cbn [fold_left]. apply IH. unfold addConfidence.
  cbn [num_min num_ofZ float_number]. apply min_cap_on_doubles.
Qed.

(** X22.  For every number model, doubles included, the confidence of an
    analysis result is the running total over its recorded detections,
    in order: starting from 0, each detection turns the total into
    [Math.min(1.0, total + confidence * 0.3)].  On doubles it is never
    above 1. *)
Theorem result_confidence_is_running_total {R : Type} `{Number R}
    (badWords : list BadWordEntry) (text : jsstring)
    (sensitivity : Sensitivity) :
  let r := analyzeWith (R := R) badWords text sensitivity in
  let onDoubles := analyzeWith (R := float) badWords text sensitivity in
  resultConfidence r
  = fold_left addConfidence (detectedDetails r) (num_ofZ 0)
  /\ (1 <? resultConfidence onDoubles)%float = false.
Proof.
  assert (Htotal : forall (R' : Type) (H' : Number R'),
            let r := analyzeWith (R := R') badWords text sensitivity in
            resultConfidence r
            = fold_left addConfidence (detectedDetails r) (num_ofZ 0)).
  { intros R' H'. cbn zeta. rewrite analyzeWith_fold.
    cbn [detectedDetails resultConfidence].
    apply (analyzeWord_invariant text (confidenceThreshold sensitivity)
             (fun ds _ total =>
                total = fold_left addConfidence ds (num_ofZ 0)));
      [| done].
    intros ds m total wordData -> det _ _.
    by rewrite fold_left_app. }
  cbn zeta. split; [apply Htotal |].
  rewrite (Htotal float float_number). by apply running_total_capped.
Qed.

(** Two detections on doubles: the running total is not the rounded
    closed form [0.3 * (1 + 0.9)]. *)
Lemma running_total_on_doubles :
  let ds : list (DetectedWord float) := [directHit; reverseHit] in
  fold_left addConfidence ds 0%float = 0x1.23d70a3d70a3ep-1%float
  /\ (dec 3 10 * (1 + dec 9 10))%float = 0x1.23d70a3d70a3dp-1%float.
Proof. vm_compute. split; reflexivity. Qed.
